(** * CIDRGuardian: the allocation engine over its in-memory storage

    A shallow embedding of [pool.go] and [memory_storage.go], together with
    the IPv4 fragment of Go's [net] package that the engine calls
    ([ParseIP], [ParseCIDR], [CIDRMask], [IP.Mask], [IP.To4], [IP.String],
    [IPNet.Contains]), followed by the properties of the specification.

    Conventions.
    - A byte is a [Z] in [0, 256); a [net.IP] is the list of its bytes.
    - Go strings are [string]; storage keys are the strings themselves.
    - A [context.Context] is observed only through [ctx.Err()]; it is
      modelled by the boolean "already cancelled", constant during a call.
    - A loop that walks a block with [nextIP] until [Contains] fails takes
      fuel: for a /0 network the Go loop never leaves the block.
    - Go ranges over a map in an order it leaves open; where a result
      depends on that order ([GetUsedCIDRs]) the order is a parameter.
    - Only IPv4 text is parsed and printed; IPv6 text is rejected. *)

From Stdlib Require Import ZArith Lia Bool List Ascii String Sorted.
From stdpp Require Import base gmap strings list fin_maps sorting.

Local Open Scope Z_scope.

(** ** Go's [net] package, IPv4 fragment *)

Module Net.

Definition IP := list Z.
Definition IPMask := list Z.

Definition IPv4len : nat := 4.
Definition IPv6len : nat := 16.

Definition v4InV6Prefix : list Z := [0; 0; 0; 0; 0; 0; 0; 0; 0; 0; 255; 255].

Definition is_byte (b : Z) : Prop := 0 <= b < 256.

(** A four-byte address whose entries are bytes. *)
Definition ip4 (ip : IP) : Prop :=
  exists a b c d, ip = [a; b; c; d] /\ is_byte a /\ is_byte b /\ is_byte c /\ is_byte d.

(** The address as a number, most significant byte first. *)
Definition ipZ (ip : IP) : Z := fold_left (fun acc b => acc * 256 + b) ip 0.

(** [IP.To4]: the 4-byte form of an IPv4 address, [None] for Go's nil. *)
Definition To4 (ip : IP) : option IP :=
  if (length ip =? IPv4len)%nat then Some ip
  else if (length ip =? IPv6len)%nat
          && forallb (Z.eqb 0) (take 10 ip)
          && (nth 10 ip 0 =? 255) && (nth 11 ip 0 =? 255)
       then Some (drop 12 ip)
       else None.

(** [CIDRMask(ones, bits)]; the empty list stands for Go's nil mask. *)
Fixpoint CIDRMask_loop (l : nat) (n : Z) : IPMask :=
  match l with
  | O => []
  | S l' =>
      if 8 <=? n then 255 :: CIDRMask_loop l' (n - 8)
      else Z.land (Z.lnot (Z.shiftr 255 n)) 255 :: CIDRMask_loop l' 0
  end.

Definition CIDRMask (ones bits : Z) : IPMask :=
  if negb ((bits =? 32) || (bits =? 128)) then []
  else if (ones <? 0) || (bits <? ones) then []
  else CIDRMask_loop (Z.to_nat (bits / 8)) ones.

(** [IP.Mask(mask)]; the empty list stands for Go's nil result. *)
Fixpoint and_bytes (ip : list Z) (mask : list Z) : list Z :=
  match ip, mask with
  | b :: ip', m :: mask' => Z.land b m :: and_bytes ip' mask'
  | _, _ => []
  end.

Definition Mask (ip : IP) (mask : IPMask) : IP :=
  let mask :=
    if (length mask =? IPv6len)%nat && (length ip =? IPv4len)%nat
       && forallb (Z.eqb 255) (take 12 mask)
    then drop 12 mask else mask in
  let ip :=
    if (length mask =? IPv4len)%nat && (length ip =? IPv6len)%nat
       && bool_decide (take 12 ip = v4InV6Prefix)
    then drop 12 ip else ip in
  if (length ip =? length mask)%nat then and_bytes ip mask else [].

Record IPNet := mkIPNet { IPNet_IP : IP; IPNet_Mask : IPMask }.

(** [networkNumberAndMask]; [None] for the pair of nils. *)
Definition networkNumberAndMask (n : IPNet) : option (IP * IPMask) :=
  let ipo :=
    match To4 (IPNet_IP n) with
    | Some ip => Some ip
    | None => if (length (IPNet_IP n) =? IPv6len)%nat then Some (IPNet_IP n) else None
    end in
  match ipo with
  | None => None
  | Some ip =>
      let m := IPNet_Mask n in
      if (length m =? IPv4len)%nat then
        if (length ip =? IPv4len)%nat then Some (ip, m) else None
      else if (length m =? IPv6len)%nat then
        if (length ip =? IPv4len)%nat then Some (ip, drop 12 m) else Some (ip, m)
      else None
  end.

(** The comparison loop of [IPNet.Contains]. *)
Fixpoint same_masked (nn m ip : list Z) : bool :=
  match nn, m, ip with
  | a :: nn', k :: m', b :: ip' =>
      if Z.land a k =? Z.land b k then same_masked nn' m' ip' else false
  | _, _, _ => true
  end.

Definition Contains (n : IPNet) (ip : IP) : bool :=
  let '(nn, m) :=
    match networkNumberAndMask n with
    | Some nm => nm
    | None => ([], [])
    end in
  let ip := match To4 ip with Some x => x | None => ip end in
  if (length ip =? length nn)%nat then same_masked nn m ip else false.

(** *** Printing *)

Definition digit (n : Z) : ascii := ascii_of_nat (48 + Z.to_nat n).

(** [appendDecimal] of [netip]: a byte without leading zeros. *)
Definition appendDecimal (b : string) (x : Z) : string :=
  let b := if 100 <=? x then b +:+ String (digit (x / 100)) "" else b in
  let b := if 10 <=? x then b +:+ String (digit (x / 10 mod 10)) "" else b in
  b +:+ String (digit (x mod 10)) "".

(** [IP.String]. Only IPv4 text is modelled: an address that is neither
    empty nor IPv4 is printed as ["?"]. *)
Definition IP_String (ip : IP) : string :=
  if (length ip =? 0)%nat then "<nil>"
  else match To4 ip with
       | Some [a; b; c; d] =>
           appendDecimal (appendDecimal (appendDecimal (appendDecimal "" a +:+ ".") b +:+ ".") c +:+ ".") d
       | _ => "?"
       end.

(** [%d] of a Go [int]. *)
Fixpoint itoa_loop (fuel : nat) (n : Z) (acc : string) : string :=
  match fuel with
  | O => acc
  | S fuel' =>
      let acc' := String (digit (n mod 10)) acc in
      if n <? 10 then acc' else itoa_loop fuel' (n / 10) acc'
  end.

Definition itoa (n : Z) : string :=
  if n <? 0 then String "-" (itoa_loop 20 (- n) "") else itoa_loop 20 n "".

(** *** Parsing *)

Definition is_digit (c : ascii) : bool :=
  (48 <=? nat_of_ascii c)%nat && (nat_of_ascii c <=? 57)%nat.

Definition digit_val (c : ascii) : Z := Z.of_nat (nat_of_ascii c) - 48.

(** The loop of [netip.parseIPv4]. [prev] is [s[i-1]], absent at [i = 0];
    the remaining text is empty exactly when [i = len(s) - 1]. *)
Fixpoint parseIPv4_loop (s : string) (prev : option ascii)
    (fields : list Z) (val : Z) (pos : nat) (digLen : Z) : option IP :=
  match s with
  | EmptyString =>
      if (pos <? 3)%nat then None else Some (<[3%nat := val]> fields)
  | String c rest =>
      if is_digit c then
        if (digLen =? 1) && (val =? 0) then None
        else
          let val' := val * 10 + digit_val c in
          if 255 <? val' then None
          else parseIPv4_loop rest (Some c) fields val' pos (digLen + 1)
      else if Ascii.eqb c "." then
        if match prev with None => true | Some p => Ascii.eqb p "." end
           || String.eqb rest ""
        then None
        else if (pos =? 3)%nat then None
        else parseIPv4_loop rest (Some c) (<[pos := val]> fields) 0 (S pos) 0
      else None
  end.

Definition parseIPv4 (s : string) : option IP :=
  parseIPv4_loop s None [0; 0; 0; 0] 0 0%nat 0.

(** [netip.ParseAddr]: the first of ['.'], [':'], ['%'] selects the parser.
    IPv6 text is outside the model and is rejected. *)
Fixpoint ParseAddr_scan (whole s : string) : option IP :=
  match s with
  | EmptyString => None
  | String c rest =>
      if Ascii.eqb c "." then parseIPv4 whole
      else if Ascii.eqb c ":" then None
      else if Ascii.eqb c "%" then None
      else ParseAddr_scan whole rest
  end.

Definition ParseAddr (s : string) : option IP := ParseAddr_scan s s.

(** [net.ParseIP]: the 16-byte form of the address. *)
Definition ParseIP (s : string) : option IP :=
  match ParseAddr s with
  | Some a => Some (v4InV6Prefix ++ a)
  | None => None
  end.

Definition big : Z := 16777215.

(** [dtoi]: decimal to integer; returns the number, the characters
    consumed and success. *)
Fixpoint dtoi_loop (s : string) (n : Z) (i : nat) : Z * nat * bool :=
  match s with
  | EmptyString => (n, i, true)
  | String c rest =>
      if is_digit c then
        let n' := n * 10 + digit_val c in
        if big <=? n' then (big, i, false) else dtoi_loop rest n' (S i)
      else (n, i, true)
  end.

Definition dtoi (s : string) : Z * nat * bool :=
  match dtoi_loop s 0 0%nat with
  | (n, i, false) => (n, i, false)
  | (n, i, true) => if (i =? 0)%nat then (0, 0%nat, false) else (n, i, true)
  end.

(** [bytealg.IndexByteString]. *)
Fixpoint IndexByte (s : string) (c : ascii) : option nat :=
  match s with
  | EmptyString => None
  | String x rest =>
      if Ascii.eqb x c then Some 0%nat
      else match IndexByte rest c with Some i => Some (S i) | None => None end
  end.

(** [net.ParseCIDR]: the address and the network it lies in. *)
Definition ParseCIDR (s : string) : option (IP * IPNet) :=
  match IndexByte s "/" with
  | None => None
  | Some i =>
      let addr := substring 0 i s in
      let mask := substring (S i) (String.length s - S i) s in
      match ParseAddr addr with
      | None => None
      | Some a =>
          match dtoi mask with
          | (n, j, ok) =>
              if negb ok || negb (j =? String.length mask)%nat || (n <? 0) || (32 <? n)
              then None
              else
                let m := CIDRMask n 32 in
                let ip16 := v4InV6Prefix ++ a in
                Some (ip16, mkIPNet (Mask ip16 m) m)
          end
      end
  end.

(** [sort.Strings]: ascending in the byte order of Go strings. *)
Fixpoint insert_sorted (x : string) (l : list string) : list string :=
  match l with
  | [] => [x]
  | y :: l' => if String.leb x y then x :: l else y :: insert_sorted x l'
  end.

Definition sort_Strings (l : list string) : list string :=
  fold_right insert_sorted [] l.

(** [cloneIP] of pool.go: a fresh slice with the same bytes. Lists are
    values, so the copy is the list itself. *)
Definition cloneIP (ip : IP) : IP := ip.

(** [nextIP] of pool.go: increment in place from the last byte, carrying
    while a byte wraps to zero. [k] is [i + 1]. *)
Fixpoint nextIP_loop (k : nat) (ip : IP) : IP :=
  match k with
  | O => ip
  | S i =>
      let b := (nth i ip 0 + 1) mod 256 in
      let ip' := <[i := b]> ip in
      if 0 <? b then ip' else nextIP_loop i ip'
  end.

Definition nextIP (ip : IP) : IP := nextIP_loop (length ip) ip.

End Net.

Import Net.

(** ** Errors and contexts *)

(** One constructor per error the two files build; the Go text is quoted. *)
Inductive error : Type :=
| Cancelled                           (* ctx.Err() of a cancelled context *)
| InvalidCIDR (cidr : string)         (* "无效的CIDR格式 ..." *)
| InvalidIP (ip : string)             (* "无效的IP地址格式: %s" *)
| DuplicateCIDR (cidr : string)       (* "CIDR %s 已在管理池中" *)
| NotManaged (cidr : string)          (* "CIDR %s 不在管理池中" *)
| AddressAlreadyAllocated (ip : string) (* "IP %s 已被分配" *)
| AddressUnavailable (ip : string)    (* "IP %s 不在可用池中" *)
| NotAllocated (ip : string)          (* "IP %s 不在已分配池中" *)
| NoAvailableAddress                  (* "没有可用的IP" *)
| InvalidPrefix (bits : Z)            (* "无效的子网掩码位数: %d" *)
| NoCapacity (bits : Z)               (* "没有足够的IP可以分配 /%d 子网" *)
| NoAlignedBlock                      (* "没有找到网络对齐的起始IP" *)
| BlockAddressUnavailable (ip : string) (* "IP %s 不可用" *)
| CIDRNotAllocated (cidr : string)    (* "CIDR %s 未被分配" *)
| NilDereference                      (* a run-time panic: nil *IPNet, index out of range *)
| InitialCIDRFailed (cidr : string) (err : error). (* "添加初始 CIDR %s 失败: %v" *)

(** The test [strings.Contains(err.Error(), "已被分配") ||
    strings.Contains(err.Error(), "already allocated")], on the errors the
    in-memory [AddIP] returns. *)
Definition mentions_already_allocated (e : error) : bool :=
  match e with
  | AddressAlreadyAllocated _ => true
  | _ => false
  end.

Definition result (A : Type) : Type := error + A.

(** [true] when the context is already cancelled. *)
Definition Context := bool.

Definition ctx_Err (ctx : Context) : option error :=
  if ctx then Some Cancelled else None.

(** ** memory_storage.go *)

Record MemoryIPStorage := mkStorage {
  available : gmap string bool;
  allocated : gmap string string
}.

Definition NewMemoryIPStorage : MemoryIPStorage := mkStorage ∅ ∅.

Module Storage.

Definition AddIP (ctx : Context) (ip : string) (s : MemoryIPStorage)
  : result unit * MemoryIPStorage :=
  match ctx_Err ctx with
  | Some err => (inl err, s)
  | None =>
      match allocated s !! ip with
      | Some _ => (inl (AddressAlreadyAllocated ip), s)
      | None => (inr tt, mkStorage (<[ip := true]> (available s)) (allocated s))
      end
  end.

Definition RemoveIP (ctx : Context) (ip : string) (s : MemoryIPStorage)
  : result unit * MemoryIPStorage :=
  match ctx_Err ctx with
  | Some err => (inl err, s)
  | None =>
      match available s !! ip with
      | None => (inl (AddressUnavailable ip), s)
      | Some _ => (inr tt, mkStorage (delete ip (available s)) (allocated s))
      end
  end.

Definition IsIPAvailable (ctx : Context) (ip : string) (s : MemoryIPStorage)
  : result bool * MemoryIPStorage :=
  match ctx_Err ctx with
  | Some err => (inl err, s)
  | None => (inr (bool_decide (is_Some (available s !! ip))), s)
  end.

(** The keys in the order of the map's range, then [sort.Strings]. *)
Definition GetAvailableIPs (ctx : Context) (s : MemoryIPStorage)
  : result (list string) * MemoryIPStorage :=
  match ctx_Err ctx with
  | Some err => (inl err, s)
  | None => (inr (sort_Strings (map fst (map_to_list (available s)))), s)
  end.

Definition AllocateIP (ctx : Context) (ip description : string) (s : MemoryIPStorage)
  : result unit * MemoryIPStorage :=
  match ctx_Err ctx with
  | Some err => (inl err, s)
  | None =>
      match available s !! ip with
      | None => (inl (AddressUnavailable ip), s)
      | Some _ =>
          (inr tt, mkStorage (delete ip (available s)) (<[ip := description]> (allocated s)))
      end
  end.

Definition DeallocateIP (ctx : Context) (ip : string) (s : MemoryIPStorage)
  : result unit * MemoryIPStorage :=
  match ctx_Err ctx with
  | Some err => (inl err, s)
  | None =>
      match allocated s !! ip with
      | None => (inl (NotAllocated ip), s)
      | Some _ =>
          (inr tt, mkStorage (<[ip := true]> (available s)) (delete ip (allocated s)))
      end
  end.

(** A copy of the allocated map. *)
Definition GetAllocatedIPs (ctx : Context) (s : MemoryIPStorage)
  : result (gmap string string) * MemoryIPStorage :=
  match ctx_Err ctx with
  | Some err => (inl err, s)
  | None => (inr (allocated s), s)
  end.

Definition AvailableCount (ctx : Context) (s : MemoryIPStorage)
  : result Z * MemoryIPStorage :=
  match ctx_Err ctx with
  | Some err => (inl err, s)
  | None => (inr (Z.of_nat (size (available s))), s)
  end.

Definition AllocatedCount (ctx : Context) (s : MemoryIPStorage)
  : result Z * MemoryIPStorage :=
  match ctx_Err ctx with
  | Some err => (inl err, s)
  | None => (inr (Z.of_nat (size (allocated s))), s)
  end.

End Storage.

(** ** pool.go *)

Record CIDRInfo := mkCIDRInfo {
  CIDR : string;
  Description : string;
  IPNet_of : IPNet
}.

(** The registry lock only orders concurrent callers; a single caller is
    modelled, so [mu] has no counterpart. *)
Record CIDRGuardian := mkGuardian {
  storage : MemoryIPStorage;
  managedCIDRs : gmap string CIDRInfo
}.

(** An engine call: it may change the engine and storage, returns an error
    or a value, and is [None] when a block walk ran out of fuel. *)
Definition M (A : Type) : Type := CIDRGuardian -> option (result A * CIDRGuardian).

#[export] Instance M_ret : MRet M := fun A a g => Some (inr a, g).

#[export] Instance M_bind : MBind M := fun A B k m g =>
  match m g with
  | None => None
  | Some (inl e, g') => Some (inl e, g')
  | Some (inr a, g') => k a g'
  end.

Definition fail {A} (e : error) : M A := fun g => Some (inl e, g).

(** Run [m] and hand its error to the caller instead of returning it. *)
Definition attempt {A} (m : M A) : M (result A) := fun g =>
  match m g with
  | None => None
  | Some (r, g') => Some (inr r, g')
  end.

(** A call on [g.storage]. *)
Definition on_storage {A} (op : MemoryIPStorage -> result A * MemoryIPStorage) : M A :=
  fun g => let '(r, s') := op (storage g) in Some (r, mkGuardian s' (managedCIDRs g)).

Definition registry : M (gmap string CIDRInfo) := fun g => Some (inr (managedCIDRs g), g).

Definition set_registry (f : gmap string CIDRInfo -> gmap string CIDRInfo) : M unit :=
  fun g => Some (inr tt, mkGuardian (storage g) (f (managedCIDRs g))).

(** [if err := ctx.Err(); err != nil { return err }]. *)
Definition check (ctx : Context) : M unit :=
  match ctx_Err ctx with
  | Some err => fail err
  | None => mret tt
  end.

(** [for ip := start; ipNet.Contains(ip); nextIP(ip) { body }], with a
    loop-carried value. *)
Fixpoint walk {A} (fuel : nat) (ipNet : IPNet) (ip : IP) (body : IP -> A -> M A) (a : A) : M A :=
  match fuel with
  | O => fun _ => None
  | S fuel' =>
      if Contains ipNet ip
      then a' ← body ip a; walk fuel' ipNet (nextIP ip) body a'
      else mret a
  end.

(** [for ip := start; ipNet.Contains(ip) && ipCount < size; nextIP(ip)
    { body; ipCount++ }]; [left] is [size - ipCount]. *)
Fixpoint walk_counted (left : nat) (ipNet : IPNet) (ip : IP) (body : IP -> M unit) : M unit :=
  match left with
  | O => mret tt
  | S left' =>
      if Contains ipNet ip
      then body ip;; walk_counted left' ipNet (nextIP ip) body
      else mret tt
  end.

(** [for _, addedIP := range addedIPs { _ = g.storage.RemoveIP(ctx, addedIP) }]. *)
Fixpoint rollback (ctx : Context) (addedIPs : list string) : M unit :=
  match addedIPs with
  | [] => mret tt
  | addedIP :: rest =>
      attempt (on_storage (Storage.RemoveIP ctx addedIP));; rollback ctx rest
  end.

(** The first loop of [AddCIDR]: [ipList = append(ipList, cloneIP(ip))]. *)
Definition AddCIDR_collect (ip : IP) (ipList : list IP) : M (list IP) :=
  mret (ipList ++ [cloneIP ip]).

(** The second loop of [AddCIDR]. *)
Fixpoint AddCIDR_add (ctx : Context) (ipList : list IP) (addedIPs : list string) : M unit :=
  match ipList with
  | [] => mret tt
  | ip :: rest =>
      match ctx_Err ctx with
      | Some err => rollback ctx addedIPs;; fail err
      | None =>
          let ipStr := IP_String ip in
          r ← attempt (on_storage (Storage.AddIP ctx ipStr));
          match r with
          | inl err =>
              if negb (mentions_already_allocated err)
              then rollback ctx addedIPs;; fail err
              else AddCIDR_add ctx rest addedIPs
          | inr _ => AddCIDR_add ctx rest (addedIPs ++ [ipStr])
          end
      end
  end.

Definition AddCIDR (fuel : nat) (ctx : Context) (cidr description : string) : M unit :=
  check ctx;;
  match ParseCIDR cidr with
  | None => fail (InvalidCIDR cidr)
  | Some (ip, ipNet) =>
      reg ← registry;
      match reg !! cidr with
      | Some _ => fail (DuplicateCIDR cidr)
      | None =>
          ipList ← walk fuel ipNet (cloneIP (Mask ip (IPNet_Mask ipNet)))
                     AddCIDR_collect [];
          AddCIDR_add ctx ipList [];;
          set_registry (insert cidr (mkCIDRInfo cidr description ipNet))
      end
  end.

(** The loop body of [removeCIDRWithoutLock]. *)
Definition removeCIDR_body (ctx : Context) (ip : IP) (_ : unit) : M unit :=
  check ctx;;
  isAvailable ← on_storage (Storage.IsIPAvailable ctx (IP_String ip));
  if (isAvailable : bool)
  then on_storage (Storage.RemoveIP ctx (IP_String ip))
  else mret tt.

Definition removeCIDRWithoutLock (fuel : nat) (ctx : Context) (cidr : string) : M unit :=
  reg ← registry;
  match reg !! cidr with
  | None => fail (NotManaged cidr)
  | Some cidrInfo =>
      let ipNet := IPNet_of cidrInfo in
      walk fuel ipNet (cloneIP (Mask (IPNet_IP ipNet) (IPNet_Mask ipNet)))
        (removeCIDR_body ctx) tt;;
      set_registry (delete cidr)
  end.

Definition RemoveCIDR (fuel : nat) (ctx : Context) (cidr : string) : M unit :=
  removeCIDRWithoutLock fuel ctx cidr.

Definition GetManagedCIDRs (ctx : Context) : M (gmap string string) :=
  check ctx;;
  reg ← registry;
  mret (Description <$> reg).

Definition AddSingleIP (ctx : Context) (ip : string) : M unit :=
  match ParseIP ip with
  | None => fail (InvalidIP ip)
  | Some _ => check ctx;; on_storage (Storage.AddIP ctx ip)
  end.

Definition RemoveSingleIP (ctx : Context) (ip : string) : M unit :=
  check ctx;; on_storage (Storage.RemoveIP ctx ip).

(** The loop body of [ExpandPool]. *)
Definition ExpandPool_body (ctx : Context) (ip : IP) (_ : unit) : M unit :=
  check ctx;;
  allocatedIPs ← on_storage (Storage.GetAllocatedIPs ctx);
  match (allocatedIPs : gmap string string) !! IP_String ip with
  | None => on_storage (Storage.AddIP ctx (IP_String ip))
  | Some _ => mret tt
  end.

Definition ExpandPool (fuel : nat) (ctx : Context) (cidr : string) : M unit :=
  match ParseCIDR cidr with
  | None => fail (InvalidCIDR cidr)
  | Some (_, newNet) =>
      walk fuel newNet (cloneIP (Mask (IPNet_IP newNet) (IPNet_Mask newNet)))
        (ExpandPool_body ctx) tt;;
      AddCIDR fuel ctx cidr "扩展的网段"
  end.

Definition AllocateIP (ctx : Context) (ipStr description : string) : M unit :=
  on_storage (Storage.AllocateIP ctx ipStr description).

Definition GetNextAvailableIP (ctx : Context) (description : string) : M string :=
  ips ← on_storage (Storage.GetAvailableIPs ctx);
  match ips with
  | [] => fail NoAvailableAddress
  | ip :: _ => on_storage (Storage.AllocateIP ctx ip description);; mret ip
  end.

(** Step 7 of [AllocateCIDR]: is [ipStr] the text of its own /bits network
    address? *)
Definition aligned (bits : Z) (ipStr : string) : bool :=
  match ParseIP ipStr with
  | None => false
  | Some ip =>
      match To4 ip with
      | None => false
      | Some _ =>
          let mask := CIDRMask bits 32 in
          let maskedIP := cloneIP (Mask ip mask) in
          String.eqb (IP_String maskedIP) ipStr
      end
  end.

(** Step 10 of [AllocateCIDR]: the loop body. *)
Definition AllocateCIDR_check (ctx : Context) (ip : IP) : M unit :=
  isAvailable ← on_storage (Storage.IsIPAvailable ctx (IP_String ip));
  if (isAvailable : bool) then mret tt
  else fail (BlockAddressUnavailable (IP_String ip)).

(** Step 12 of [AllocateCIDR]: the loop body. *)
Definition AllocateCIDR_remove (ctx : Context) (startIP : string) (ip : IP) : M unit :=
  let ipStr := IP_String ip in
  if String.eqb ipStr startIP then mret tt
  else
    r ← attempt (on_storage (Storage.RemoveIP ctx ipStr));
    match r with
    | inl err =>
        attempt (on_storage (Storage.DeallocateIP ctx startIP));;
        fail err
    | inr _ => mret tt
    end.

Definition AllocateCIDR (ctx : Context) (bits : Z) (description : string) : M string :=
  check ctx;;
  if (bits <? 0) || (32 <? bits) then fail (InvalidPrefix bits)
  else
    availableIPs ← on_storage (Storage.GetAvailableIPs ctx);
    let size := Z.shiftl 1 (32 - bits) in
    if Z.of_nat (length availableIPs) <? size then fail (NoCapacity bits)
    else
      let availableIPs := sort_Strings availableIPs in
      let candidateStartIPs := List.filter (aligned bits) availableIPs in
      match sort_Strings candidateStartIPs with
      | [] => fail NoAlignedBlock
      | startIP :: _ =>
          let cidr := (startIP +:+ "/" +:+ itoa bits)%string in
          match ParseCIDR cidr with
          | None => fail NilDereference
          | Some (_, ipNet) =>
              walk_counted (Z.to_nat size) ipNet (cloneIP (IPNet_IP ipNet))
                (AllocateCIDR_check ctx);;
              on_storage (Storage.AllocateIP ctx startIP
                            (cidr +:+ " - " +:+ description)%string);;
              walk_counted (Z.to_nat size) ipNet (cloneIP (IPNet_IP ipNet))
                (AllocateCIDR_remove ctx startIP);;
              mret cidr
          end
      end.

Definition ReleaseIP (ctx : Context) (ipStr : string) : M unit :=
  on_storage (Storage.DeallocateIP ctx ipStr).

(** [for _, cidrInfo := range g.managedCIDRs { if cidrInfo.IPNet.Contains(ip) ... }]. *)
Definition inManagedRange (reg : gmap string CIDRInfo) (ip : IP) : bool :=
  existsb (fun kv => Contains (IPNet_of (snd kv)) ip) (map_to_list reg).

(** The loop body of [ReleaseCIDR]; [allocatedIPs] is the copy taken
    before the loop. *)
Definition ReleaseCIDR_body (ctx : Context) (allocatedIPs : gmap string string)
    (ip : IP) (_ : unit) : M unit :=
  check ctx;;
  let ipStr := IP_String ip in
  reg ← registry;
  if inManagedRange reg ip then
    match allocatedIPs !! ipStr with
    | Some _ => mret tt
    | None =>
        r ← attempt (on_storage (Storage.AddIP ctx ipStr));
        match r with
        | inl err =>
            if negb (mentions_already_allocated err) then fail err
            else mret tt
        | inr _ => mret tt
        end
    end
  else mret tt.

Definition ReleaseCIDR (fuel : nat) (ctx : Context) (cidr : string) : M unit :=
  check ctx;;
  match ParseCIDR cidr with
  | None => fail (InvalidCIDR cidr)
  | Some (_, ipNet) =>
      let networkAddr := IP_String (Mask (IPNet_IP ipNet) (IPNet_Mask ipNet)) in
      allocatedIPs ← on_storage (Storage.GetAllocatedIPs ctx);
      match (allocatedIPs : gmap string string) !! networkAddr with
      | None => fail (CIDRNotAllocated cidr)
      | Some _ =>
          walk fuel ipNet (cloneIP (Mask (IPNet_IP ipNet) (IPNet_Mask ipNet)))
            (ReleaseCIDR_body ctx allocatedIPs) tt;;
          on_storage (Storage.DeallocateIP ctx networkAddr)
      end
  end.

(** The loop of [GetAvailableCIDRs] over the sorted keys; [cidrs] is the
    set of /24 texts collected so far. *)
Fixpoint GetAvailableCIDRs_loop (ctx : Context) (availableIPs : list string)
    (cidrs : gmap string bool) : result (gmap string bool) :=
  match availableIPs with
  | [] => inr cidrs
  | ipStr :: rest =>
      match ctx_Err ctx with
      | Some err => inl err
      | None =>
          match ParseIP ipStr with
          | None => GetAvailableCIDRs_loop ctx rest cidrs
          | Some ip =>
              let mask := CIDRMask 24 32 in
              let network := Mask ip mask in
              let cidr := (IP_String network +:+ "/24")%string in
              GetAvailableCIDRs_loop ctx rest (<[cidr := true]> cidrs)
          end
      end
  end.

(** The keys of [cidrs] in the order of the map's range, then
    [sort.Strings]. *)
Definition GetAvailableCIDRs (ctx : Context) : M (list string) :=
  check ctx;;
  availableIPs ← on_storage (Storage.GetAvailableIPs ctx);
  match availableIPs with
  | [] => mret []
  | _ =>
      match GetAvailableCIDRs_loop ctx availableIPs ∅ with
      | inl err => fail err
      | inr cidrs => mret (sort_Strings (map fst (map_to_list cidrs)))
      end
  end.

(** [strings.Index(s, sep)]: where [sep] first occurs in [s]. *)
Fixpoint strings_Index (s sep : string) : option nat :=
  if String.prefix sep s then Some 0%nat
  else match s with
       | EmptyString => None
       | String _ rest =>
           match strings_Index rest sep with
           | Some i => Some (S i)
           | None => None
           end
       end.

(** [strings.Contains(s, sep)]. *)
Definition strings_Contains (s sep : string) : bool :=
  match strings_Index s sep with Some _ => true | None => false end.

(** [strings.SplitN(s, sep, 2)]: the text before and the text after the
    first occurrence of [sep]; [None] stands for the one-element slice Go
    returns when [sep] does not occur. *)
Definition SplitN2 (s sep : string) : option (string * string) :=
  match strings_Index s sep with
  | Some m =>
      Some (substring 0 m s,
            substring (m + String.length sep)
                      (String.length s - (m + String.length sep)) s)
  | None => None
  end.

(** The loop of [GetUsedCIDRs] over the descriptions in the order [range]
    yields them. *)
Fixpoint GetUsedCIDRs_loop (ctx : Context) (descs : list string)
    (res : gmap string string) : result (gmap string string) :=
  match descs with
  | [] => inr res
  | desc :: rest =>
      match ctx_Err ctx with
      | Some err => inl err
      | None =>
          if strings_Contains desc " - " then
            match SplitN2 desc " - " with
            | Some (cidr, description) =>
                GetUsedCIDRs_loop ctx rest (<[cidr := description]> res)
            | None => inl NilDereference (* parts[1] out of range *)
            end
          else GetUsedCIDRs_loop ctx rest res
      end
  end.

(** Go leaves the order of [range allocated] open: [range] gives the
    sequence of entries a run yields, a permutation of the map's entries. *)
Definition GetUsedCIDRs_in (range : gmap string string -> list (string * string))
    (ctx : Context) : M (gmap string string) :=
  check ctx;;
  allocatedIPs ← on_storage (Storage.GetAllocatedIPs ctx);
  match GetUsedCIDRs_loop ctx (map snd (range allocatedIPs)) ∅ with
  | inl err => fail err
  | inr res => mret res
  end.

Definition GetUsedCIDRs (ctx : Context) : M (gmap string string) :=
  GetUsedCIDRs_in map_to_list ctx.

Definition AvailableCount (ctx : Context) : M Z :=
  check ctx;; on_storage (Storage.AvailableCount ctx).

Definition AllocatedCount (ctx : Context) : M Z :=
  check ctx;; on_storage (Storage.AllocatedCount ctx).

(** [NewCIDRGuardian] on the in-memory storage. *)
Fixpoint addInitial (fuel : nat) (ctx : Context) (initialCIDRs : list string) : M unit :=
  match initialCIDRs with
  | [] => mret tt
  | cidr :: rest =>
      r ← attempt (AddCIDR fuel ctx cidr "初始 CIDR");
      match r with
      | inl err => fail (InitialCIDRFailed cidr err)
      | inr _ => addInitial fuel ctx rest
      end
  end.

Definition NewCIDRGuardian (fuel : nat) (ctx : Context) (initialCIDRs : list string)
  : option (result CIDRGuardian) :=
  match ctx_Err ctx with
  | Some err => Some (inl err)
  | None =>
      match addInitial fuel ctx initialCIDRs (mkGuardian NewMemoryIPStorage ∅) with
      | None => None
      | Some (inl err, _) => Some (inl err)
      | Some (inr _, g) => Some (inr g)
      end
  end.

(** ** Walking a block, as a list *)

(** The addresses [ip], [nextIP ip], ... that [k] steps of a walk visit. *)
Fixpoint block_list (k : nat) (ip : IP) : list IP :=
  match k with
  | O => []
  | S k' => ip :: block_list k' (nextIP ip)
  end.

(** The loop body run over a list of addresses. *)
Fixpoint walk_list {A} (ips : list IP) (body : IP -> A -> M A) (a : A) : M A :=
  match ips with
  | [] => mret a
  | ip :: rest => a' ← body ip a; walk_list rest body a'
  end.

(** The number of addresses of a /bits block. *)
Definition block_size (bits : Z) : Z := 2 ^ (32 - bits).

(** The texts of the addresses of the block of [ipNet]. *)
Definition in_block (ipNet : IPNet) (ipStr : string) : Prop :=
  exists ip, ip4 ip /\ Contains ipNet ip = true /\ IP_String ip = ipStr.

(** The bytes a /p mask is made of. *)
Definition byte_masks : list Z := [0; 128; 192; 224; 240; 248; 252; 254; 255].

(** A network as [ParseCIDR] builds it: a /p mask and a masked base. *)
Definition block_net (p : Z) (n : IPNet) : Prop :=
  0 <= p <= 32 /\ IPNet_Mask n = CIDRMask p 32 /\ ip4 (IPNet_IP n) /\
  ipZ (IPNet_IP n) mod block_size p = 0.

(** The decimal text of one byte. *)
Definition dec (x : Z) : string := appendDecimal "" x.

(** Available after adding each key of [ks] that is not Allocated. *)
Definition add_keys (ks : list string) (alloc : gmap string string)
    (av : gmap string bool) : gmap string bool :=
  foldl (fun av k => match alloc !! k with
                     | None => <[k := true]> av
                     | Some _ => av
                     end) av ks.

(** Available after removing each key of [ks]. *)
Definition del_keys (ks : list string) (av : gmap string bool) : gmap string bool :=
  foldl (fun av k => delete k av) av ks.

(** The addresses of the block of [n], a /p network, in ascending order,
    and their texts. *)
Definition block_ips (p : Z) (n : IPNet) : list IP :=
  block_list (Z.to_nat (block_size p)) (IPNet_IP n).

Definition block_strings (p : Z) (n : IPNet) : list string :=
  map IP_String (block_ips p n).

(** The walk of [n] ends within [fuel] steps: [n] is a /p network with
    [1 <= p], of fewer than [fuel] addresses. *)
Definition fuel_for (fuel : nat) (n : IPNet) : Prop :=
  exists p, block_net p n /\ 1 <= p /\ (Z.to_nat (block_size p) < fuel)%nat.

(** The engine with its Available set replaced. *)
Definition with_available (g : CIDRGuardian) (av : gmap string bool) : CIDRGuardian :=
  mkGuardian (mkStorage av (allocated (storage g))) (managedCIDRs g).

(** No key is in both sets. *)
Definition storage_disjoint (s : MemoryIPStorage) : Prop :=
  forall k, is_Some (available s !! k) -> allocated s !! k = None.

(** The operations of the storage contract, and the storage after one. *)
Inductive storage_op : Type :=
| OpAddIP (ip : string)
| OpRemoveIP (ip : string)
| OpIsIPAvailable (ip : string)
| OpGetAvailableIPs
| OpAllocateIP (ip description : string)
| OpDeallocateIP (ip : string)
| OpGetAllocatedIPs
| OpAvailableCount
| OpAllocatedCount.

Definition run_op (ctx : Context) (op : storage_op) (s : MemoryIPStorage) : MemoryIPStorage :=
  match op with
  | OpAddIP ip => snd (Storage.AddIP ctx ip s)
  | OpRemoveIP ip => snd (Storage.RemoveIP ctx ip s)
  | OpIsIPAvailable ip => snd (Storage.IsIPAvailable ctx ip s)
  | OpGetAvailableIPs => snd (Storage.GetAvailableIPs ctx s)
  | OpAllocateIP ip description => snd (Storage.AllocateIP ctx ip description s)
  | OpDeallocateIP ip => snd (Storage.DeallocateIP ctx ip s)
  | OpGetAllocatedIPs => snd (Storage.GetAllocatedIPs ctx s)
  | OpAvailableCount => snd (Storage.AvailableCount ctx s)
  | OpAllocatedCount => snd (Storage.AllocatedCount ctx s)
  end.

(** Did the operation return nil (no error)? *)
Definition op_ok (ctx : Context) (op : storage_op) (s : MemoryIPStorage) : bool :=
  let ok {A} (r : result A * MemoryIPStorage) :=
    match fst r with inr _ => true | inl _ => false end in
  match op with
  | OpAddIP ip => ok (Storage.AddIP ctx ip s)
  | OpRemoveIP ip => ok (Storage.RemoveIP ctx ip s)
  | OpIsIPAvailable ip => ok (Storage.IsIPAvailable ctx ip s)
  | OpGetAvailableIPs => ok (Storage.GetAvailableIPs ctx s)
  | OpAllocateIP ip description => ok (Storage.AllocateIP ctx ip description s)
  | OpDeallocateIP ip => ok (Storage.DeallocateIP ctx ip s)
  | OpGetAllocatedIPs => ok (Storage.GetAllocatedIPs ctx s)
  | OpAvailableCount => ok (Storage.AvailableCount ctx s)
  | OpAllocatedCount => ok (Storage.AllocatedCount ctx s)
  end.

(** [s] splits at the first occurrence of [sep] into [k] and [v]. *)
Definition split_at_first (sep s k v : string) : Prop :=
  s = k +:+ sep +:+ v /\
  forall k' v' : string, s = k' +:+ sep +:+ v' -> (String.length k <= String.length k')%nat.

(** What a call returned, without the engine it left. *)
Definition returned {A} (r : option (result A * CIDRGuardian)) : option (result A) :=
  match r with
  | Some (a, _) => Some a
  | None => None
  end.

(** ** Concrete pools *)

Definition empty_pool : CIDRGuardian := mkGuardian NewMemoryIPStorage ∅.

(** One Available address, nothing registered. *)
Definition pool_one_free : CIDRGuardian :=
  mkGuardian (mkStorage {["192.168.0.4" := true]} ∅) ∅.

(** Four Available addresses, none a /30 network address. *)
Definition pool_unaligned : CIDRGuardian :=
  mkGuardian
    (mkStorage (list_to_map [("192.168.0.1", true); ("192.168.0.2", true);
                             ("192.168.0.3", true); ("192.168.0.5", true)]) ∅) ∅.

(** A block allocation and a single-address allocation. *)
Definition pool_used : CIDRGuardian :=
  mkGuardian
    (mkStorage ∅ (list_to_map [("10.0.0.0", "10.0.0.0/30 - web"); ("10.0.0.9", "printer")]))
    ∅.

(** Two descriptions with the same text before the separator. *)
Definition pool_shared_prefix : CIDRGuardian :=
  mkGuardian
    (mkStorage ∅ (list_to_map [("10.0.0.1", "a - x"); ("10.0.0.2", "a - y")])) ∅.

(** The engine after [NewCIDRGuardian(ctx, nil, "192.168.0.0/24")]. *)
Definition pool_slash24 : CIDRGuardian :=
  match NewCIDRGuardian 300 false ["192.168.0.0/24"%string] with
  | Some (inr g) => g
  | _ => empty_pool
  end.

(** ... and after [AllocateCIDR(ctx, 30, "x")]. *)
Definition pool_slash24_x : CIDRGuardian :=
  match AllocateCIDR false 30 "x" pool_slash24 with
  | Some (_, g) => g
  | None => pool_slash24
  end.

(** The engine after [NewCIDRGuardian(ctx, nil, "10.0.0.0/30")]. *)
Definition pool_registered : CIDRGuardian :=
  match NewCIDRGuardian 10 false ["10.0.0.0/30"%string] with
  | Some (inr g) => g
  | _ => empty_pool
  end.

(** ... and after [AllocateCIDR(ctx, 31, "db")]. *)
Definition pool_registered_31 : CIDRGuardian :=
  match AllocateCIDR false 31 "db" pool_registered with
  | Some (_, g) => g
  | None => pool_registered
  end.

(** The empty engine after [AddCIDR(ctx, "10.0.0.0/30", "lab")]. *)
Definition pool_after_add : CIDRGuardian :=
  match AddCIDR 10 false "10.0.0.0/30" "lab" empty_pool with
  | Some (_, g) => g
  | None => empty_pool
  end.

(** One address made Available by [AddSingleIP], nothing registered. *)
Definition pool_single_free : CIDRGuardian :=
  mkGuardian (mkStorage {["10.0.0.0" := true]} ∅) ∅.

(** ... and after [AddCIDR(ctx, "10.0.0.0/32", "host")]. *)
Definition pool_single_added : CIDRGuardian :=
  match AddCIDR 5 false "10.0.0.0/32" "host" pool_single_free with
  | Some (_, g) => g
  | None => pool_single_free
  end.

(** One Available address. *)
Definition pool_one_host : CIDRGuardian :=
  mkGuardian (mkStorage {["10.0.0.1" := true]} ∅) ∅.

(** One Available key that is not the text of an IPv4 address. *)
Definition pool_one_key : CIDRGuardian :=
  mkGuardian (mkStorage {["::1" := true]} ∅) ∅.

(** Two Available addresses, nothing registered. *)
Definition pool_two_free : CIDRGuardian :=
  mkGuardian (mkStorage (list_to_map [("10.0.0.0", true); ("10.0.0.1", true)]) ∅) ∅.

(** ... after [AllocateCIDR(ctx, 31, "db")], and then after
    [ReleaseCIDR(ctx, "10.0.0.0/31")]. *)
Definition pool_two_free_31 : CIDRGuardian :=
  match AllocateCIDR false 31 "db" pool_two_free with
  | Some (_, g) => g
  | None => pool_two_free
  end.

Definition pool_two_free_released : CIDRGuardian :=
  match ReleaseCIDR 10 false "10.0.0.0/31" pool_two_free_31 with
  | Some (_, g) => g
  | None => pool_two_free_31
  end.

(** * Properties *)

(** ** Address arithmetic *)

Section Arithmetic.

Lemma ip4_length ip : ip4 ip -> length ip = 4%nat.
Proof. intros (a & b & c & d & -> & _). reflexivity. Qed.

Lemma ipZ_4 a b c d : ipZ [a; b; c; d] = ((a * 256 + b) * 256 + c) * 256 + d.
Proof. unfold ipZ. simpl. lia. Qed.

Lemma ipZ_range ip : ip4 ip -> 0 <= ipZ ip < 4294967296.
Proof.
  intros (a & b & c & d & -> & Ha & Hb & Hc & Hd). rewrite ipZ_4.
  unfold is_byte in *. lia.
Qed.

Lemma ipZ_inj ip ip' : ip4 ip -> ip4 ip' -> ipZ ip = ipZ ip' -> ip = ip'.
Proof.
  intros (a & b & c & d & -> & Ha & Hb & Hc & Hd)
         (a' & b' & c' & d' & -> & Ha' & Hb' & Hc' & Hd').
  rewrite !ipZ_4. unfold is_byte in *. intros H.
  assert (d = d') by lia. assert (c = c') by lia.
  assert (b = b') by lia. assert (a = a') by lia. congruence.
Qed.

(** [nextIP] is the successor modulo [2^32]. *)
Lemma nextIP_spec ip :
  ip4 ip -> ip4 (nextIP ip) /\ ipZ (nextIP ip) = (ipZ ip + 1) mod 4294967296.
Proof.
  intros (a & b & c & d & -> & Ha & Hb & Hc & Hd).
  unfold nextIP. simpl.
  assert (Hm : forall x, is_byte ((x + 1) mod 256))
    by (intros; apply Z.mod_pos_bound; lia).
  repeat match goal with
         | |- context [0 <? ?x] => destruct (Z.ltb_spec 0 x)
         end;
    (split;
     [ unfold ip4; do 4 eexists; split; [reflexivity |];
       refine (conj _ (conj _ (conj _ _))); first [assumption | apply Hm]
     | rewrite !ipZ_4; unfold is_byte in *; Z.div_mod_to_equations; lia ]).
Qed.

Lemma land_byte_mask x m :
  is_byte x -> In m byte_masks -> Z.land x m = x - x mod (256 - m).
Proof.
  intros Hx Hm.
  assert (Hall : forallb (fun x => forallb (fun m => Z.land x m =? x - x mod (256 - m)) byte_masks)
                   (seqZ 0 256) = true) by (vm_compute; reflexivity).
  rewrite forallb_forall in Hall.
  specialize (Hall x). rewrite forallb_forall in Hall.
  apply Z.eqb_eq, Hall; [| exact Hm].
  apply list_elem_of_In, elem_of_seqZ. unfold is_byte in Hx. lia.
Qed.

(** Masking with [CIDRMask p 32] clears the low [32 - p] bits. *)
Lemma and_bytes_CIDRMask p a b c d :
  0 <= p <= 32 -> is_byte a -> is_byte b -> is_byte c -> is_byte d ->
  ip4 (and_bytes [a; b; c; d] (CIDRMask p 32)) /\
  ipZ (and_bytes [a; b; c; d] (CIDRMask p 32))
  = ipZ [a; b; c; d] - ipZ [a; b; c; d] mod block_size p.
Proof.
  intros Hp Ha Hb Hc Hd.
  assert (HF : Forall (fun p =>
      ip4 (and_bytes [a; b; c; d] (CIDRMask p 32)) /\
      ipZ (and_bytes [a; b; c; d] (CIDRMask p 32))
      = ipZ [a; b; c; d] - ipZ [a; b; c; d] mod block_size p) (seqZ 0 33)).
  { assert (Hr : forall x m, is_byte x -> In m byte_masks -> is_byte (x - x mod (256 - m))).
    { intros x m Hx Hm. unfold is_byte in *. simpl in Hm.
      repeat (destruct Hm as [<- | Hm]; [simpl Z.sub; Z.div_mod_to_equations; lia |]).
      destruct Hm. }
    repeat (apply Forall_cons; split); try (by apply Forall_nil_2);
      (cbv beta; unfold block_size; rewrite !ipZ_4;
       match goal with |- context [CIDRMask ?q 32] =>
         let m := eval vm_compute in (CIDRMask q 32) in change (CIDRMask q 32) with m
       end;
       cbv [and_bytes];
       rewrite !land_byte_mask by (auto; simpl; tauto);
       split;
       [ unfold ip4; do 4 eexists; split; [reflexivity |];
         refine (conj _ (conj _ (conj _ _))); apply Hr; auto; simpl; tauto
       | rewrite ipZ_4;
         match goal with |- context [2 ^ ?e] =>
           let v := eval vm_compute in (2 ^ e) in change (2 ^ e) with v
         end;
         unfold is_byte in *; simpl Z.sub; Z.div_mod_to_equations; lia ]). }
  rewrite Forall_forall in HF. apply HF. apply elem_of_seqZ. lia.
Qed.

End Arithmetic.

(** ** Networks and containment *)

Section Networks.

Lemma CIDRMask_loop_length l n : length (CIDRMask_loop l n) = l.
Proof. revert n. induction l as [| l IH]; intros n; simpl; [reflexivity |].
  destruct (8 <=? n); simpl; rewrite IH; reflexivity. Qed.

Lemma CIDRMask_32 p : 0 <= p <= 32 -> CIDRMask p 32 = CIDRMask_loop 4 p.
Proof.
  intros Hp. unfold CIDRMask.
  replace (p <? 0) with false by (symmetry; apply Z.ltb_ge; lia).
  replace (32 <? p) with false by (symmetry; apply Z.ltb_ge; lia).
  reflexivity.
Qed.

Lemma CIDRMask_4 p : 0 <= p <= 32 ->
  exists m1 m2 m3 m4, CIDRMask p 32 = [m1; m2; m3; m4].
Proof.
  intros Hp. rewrite CIDRMask_32 by assumption.
  pose proof (CIDRMask_loop_length 4 p) as Hl.
  destruct (CIDRMask_loop 4 p) as [| m1 [| m2 [| m3 [| m4 [| ? ?]]]]]; try discriminate.
  eauto.
Qed.

(** On a 4-byte address [Mask] is the bytewise conjunction. *)
Lemma Mask_4 p a b c d : 0 <= p <= 32 ->
  Mask [a; b; c; d] (CIDRMask p 32) = and_bytes [a; b; c; d] (CIDRMask p 32).
Proof.
  intros Hp. destruct (CIDRMask_4 p Hp) as (m1 & m2 & m3 & m4 & ->). reflexivity.
Qed.

(** So it is on the 16-byte form [ParseIP] and [ParseCIDR] return. *)
Lemma Mask_16 p a b c d : 0 <= p <= 32 ->
  Mask (v4InV6Prefix ++ [a; b; c; d]) (CIDRMask p 32) = and_bytes [a; b; c; d] (CIDRMask p 32).
Proof.
  intros Hp. destruct (CIDRMask_4 p Hp) as (m1 & m2 & m3 & m4 & ->). reflexivity.
Qed.

Lemma block_size_pos p : 0 <= p <= 32 -> 0 < block_size p <= 4294967296.
Proof.
  intros Hp. unfold block_size. split; [apply Z.pow_pos_nonneg; lia |].
  change 4294967296 with (2 ^ 32). apply Z.pow_le_mono_r; lia.
Qed.

Lemma block_size_lt p : 1 <= p <= 32 -> block_size p < 4294967296.
Proof.
  intros Hp. unfold block_size. change 4294967296 with (2 ^ 32).
  apply Z.pow_lt_mono_r; lia.
Qed.

Lemma Mask_spec p ip : 0 <= p <= 32 -> ip4 ip ->
  ip4 (Mask ip (CIDRMask p 32)) /\
  ipZ (Mask ip (CIDRMask p 32)) = ipZ ip - ipZ ip mod block_size p.
Proof.
  intros Hp (a & b & c & d & -> & Ha & Hb & Hc & Hd).
  rewrite Mask_4 by assumption. apply and_bytes_CIDRMask; assumption.
Qed.

(** Masking is idempotent: a masked address is its own network address. *)
Lemma Mask_fixed p ip : 0 <= p <= 32 -> ip4 ip ->
  ipZ ip mod block_size p = 0 -> Mask ip (CIDRMask p 32) = ip.
Proof.
  intros Hp Hip Hz. destruct (Mask_spec p ip Hp Hip) as [H4 HZ].
  apply ipZ_inj; auto. rewrite HZ, Hz. lia.
Qed.

Lemma Mask_aligned p ip : 0 <= p <= 32 -> ip4 ip ->
  ipZ (Mask ip (CIDRMask p 32)) mod block_size p = 0.
Proof.
  intros Hp Hip. destruct (Mask_spec p ip Hp Hip) as [_ ->].
  pose proof (block_size_pos p Hp) as HS.
  pose proof (Z.div_mod (ipZ ip) (block_size p)) as HD.
  replace (ipZ ip - ipZ ip mod block_size p) with (ipZ ip / block_size p * block_size p) by lia.
  apply Z.mod_mul. lia.
Qed.

Lemma Mask_fixed_iff p ip : 0 <= p <= 32 -> ip4 ip ->
  Mask ip (CIDRMask p 32) = ip <-> ipZ ip mod block_size p = 0.
Proof.
  intros Hp Hip. split; [| apply Mask_fixed; assumption].
  intros H. rewrite <- H. apply Mask_aligned; assumption.
Qed.

(** [Contains]: the addresses from the base up to the block size. *)
Lemma Contains_spec p n ip : block_net p n -> ip4 ip ->
  Contains n ip = true <->
  ipZ (IPNet_IP n) <= ipZ ip < ipZ (IPNet_IP n) + block_size p.
Proof.
  intros (Hp & Hm & Hb & Hz) Hip. destruct n as [base m]. simpl in *. subst m.
  pose proof (Mask_spec p base Hp Hb) as [Hb4 HbZ].
  pose proof (Mask_spec p ip Hp Hip) as [Hi4 HiZ].
  assert (Hc : Contains (mkIPNet base (CIDRMask p 32)) ip = true <->
               Mask base (CIDRMask p 32) = Mask ip (CIDRMask p 32)).
  { destruct Hb as (a & b & c & d & -> & _). destruct Hip as (a' & b' & c' & d' & -> & _).
    rewrite !Mask_4 by assumption.
    destruct (CIDRMask_4 p Hp) as (m1 & m2 & m3 & m4 & ->).
    unfold Contains. simpl.
    repeat match goal with
           | |- context [?x =? ?y] => destruct (Z.eqb_spec x y)
           end; split; intros H; try discriminate; try reflexivity; congruence. }
  rewrite Hc. pose proof (block_size_pos p Hp) as HS.
  pose proof (ipZ_range ip Hip) as Hr4.
  split.
  - intros H. assert (HZ : ipZ base - ipZ base mod block_size p
                          = ipZ ip - ipZ ip mod block_size p) by congruence.
    rewrite Hz in HZ. pose proof (Z.mod_pos_bound (ipZ ip) (block_size p)). lia.
  - intros H. apply ipZ_inj; auto. rewrite HbZ, HiZ, Hz.
    pose proof (Z.div_mod (ipZ base) (block_size p)) as HD. rewrite Hz in HD.
    assert (Hr : ipZ ip - ipZ base = ipZ ip mod block_size p).
    { apply Z.mod_unique_pos with (q := ipZ base / block_size p); lia. }
    lia.
Qed.

End Networks.

(** ** A walk visits exactly the block *)

Section Walks.

Variables (p : Z) (n : IPNet).
Hypothesis Hn : block_net p n.

Let base := IPNet_IP n.
Let size := block_size p.

Lemma block_end : ipZ base + size <= 4294967296.
Proof.
  destruct Hn as (Hp & _ & Hb & Hz). fold base size in Hb, Hz.
  pose proof (ipZ_range base Hb) as Hr.
  pose proof (block_size_pos p Hp) as HS. fold size in HS.
  assert (H32 : 4294967296 = size * 2 ^ p).
  { unfold size, block_size. rewrite <- Z.pow_add_r by lia.
    replace (32 - p + p) with 32 by lia. reflexivity. }
  pose proof (Z.div_mod (ipZ base) size) as HD. rewrite Hz in HD.
  assert (ipZ base / size < 2 ^ p) by nia.
  nia.
Qed.

Lemma contains_from : forall ip,
  ip4 ip -> ipZ base <= ipZ ip < ipZ base + size -> Contains n ip = true.
Proof. intros ip Hip H. apply (Contains_spec p n ip Hn Hip). exact H. Qed.

(** With enough fuel the walk of a /p network, [1 <= p], is the loop body
    run over its [size] addresses in ascending order. *)
Lemma walk_block_from {A} (body : IP -> A -> M A) :
  1 <= p ->
  forall (k fuel : nat) ip a g,
    ip4 ip -> Z.of_nat k <= size ->
    ipZ ip = (ipZ base + size - Z.of_nat k) mod 4294967296 ->
    (k < fuel)%nat ->
    walk fuel n ip body a g = walk_list (block_list k ip) body a g.
Proof.
  intros Hp1. destruct Hn as (Hp & _ & Hb & Hz).
  pose proof block_end as Hend. pose proof (ipZ_range base Hb) as Hr.
  pose proof (block_size_lt p ltac:(lia)) as Hlt. fold size in Hlt.
  pose proof (block_size_pos p Hp) as HS. fold size in HS.
  induction k as [| k IH]; intros fuel ip a g Hip Hk HZ Hf.
  - destruct fuel as [| fuel]; [lia |]. simpl.
    replace (Contains n ip) with false; [reflexivity |].
    symmetry. apply not_true_is_false. intros Hc.
    apply (Contains_spec p n ip Hn Hip) in Hc. fold base size in Hc.
    rewrite Z.sub_0_r in HZ.
    destruct (Z.eq_dec (ipZ base + size) 4294967296) as [He | He].
    + rewrite He, Z.mod_same in HZ by lia. lia.
    + rewrite Z.mod_small in HZ by lia. lia.
  - destruct fuel as [| fuel]; [lia |]. simpl.
    rewrite Z.mod_small in HZ by lia.
    rewrite contains_from by (auto; lia).
    unfold mbind, M_bind. destruct (body ip a g) as [[[e | a'] g'] |]; try reflexivity.
    destruct (nextIP_spec ip Hip) as [Hn4 HnZ].
    apply IH; auto; try lia.
    rewrite HnZ. f_equal. lia.
Qed.

Lemma walk_block {A} (body : IP -> A -> M A) fuel a g :
  1 <= p -> (Z.to_nat size < fuel)%nat ->
  walk fuel n base body a g = walk_list (block_list (Z.to_nat size) base) body a g.
Proof.
  intros Hp1 Hf. destruct Hn as (Hp & _ & Hb & Hz).
  pose proof (block_size_pos p Hp) as HS. fold size in HS.
  pose proof (ipZ_range base Hb) as Hr.
  apply walk_block_from; auto; try lia.
  rewrite Z2Nat.id by lia. replace (ipZ base + size - size) with (ipZ base) by lia.
  rewrite Z.mod_small; lia.
Qed.

(** The counted walk of steps 10 and 12 of [AllocateCIDR] runs over the
    same addresses, for every prefix length. *)
Lemma walk_counted_from (body : IP -> M unit) :
  forall (k : nat) ip g,
    ip4 ip -> ipZ base <= ipZ ip -> ipZ ip + Z.of_nat k <= ipZ base + size ->
    walk_counted k n ip body g
    = walk_list (block_list k ip) (fun ip _ => body ip) tt g.
Proof.
  pose proof block_end as Hend.
  induction k as [| k IH]; intros ip g Hip Hlo Hhi; [reflexivity |].
  simpl. rewrite contains_from by (auto; lia).
  unfold mbind, M_bind. destruct (body ip g) as [[[e | []] g'] |]; try reflexivity.
  destruct k as [| k]; [reflexivity |].
  destruct (nextIP_spec ip Hip) as [Hn4 HnZ].
  rewrite Z.mod_small in HnZ by (pose proof (ipZ_range ip Hip); lia).
  apply IH; auto; lia.
Qed.

Lemma walk_counted_block (body : IP -> M unit) g :
  walk_counted (Z.to_nat size) n base body g
  = walk_list (block_list (Z.to_nat size) base) (fun ip _ => body ip) tt g.
Proof.
  destruct Hn as (Hp & _ & Hb & Hz).
  pose proof (block_size_pos p Hp) as HS. fold size in HS.
  apply walk_counted_from; auto; try lia.
Qed.

(** A walk that returns normally had fuel for the whole block. *)
Lemma walk_short_fuel {A} (body : IP -> A -> M A) :
  forall (fuel k : nat) ip a g a' g',
    ip4 ip -> ipZ base <= ipZ ip -> ipZ ip + Z.of_nat k <= ipZ base + size ->
    (fuel <= k)%nat ->
    walk fuel n ip body a g <> Some (inr a', g').
Proof.
  pose proof block_end as Hend.
  induction fuel as [| fuel IH]; intros k ip a g a' g' Hip Hlo Hhi Hf; [discriminate |].
  simpl. rewrite contains_from by (auto; lia).
  unfold mbind, M_bind. destruct (body ip a g) as [[[e | a1] g1] |]; try discriminate.
  destruct fuel as [| fuel]; [discriminate |].
  destruct (nextIP_spec ip Hip) as [Hn4 HnZ].
  rewrite Z.mod_small in HnZ by (pose proof (ipZ_range ip Hip); lia).
  apply (IH (k - 1)%nat); auto; lia.
Qed.

(** In a /0 network the walk never leaves the block. *)
Lemma walk_slash0 {A} (body : IP -> A -> M A) :
  p = 0 ->
  forall (fuel : nat) ip a g a' g',
    ip4 ip -> walk fuel n ip body a g <> Some (inr a', g').
Proof.
  intros Hp0. destruct Hn as (Hp & _ & Hb & Hz).
  assert (Hs : size = 4294967296) by (unfold size, block_size; rewrite Hp0; reflexivity).
  assert (Hb0 : ipZ base = 0).
  { pose proof (ipZ_range base Hb). fold base size in Hz. rewrite Hs in Hz.
    rewrite Z.mod_small in Hz; lia. }
  induction fuel as [| fuel IH]; intros ip a g a' g' Hip; [discriminate |].
  simpl. rewrite contains_from by (auto; pose proof (ipZ_range ip Hip); lia).
  unfold mbind, M_bind. destruct (body ip a g) as [[[e | a1] g1] |]; try discriminate.
  apply IH. apply nextIP_spec; assumption.
Qed.

Lemma walk_success {A} (body : IP -> A -> M A) fuel a g a' g' :
  walk fuel n base body a g = Some (inr a', g') ->
  1 <= p /\ (Z.to_nat size < fuel)%nat.
Proof.
  intros Hw. pose proof Hn as (Hp & _ & Hb & Hz).
  pose proof (block_size_pos p Hp) as HS. fold size in HS.
  split.
  - destruct (Z.eq_dec p 0) as [Hp0 | Hp0]; [| lia].
    exfalso. eapply (walk_slash0 body Hp0); eauto.
  - destruct (Nat.lt_ge_cases (Z.to_nat size) fuel) as [| Hle]; [assumption |].
    exfalso. eapply (walk_short_fuel body fuel (Z.to_nat size) base); eauto; lia.
Qed.

End Walks.

(** ** Address text *)

Section Text.

Lemma append_cons c (s t : string) : String c s +:+ t = String c (s +:+ t).
Proof. reflexivity. Qed.

Lemma append_nil_l (t : string) : "" +:+ t = t.
Proof. reflexivity. Qed.

Lemma append_assoc (s1 s2 s3 : string) : (s1 +:+ s2) +:+ s3 = s1 +:+ (s2 +:+ s3).
Proof.
  induction s1 as [| c s1 IH]; [reflexivity |].
  rewrite !append_cons, IH. reflexivity.
Qed.

Lemma length_append (s1 s2 : string) :
  String.length (s1 +:+ s2) = (String.length s1 + String.length s2)%nat.
Proof.
  induction s1 as [| c s1 IH]; [reflexivity |].
  rewrite append_cons. simpl. rewrite IH. reflexivity.
Qed.

Lemma substring_all (s : string) : substring 0 (String.length s) s = s.
Proof. induction s as [| c s IH]; simpl; [reflexivity | rewrite IH; reflexivity]. Qed.

Lemma substring_before (s1 s2 : string) : substring 0 (String.length s1) (s1 +:+ s2) = s1.
Proof.
  induction s1 as [| c s1 IH]; [destruct s2; reflexivity |].
  rewrite append_cons. simpl. rewrite IH. reflexivity.
Qed.

Lemma substring_after (s1 s2 : string) :
  substring (String.length s1) (String.length s2) (s1 +:+ s2) = s2.
Proof.
  induction s1 as [| c s1 IH]; [apply substring_all |].
  rewrite append_cons. simpl. exact IH.
Qed.

Lemma appendDecimal_dec b x : appendDecimal b x = b +:+ dec x.
Proof.
  unfold dec, appendDecimal.
  destruct (100 <=? x), (10 <=? x); rewrite ?append_nil_l, ?append_assoc; reflexivity.
Qed.

Lemma IP_String_4 a b c d :
  IP_String [a; b; c; d] = dec a +:+ "." +:+ dec b +:+ "." +:+ dec c +:+ "." +:+ dec d.
Proof.
  unfold IP_String. simpl length. simpl Nat.eqb. cbv iota.
  change (To4 [a; b; c; d]) with (Some [a; b; c; d]). cbv iota beta.
  rewrite !appendDecimal_dec, !append_assoc. reflexivity.
Qed.

Lemma byte_cases (P : Z -> Prop) : Forall P (seqZ 0 256) -> forall x, is_byte x -> P x.
Proof.
  intros HF x Hx. rewrite Forall_forall in HF. apply HF, elem_of_seqZ.
  unfold is_byte in Hx. lia.
Qed.

Ltac each_byte x Hx :=
  pattern x; apply byte_cases; [clear x Hx | exact Hx];
  let l := eval vm_compute in (seqZ 0 256) in
  change (seqZ 0 256) with l;
  repeat (apply Forall_cons; split); try (by apply Forall_nil_2); cbv beta.

Lemma dec_cons x : is_byte x -> exists c r, dec x = String c r.
Proof.
  intros _. unfold dec, appendDecimal.
  destruct (100 <=? x), (10 <=? x); rewrite ?append_nil_l, ?append_cons; eauto.
Qed.

Lemma dec_nonempty x s : is_byte x -> dec x +:+ s <> ""%string.
Proof. intros Hx. destruct (dec_cons x Hx) as (c & r & ->). discriminate. Qed.

(** A byte followed by a dot is one field of [parseIPv4]. *)
Lemma parse_field x : is_byte x ->
  forall rest prev fields pos, rest <> ""%string -> (pos < 3)%nat ->
    parseIPv4_loop (dec x +:+ "." +:+ rest) prev fields 0 pos 0
    = parseIPv4_loop rest (Some "."%char) (<[pos := x]> fields) 0 (S pos) 0.
Proof.
  intros Hx. each_byte x Hx;
    (intros rest prev fields pos Hr Hpos;
     destruct rest as [| c r]; [congruence |];
     destruct pos as [| [| [| pos]]]; [reflexivity | reflexivity | reflexivity | lia]).
Qed.

Lemma parse_last x : is_byte x ->
  forall prev fields, parseIPv4_loop (dec x) prev fields 0 3 0 = Some (<[3%nat := x]> fields).
Proof. intros Hx. each_byte x Hx; (intros; reflexivity). Qed.

Lemma scan_field x : is_byte x ->
  forall whole rest, ParseAddr_scan whole (dec x +:+ "." +:+ rest) = parseIPv4 whole.
Proof. intros Hx. each_byte x Hx; (intros; reflexivity). Qed.

(** Parsing the text of an address gives the address back. *)
Lemma ParseAddr_IP_String ip : ip4 ip -> ParseAddr (IP_String ip) = Some ip.
Proof.
  intros (a & b & c & d & -> & Ha & Hb & Hc & Hd).
  unfold ParseAddr. rewrite IP_String_4. rewrite scan_field by assumption.
  unfold parseIPv4.
  assert (Hd' : dec d <> ""%string)
    by (destruct (dec_cons d Hd) as (? & ? & ->); discriminate).
  rewrite !parse_field by first [assumption | lia | apply dec_nonempty; assumption].
  rewrite parse_last by assumption. reflexivity.
Qed.

Lemma is_digit_val c : is_digit c = true -> 0 <= digit_val c <= 9.
Proof.
  unfold is_digit, digit_val. rewrite andb_true_iff, !Nat.leb_le. lia.
Qed.

Lemma ip4_of_bytes ip : length ip = 4%nat -> Forall is_byte ip -> ip4 ip.
Proof.
  intros Hl HF. destruct ip as [| a [| b [| c [| d [| ? ?]]]]]; try discriminate.
  repeat match goal with H : Forall _ (_ :: _) |- _ => apply Forall_cons in H; destruct H end.
  exists a, b, c, d. auto.
Qed.

Lemma ip4_bytes ip : ip4 ip -> length ip = 4%nat /\ Forall is_byte ip.
Proof.
  intros (a & b & c & d & -> & Ha & Hb & Hc & Hd). split; [reflexivity |].
  repeat (apply Forall_cons; split; [assumption |]). apply Forall_nil_2.
Qed.

(** [parseIPv4] only returns four bytes. *)
Lemma parseIPv4_loop_bytes s : forall prev fields val pos digLen ip,
  length fields = 4%nat -> Forall is_byte fields -> is_byte val ->
  parseIPv4_loop s prev fields val pos digLen = Some ip ->
  length ip = 4%nat /\ Forall is_byte ip.
Proof.
  induction s as [| c s IH]; intros prev fields val pos digLen ip Hl HF Hv; simpl.
  - destruct (pos <? 3)%nat; [discriminate |]. intros [= <-].
    split; [rewrite length_insert; exact Hl | apply Forall_insert; assumption].
  - destruct (is_digit c) eqn:Hd.
    + destruct ((digLen =? 1) && (val =? 0)); [discriminate |].
      destruct (Z.ltb_spec 255 (val * 10 + digit_val c)); [discriminate |].
      apply IH; auto. pose proof (is_digit_val c Hd). unfold is_byte in *. lia.
    + destruct (Ascii.eqb c "."); [| discriminate].
      destruct (_ || _); [discriminate |].
      destruct (pos =? 3)%nat; [discriminate |].
      apply IH; [rewrite length_insert; exact Hl | apply Forall_insert; assumption
                | unfold is_byte; lia].
Qed.

Lemma ParseAddr_scan_parse whole s ip :
  ParseAddr_scan whole s = Some ip -> parseIPv4 whole = Some ip.
Proof.
  induction s as [| c s IH]; simpl; [discriminate |].
  destruct (Ascii.eqb c "."); [auto |].
  destruct (Ascii.eqb c ":"); [discriminate |].
  destruct (Ascii.eqb c "%"); [discriminate | exact IH].
Qed.

Lemma ParseAddr_ip4 s ip : ParseAddr s = Some ip -> ip4 ip.
Proof.
  intros H. apply ParseAddr_scan_parse in H. unfold parseIPv4 in H.
  apply parseIPv4_loop_bytes in H; [| reflexivity | | unfold is_byte; lia].
  - destruct H. apply ip4_of_bytes; assumption.
  - repeat (apply Forall_cons; split; [unfold is_byte; lia |]). apply Forall_nil_2.
Qed.

Lemma ParseIP_inv s ip :
  ParseIP s = Some ip -> exists a, ip4 a /\ ip = (v4InV6Prefix ++ a)%list /\ ParseAddr s = Some a.
Proof.
  unfold ParseIP. destruct (ParseAddr s) as [a |] eqn:Ha; [| discriminate].
  intros [= <-]. exists a. split; [eapply ParseAddr_ip4; eassumption | auto].
Qed.

Lemma Mask_16_4 p a : 0 <= p <= 32 -> ip4 a ->
  Mask (v4InV6Prefix ++ a) (CIDRMask p 32) = Mask a (CIDRMask p 32).
Proof.
  intros Hp (x & y & z & w & -> & _). rewrite Mask_16, Mask_4 by assumption. reflexivity.
Qed.

(** What [ParseCIDR] returns: the 16-byte address and its /p network. *)
Lemma ParseCIDR_inv c ip n :
  ParseCIDR c = Some (ip, n) ->
  exists p a, 0 <= p <= 32 /\ ip4 a /\ ip = (v4InV6Prefix ++ a)%list /\
              n = mkIPNet (Mask a (CIDRMask p 32)) (CIDRMask p 32).
Proof.
  unfold ParseCIDR. destruct (IndexByte c "/") as [i |]; [| discriminate].
  destruct (ParseAddr _) as [a |] eqn:Ha; [| discriminate].
  destruct (dtoi _) as [[p j] ok].
  destruct ok; cbn [negb orb]; [| discriminate].
  destruct (j =? _)%nat; cbn [negb orb]; [| discriminate].
  destruct (Z.ltb_spec p 0); cbn [negb orb]; [discriminate |].
  destruct (Z.ltb_spec 32 p); cbn [negb orb]; [discriminate |].
  intros [= <- <-]. exists p, a. pose proof (ParseAddr_ip4 _ _ Ha) as H4.
  repeat split; auto; try lia. rewrite <- (Mask_16_4 p a) by (auto; lia). reflexivity.
Qed.

Lemma ParseCIDR_block_net c ip n :
  ParseCIDR c = Some (ip, n) -> exists p, block_net p n.
Proof.
  intros H. apply ParseCIDR_inv in H. destruct H as (p & a & Hp & Ha & _ & ->).
  exists p. unfold block_net. simpl.
  destruct (Mask_spec p a Hp Ha) as [H4 _].
  repeat split; auto; try lia. apply Mask_aligned; assumption.
Qed.

Lemma IndexByte_sep (s1 s2 : string) c :
  IndexByte s1 c = None -> IndexByte (s1 +:+ String c s2) c = Some (String.length s1).
Proof.
  induction s1 as [| x s1 IH]; intros H.
  - rewrite append_nil_l. simpl. rewrite Ascii.eqb_refl. reflexivity.
  - rewrite append_cons. simpl in *. destruct (Ascii.eqb x c); [discriminate |].
    destruct (IndexByte s1 c); [discriminate |]. rewrite IH by reflexivity. reflexivity.
Qed.

Lemma IndexByte_app_None (s1 s2 : string) c :
  IndexByte s1 c = None -> IndexByte s2 c = None -> IndexByte (s1 +:+ s2) c = None.
Proof.
  induction s1 as [| x s1 IH]; intros H1 H2; [exact H2 |].
  rewrite append_cons. simpl in *. destruct (Ascii.eqb x c); [discriminate |].
  destruct (IndexByte s1 c); [discriminate |]. rewrite IH by auto. reflexivity.
Qed.

Lemma IndexByte_dec x : is_byte x -> IndexByte (dec x) "/" = None.
Proof.
  intros Hx.
  assert (Hall : forallb (fun x => bool_decide (IndexByte (dec x) "/" = None)) (seqZ 0 256) = true)
    by (vm_compute; reflexivity).
  rewrite forallb_forall in Hall.
  assert (Hin : In x (seqZ 0 256))
    by (apply list_elem_of_In, elem_of_seqZ; unfold is_byte in Hx; lia).
  apply Hall, bool_decide_eq_true in Hin. exact Hin.
Qed.

Lemma IndexByte_IP_String ip : ip4 ip -> IndexByte (IP_String ip) "/" = None.
Proof.
  intros (a & b & c & d & -> & Ha & Hb & Hc & Hd). rewrite IP_String_4.
  repeat (apply IndexByte_app_None; [first [apply IndexByte_dec; assumption | reflexivity] |]).
  apply IndexByte_dec; assumption.
Qed.

Lemma substring_after_sep (s1 s2 : string) c :
  substring (S (String.length s1))
            (String.length (s1 +:+ String c s2) - S (String.length s1))
            (s1 +:+ String c s2) = s2.
Proof.
  rewrite length_append. simpl String.length.
  replace (String.length s1 + S (String.length s2) - S (String.length s1))%nat
    with (String.length s2) by lia.
  induction s1 as [| x s1 IH]; [rewrite append_nil_l; simpl; apply substring_all |].
  rewrite append_cons. simpl. exact IH.
Qed.

Lemma dtoi_itoa p : 0 <= p <= 32 -> dtoi (itoa p) = (p, String.length (itoa p), true).
Proof.
  intros Hp.
  assert (Hall : forallb (fun p => bool_decide (dtoi (itoa p) = (p, String.length (itoa p), true)))
                   (seqZ 0 33) = true) by (vm_compute; reflexivity).
  rewrite forallb_forall in Hall.
  assert (Hin : In p (seqZ 0 33)) by (apply list_elem_of_In, elem_of_seqZ; lia).
  apply Hall, bool_decide_eq_true in Hin. exact Hin.
Qed.

(** The CIDR text [AllocateCIDR] builds always parses, to the /p network
    of the address. *)
Lemma ParseCIDR_IP_String ip p : ip4 ip -> 0 <= p <= 32 ->
  ParseCIDR (IP_String ip +:+ "/" +:+ itoa p)
  = Some ((v4InV6Prefix ++ ip)%list, mkIPNet (Mask ip (CIDRMask p 32)) (CIDRMask p 32)).
Proof.
  intros Hip Hp. unfold ParseCIDR.
  change ("/" +:+ itoa p) with (String "/" (itoa p)).
  rewrite IndexByte_sep by (apply IndexByte_IP_String; assumption).
  rewrite substring_before, substring_after_sep.
  rewrite ParseAddr_IP_String by assumption.
  rewrite dtoi_itoa by assumption.
  rewrite Nat.eqb_refl.
  replace (p <? 0) with false by (symmetry; apply Z.ltb_ge; lia).
  replace (32 <? p) with false by (symmetry; apply Z.ltb_ge; lia).
  cbn [negb orb]. rewrite Mask_16_4 by assumption. reflexivity.
Qed.

(** The alignment test of the code, in the words of the specification:
    the text of an address [A] with [A = A & mask(p)]. *)
Lemma aligned_spec p s : 0 <= p <= 32 ->
  aligned p s = true <->
  exists ip, ip4 ip /\ IP_String ip = s /\ Mask ip (CIDRMask p 32) = ip.
Proof.
  intros Hp. unfold aligned, cloneIP. split.
  - destruct (ParseIP s) as [ip16 |] eqn:Hs; [| discriminate].
    apply ParseIP_inv in Hs. destruct Hs as (a & Ha & -> & _).
    destruct (To4 _); [| discriminate].
    rewrite Mask_16_4 by assumption. intros H. apply String.eqb_eq in H.
    exists (Mask a (CIDRMask p 32)). destruct (Mask_spec p a Hp Ha) as [H4 HZ].
    repeat split; auto. apply Mask_fixed; auto. apply Mask_aligned; assumption.
  - intros (ip & Hip & <- & Hm). unfold ParseIP.
    rewrite ParseAddr_IP_String by assumption.
    rewrite Mask_16_4 by assumption. rewrite Hm.
    destruct Hip as (a & b & c & d & -> & _).
    change (To4 (v4InV6Prefix ++ [a; b; c; d])) with (Some [a; b; c; d]).
    apply String.eqb_refl.
Qed.

End Text.

(** ** The engine monad *)

Section Monad.

Lemma bind_inv {A B} (m : M A) (k : A -> M B) g b g2 :
  (m ≫= k) g = Some (inr b, g2) ->
  exists a g1, m g = Some (inr a, g1) /\ k a g1 = Some (inr b, g2).
Proof.
  unfold mbind, M_bind. destruct (m g) as [[[e | a] g1] |]; try discriminate. eauto.
Qed.

Lemma bind_ok {A B} (m : M A) (k : A -> M B) g a g1 :
  m g = Some (inr a, g1) -> (m ≫= k) g = k a g1.
Proof. unfold mbind, M_bind. intros ->. reflexivity. Qed.

Lemma bind_err {A B} (m : M A) (k : A -> M B) g e g1 :
  m g = Some (inl e, g1) -> (m ≫= k) g = Some (inl e, g1).
Proof. unfold mbind, M_bind. intros ->. reflexivity. Qed.

End Monad.

(** ** Key sets *)

Section Keys.

Lemma add_keys_lookup ks alloc av k :
  is_Some (add_keys ks alloc av !! k) <->
  is_Some (av !! k) \/ (k ∈ ks /\ alloc !! k = None).
Proof.
  unfold add_keys. revert av. induction ks as [| x ks IH]; intros av; simpl.
  - rewrite elem_of_nil. tauto.
  - rewrite IH, elem_of_cons. destruct (alloc !! x) eqn:Hx.
    + split; [tauto |]. intros [? | [[-> | ?] ?]]; auto. congruence.
    + destruct (decide (k = x)) as [-> | Hne].
      * rewrite lookup_insert_eq. split; [| eauto]. intros _. right. auto.
      * rewrite lookup_insert_ne by congruence. split; [tauto |].
        intros [? | [[? | ?] ?]]; auto. congruence.
Qed.

Lemma del_keys_lookup ks av k :
  is_Some (del_keys ks av !! k) <-> is_Some (av !! k) /\ k ∉ ks.
Proof.
  unfold del_keys. revert av. induction ks as [| x ks IH]; intros av; simpl.
  - rewrite elem_of_nil. tauto.
  - rewrite IH, elem_of_cons. destruct (decide (k = x)) as [-> | Hne].
    + rewrite lookup_delete_eq. split; [intros [[? [=]] _] | tauto].
    + rewrite lookup_delete_ne by congruence. tauto.
Qed.

Lemma same_keys_size (m1 m2 : gmap string bool) :
  (forall k, is_Some (m1 !! k) <-> is_Some (m2 !! k)) -> size m1 = size m2.
Proof.
  intros H. rewrite <- !size_dom. f_equal. apply set_eq. intros k.
  rewrite !elem_of_dom. apply H.
Qed.

End Keys.

(** ** The loops of the engine on a live context *)

Ltac msimpl :=
  unfold mbind, M_bind, mret, M_ret, fail, attempt, on_storage, check, registry,
    set_registry, ctx_Err; simpl.

Section Loops.

Lemma with_available_id g : with_available g (available (storage g)) = g.
Proof. destruct g as [[av al] reg]. reflexivity. Qed.

Lemma collect_list ips : forall acc g,
  walk_list ips AddCIDR_collect acc g = Some (inr (acc ++ ips), g).
Proof.
  induction ips as [| ip ips IH]; intros acc g; simpl.
  - rewrite app_nil_r. reflexivity.
  - unfold AddCIDR_collect at 1, cloneIP. msimpl. rewrite IH, <- app_assoc. reflexivity.
Qed.

Lemma AddCIDR_add_live ips : forall added g,
  AddCIDR_add false ips added g
  = Some (inr tt, with_available g
            (add_keys (map IP_String ips) (allocated (storage g)) (available (storage g)))).
Proof.
  induction ips as [| ip ips IH]; intros added [[av al] reg]; [reflexivity |].
  simpl. msimpl. unfold Storage.AddIP. simpl. unfold add_keys. simpl.
  destruct (al !! IP_String ip) eqn:Hal; simpl; rewrite IH; reflexivity.
Qed.

Lemma with_available_twice g av1 av2 :
  with_available (with_available g av1) av2 = with_available g av2.
Proof. reflexivity. Qed.

Lemma ExpandPool_body_live ip g :
  ExpandPool_body false ip tt g
  = Some (inr tt, with_available g
            (add_keys [IP_String ip] (allocated (storage g)) (available (storage g)))).
Proof.
  destruct g as [[av al] reg]. unfold ExpandPool_body. msimpl.
  unfold Storage.AddIP, add_keys. simpl.
  destruct (al !! IP_String ip) eqn:Hal; simpl; rewrite ?Hal; reflexivity.
Qed.

Lemma ExpandPool_list ips : forall g,
  walk_list ips (ExpandPool_body false) tt g
  = Some (inr tt, with_available g
            (add_keys (map IP_String ips) (allocated (storage g)) (available (storage g)))).
Proof.
  induction ips as [| ip ips IH]; intros g; [rewrite with_available_id; reflexivity |].
  cbn [walk_list map]. erewrite bind_ok by apply ExpandPool_body_live.
  rewrite IH. reflexivity.
Qed.

Lemma removeCIDR_body_live ip g :
  removeCIDR_body false ip tt g
  = Some (inr tt, with_available g (del_keys [IP_String ip] (available (storage g)))).
Proof.
  destruct g as [[av al] reg]. unfold removeCIDR_body. msimpl.
  unfold Storage.RemoveIP, del_keys. simpl.
  destruct (av !! IP_String ip) eqn:Hav.
  - rewrite bool_decide_eq_true_2 by eauto. simpl. rewrite Hav. reflexivity.
  - rewrite bool_decide_eq_false_2 by (intros [? [=]]).
    rewrite (delete_id av) by assumption. reflexivity.
Qed.

Lemma removeCIDR_list ips : forall g,
  walk_list ips (removeCIDR_body false) tt g
  = Some (inr tt, with_available g (del_keys (map IP_String ips) (available (storage g)))).
Proof.
  induction ips as [| ip ips IH]; intros g; [rewrite with_available_id; reflexivity |].
  cbn [walk_list map]. erewrite bind_ok by apply removeCIDR_body_live.
  rewrite IH. reflexivity.
Qed.

Lemma ReleaseCIDR_body_live ip g :
  ReleaseCIDR_body false (allocated (storage g)) ip tt g
  = Some (inr tt, with_available g
            (add_keys (map IP_String (List.filter (inManagedRange (managedCIDRs g)) [ip]))
                      (allocated (storage g)) (available (storage g)))).
Proof.
  destruct g as [[av al] reg]. unfold ReleaseCIDR_body. msimpl.
  destruct (inManagedRange reg ip) eqn:Hm; simpl; [| reflexivity].
  unfold Storage.AddIP, add_keys. simpl.
  destruct (al !! IP_String ip) eqn:Hal; simpl; rewrite ?Hal; reflexivity.
Qed.

(** [ReleaseCIDR] adds back the addresses a registered block covers. *)
Lemma ReleaseCIDR_list ips : forall g,
  walk_list ips (ReleaseCIDR_body false (allocated (storage g))) tt g
  = Some (inr tt, with_available g
            (add_keys (map IP_String (List.filter (inManagedRange (managedCIDRs g)) ips))
                      (allocated (storage g)) (available (storage g)))).
Proof.
  induction ips as [| ip ips IH]; intros g; [rewrite with_available_id; reflexivity |].
  cbn [walk_list]. erewrite bind_ok by apply ReleaseCIDR_body_live.
  rewrite (IH (with_available g _)). cbn [List.filter].
  destruct (inManagedRange (managedCIDRs g) ip); reflexivity.
Qed.

Lemma AllocateCIDR_check_ok ip g :
  is_Some (available (storage g) !! IP_String ip) ->
  AllocateCIDR_check false ip g = Some (inr tt, g).
Proof.
  intros H. destruct g as [[av al] reg]. unfold AllocateCIDR_check. msimpl.
  rewrite bool_decide_eq_true_2 by assumption. reflexivity.
Qed.

Lemma AllocateCIDR_check_body_inv ip g r g' :
  AllocateCIDR_check false ip g = Some (inr r, g') ->
  g' = g /\ is_Some (available (storage g) !! IP_String ip).
Proof.
  destruct g as [[av al] reg]. unfold AllocateCIDR_check. msimpl.
  destruct (bool_decide _) eqn:Hd; [| discriminate].
  apply bool_decide_eq_true in Hd. intros [= _ <-]. auto.
Qed.

(** Step 10 passes exactly when every address of the list is Available. *)
Lemma AllocateCIDR_check_list ips : forall g,
  Forall (fun ip => is_Some (available (storage g) !! IP_String ip)) ips ->
  walk_list ips (fun ip _ => AllocateCIDR_check false ip) tt g = Some (inr tt, g).
Proof.
  induction ips as [| ip ips IH]; intros g HF; [reflexivity |].
  apply Forall_cons in HF. destruct HF as [Hip HF].
  cbn [walk_list]. erewrite bind_ok by (apply AllocateCIDR_check_ok; exact Hip).
  apply IH. exact HF.
Qed.

Lemma AllocateCIDR_check_inv ips : forall g r g',
  walk_list ips (fun ip _ => AllocateCIDR_check false ip) tt g = Some (inr r, g') ->
  g' = g /\ Forall (fun ip => is_Some (available (storage g) !! IP_String ip)) ips.
Proof.
  induction ips as [| ip ips IH]; intros g r g'; cbn [walk_list].
  - intros [= _ <-]. split; [reflexivity | apply Forall_nil_2].
  - intros H. apply bind_inv in H. destruct H as ([] & g1 & Hb & Hr).
    apply AllocateCIDR_check_body_inv in Hb. destruct Hb as [-> Hip].
    apply IH in Hr. destruct Hr as [-> HF].
    split; [reflexivity |]. apply Forall_cons. split; assumption.
Qed.

Lemma AllocateCIDR_remove_body_inv startIP ip g r g' :
  AllocateCIDR_remove false startIP ip g = Some (inr r, g') ->
  g' = with_available g
         (del_keys (List.filter (fun s => negb (String.eqb s startIP)) [IP_String ip])
                   (available (storage g))).
Proof.
  destruct g as [[av al] reg]. unfold AllocateCIDR_remove. cbn [List.filter].
  destruct (String.eqb (IP_String ip) startIP) eqn:He; cbn [negb].
  - msimpl. intros [= _ <-]. reflexivity.
  - msimpl. unfold Storage.RemoveIP. simpl.
    destruct (av !! IP_String ip) eqn:Hav; simpl.
    + intros [= _ <-]. reflexivity.
    + unfold Storage.DeallocateIP. simpl. destruct (al !! startIP); discriminate.
Qed.

(** When step 12 succeeds it has removed every other address of the list. *)
Lemma AllocateCIDR_remove_inv startIP ips : forall g r g',
  walk_list ips (fun ip _ => AllocateCIDR_remove false startIP ip) tt g = Some (inr r, g') ->
  g' = with_available g
         (del_keys (List.filter (fun s => negb (String.eqb s startIP)) (map IP_String ips))
                   (available (storage g))).
Proof.
  induction ips as [| ip ips IH]; intros g r g'; cbn [walk_list].
  - intros [= _ <-]. rewrite with_available_id. reflexivity.
  - intros H. apply bind_inv in H. destruct H as ([] & g1 & Hb & Hr).
    apply AllocateCIDR_remove_body_inv in Hb. subst g1.
    apply IH in Hr. subst g'. cbn [map List.filter].
    destruct (negb (String.eqb (IP_String ip) startIP)); reflexivity.
Qed.

End Loops.

#[global] Arguments IP_String : simpl never.
#[global] Arguments Mask : simpl never.
#[global] Arguments Contains : simpl never.
#[global] Arguments ParseCIDR : simpl never.
#[global] Arguments ParseIP : simpl never.
#[global] Arguments nextIP : simpl never.
#[global] Arguments CIDRMask : simpl never.
#[global] Arguments itoa : simpl never.

(** ** The storage contract *)

(** C8. Every operation of the in-memory storage keeps the key sets of
    Available and Allocated disjoint. A key that was Available is Allocated
    afterwards only when the operation is [AllocateIP] of that key, and a key
    that was Allocated is Available afterwards only when it is
    [DeallocateIP] of that key; [AddIP] and [RemoveIP] leave Allocated as it
    is. A successful [AllocateIP] moves its key from Available to Allocated
    with the description given, a successful [DeallocateIP] moves it back. *)
Theorem storage_ops_keep_sets_disjoint ctx op s :
  storage_disjoint s ->
  storage_disjoint (run_op ctx op s) /\
  (forall k, is_Some (available s !! k) -> is_Some (allocated (run_op ctx op s) !! k) ->
             exists d, op = OpAllocateIP k d) /\
  (forall k, is_Some (allocated s !! k) -> is_Some (available (run_op ctx op s) !! k) ->
             op = OpDeallocateIP k) /\
  (forall ip, op = OpAddIP ip \/ op = OpRemoveIP ip ->
              allocated (run_op ctx op s) = allocated s) /\
  (forall ip d, op = OpAllocateIP ip d -> op_ok ctx op s = true ->
                is_Some (available s !! ip) /\
                available (run_op ctx op s) !! ip = None /\
                allocated (run_op ctx op s) !! ip = Some d) /\
  (forall ip, op = OpDeallocateIP ip -> op_ok ctx op s = true ->
              is_Some (allocated s !! ip) /\
              allocated (run_op ctx op s) !! ip = None /\
              is_Some (available (run_op ctx op s) !! ip)).
Proof.
  intros Hd. destruct s as [av al]. unfold storage_disjoint in *. simpl in Hd.
  assert (Hd' : forall k, is_Some (av !! k) -> is_Some (al !! k) -> False).
  { intros k H1 [x H2]. rewrite (Hd k H1) in H2. discriminate. }
  destruct op, ctx; simpl;
    unfold Storage.AddIP, Storage.RemoveIP, Storage.IsIPAvailable, Storage.GetAvailableIPs,
      Storage.AllocateIP, Storage.DeallocateIP, Storage.GetAllocatedIPs,
      Storage.AvailableCount, Storage.AllocatedCount, ctx_Err; simpl;
    repeat case_match; simpl;
    (split_and!; [ intros k | intros k | intros k | intros ip0 [Hop | Hop]
                 | intros ip0 d0 Hop | intros ip0 Hop ]);
    try discriminate;
    simplify_eq; simpl; intros;
    repeat match goal with
           | H : is_Some (<[?i := _]> _ !! ?k) |- _ =>
               destruct (decide (i = k)) as [-> |];
               [ rewrite lookup_insert_eq in H | rewrite lookup_insert_ne in H by assumption ]
           | H : is_Some (delete ?i _ !! ?k) |- _ =>
               destruct (decide (i = k)) as [-> |];
               [ rewrite lookup_delete_eq in H; destruct H as [? [=]]
               | rewrite lookup_delete_ne in H by assumption ]
           end;
    rewrite ?lookup_delete_eq, ?lookup_insert_eq;
    rewrite ?lookup_insert_ne, ?lookup_delete_ne by congruence;
    try match goal with
        | H : ?x = None, H0 : is_Some ?x |- _ => rewrite H in H0; destruct H0 as [? [=]]
        end;
    try solve [ exfalso; eauto | eauto | exfalso; eapply Hd'; eauto | discriminate
              | split_and!; eauto ].
Qed.

Lemma storage_ops_keep_sets_disjoint_witness :
  storage_disjoint NewMemoryIPStorage /\
  storage_disjoint (run_op false (OpAddIP "10.0.0.1") NewMemoryIPStorage).
Proof.
  assert (H : storage_disjoint NewMemoryIPStorage).
  { intros k [x Hx]. simpl in Hx. rewrite lookup_empty in Hx. discriminate. }
  split; [exact H |].
  exact (proj1 (storage_ops_keep_sets_disjoint false (OpAddIP "10.0.0.1") NewMemoryIPStorage H)).
Defined.

(** ** Sorting *)

Section Sorting.

Lemma insert_sorted_In x y l : In x (insert_sorted y l) <-> x = y \/ In x l.
Proof.
  induction l as [| z l IH]; simpl; [intuition congruence |].
  destruct (String.leb y z); simpl; [intuition congruence |]. rewrite IH. tauto.
Qed.

Lemma sort_Strings_In x l : In x (sort_Strings l) <-> In x l.
Proof.
  induction l as [| y l IH]; simpl; [tauto |].
  rewrite insert_sorted_In, IH. intuition congruence.
Qed.

Lemma insert_sorted_length y l : length (insert_sorted y l) = S (length l).
Proof.
  induction l as [| z l IH]; simpl; [reflexivity |].
  destruct (String.leb y z); simpl; [reflexivity | rewrite IH; reflexivity].
Qed.

Lemma sort_Strings_length l : length (sort_Strings l) = length l.
Proof.
  induction l as [| y l IH]; simpl; [reflexivity |].
  rewrite insert_sorted_length, IH. reflexivity.
Qed.

Lemma filter_none {A} (f : A -> bool) l :
  (forall x, In x l -> f x = false) -> List.filter f l = [].
Proof.
  induction l as [| y l IH]; intros H; simpl; [reflexivity |].
  rewrite (H y) by (left; reflexivity). apply IH. intros x Hx. apply H. right. exact Hx.
Qed.

(** What [GetAvailableIPs] lists: the keys of Available, each once. *)
Lemma available_keys_In (av : gmap string bool) x :
  In x (sort_Strings (map fst (map_to_list av))) <-> is_Some (av !! x).
Proof.
  rewrite sort_Strings_In, <- list_elem_of_In, list_elem_of_fmap. split.
  - intros ([k v] & -> & H). apply elem_of_map_to_list in H. simpl. eauto.
  - intros [v H]. exists (x, v). split; [reflexivity |]. apply elem_of_map_to_list. exact H.
Qed.

Lemma available_keys_length (av : gmap string bool) :
  length (sort_Strings (map fst (map_to_list av))) = size av.
Proof. rewrite sort_Strings_length, length_map, length_map_to_list. reflexivity. Qed.

End Sorting.

#[global] Arguments sort_Strings : simpl never.

Lemma block_net_start p n : block_net p n -> Mask (IPNet_IP n) (IPNet_Mask n) = IPNet_IP n.
Proof. intros (Hp & -> & Hb & Hz). apply Mask_fixed; assumption. Qed.

Lemma shiftl_block_size p : 0 <= p <= 32 -> Z.shiftl 1 (32 - p) = block_size p.
Proof. intros Hp. unfold block_size. rewrite Z.shiftl_1_l. reflexivity. Qed.

(** ** AllocateCIDR *)

(** C2. For every prefix length [p] in [0, 32] and every engine, on a live
    context: [AllocateCIDR] fails with [NoCapacity] when fewer than
    [2^(32-p)] keys are Available, and with [NoAlignedBlock] when there are
    enough but no Available address [A] has [A = A & mask(p)]; the engine
    returned with either error is the engine given. *)
Theorem AllocateCIDR_failures p d g :
  0 <= p <= 32 ->
  (Z.of_nat (size (available (storage g))) < block_size p ->
   AllocateCIDR false p d g = Some (inl (NoCapacity p), g)) /\
  (block_size p <= Z.of_nat (size (available (storage g))) ->
   (forall ip, ip4 ip -> is_Some (available (storage g) !! IP_String ip) ->
               Mask ip (CIDRMask p 32) <> ip) ->
   AllocateCIDR false p d g = Some (inl NoAlignedBlock, g)).
Proof.
  intros Hp. destruct g as [[av al] reg]. unfold AllocateCIDR. simpl.
  replace (p <? 0) with false by (symmetry; apply Z.ltb_ge; lia).
  replace (32 <? p) with false by (symmetry; apply Z.ltb_ge; lia).
  msimpl. rewrite available_keys_length, shiftl_block_size by assumption.
  split.
  - intros Hlt. replace (Z.of_nat (size av) <? block_size p) with true
      by (symmetry; apply Z.ltb_lt; lia). reflexivity.
  - intros Hge Hno. replace (Z.of_nat (size av) <? block_size p) with false
      by (symmetry; apply Z.ltb_ge; lia).
    rewrite filter_none; [reflexivity |].
    intros x Hx. apply sort_Strings_In, available_keys_In in Hx.
    apply not_true_is_false. intros Ha. apply aligned_spec in Ha; [| assumption].
    destruct Ha as (ip & Hip & <- & Hm). exact (Hno ip Hip Hx Hm).
Qed.

Lemma AllocateCIDR_failures_witness :
  0 <= 30 <= 32 /\
  AllocateCIDR false 30 "test" pool_one_free = Some (inl (NoCapacity 30), pool_one_free) /\
  AllocateCIDR false 30 "test" pool_unaligned = Some (inl NoAlignedBlock, pool_unaligned).
Proof.
  assert (Hp : 0 <= 30 <= 32) by lia.
  split; [exact Hp |]. split.
  - apply (proj1 (AllocateCIDR_failures 30 "test" pool_one_free Hp)).
    vm_compute. reflexivity.
  - apply (proj2 (AllocateCIDR_failures 30 "test" pool_unaligned Hp)).
    + vm_compute. discriminate.
    + intros ip Hip [v Hv] Hm. unfold pool_unaligned in Hv. cbn [storage available] in Hv.
      apply elem_of_list_to_map_2 in Hv.
      pose proof (ParseAddr_IP_String ip Hip) as Hparse.
      repeat (apply elem_of_cons in Hv; destruct Hv as [Hv | Hv];
              [ injection Hv as Hs _; rewrite Hs in Hparse; vm_compute in Hparse;
                injection Hparse as <-; vm_compute in Hm; discriminate |]).
      apply elem_of_nil in Hv. exact Hv.
Defined.

(** ** ReleaseCIDR *)

(** C7. For a CIDR that parses and whose network address is not a key of
    Allocated, on a live context, [ReleaseCIDR] fails with the
    not-allocated error and returns the engine given: Available, Allocated
    and the registry are unchanged. *)
Theorem ReleaseCIDR_not_allocated fuel cidr ip n g :
  ParseCIDR cidr = Some (ip, n) ->
  allocated (storage g) !! IP_String (IPNet_IP n) = None ->
  ReleaseCIDR fuel false cidr g = Some (inl (CIDRNotAllocated cidr), g).
Proof.
  intros Hparse Hnone. destruct (ParseCIDR_block_net _ _ _ Hparse) as [p Hn].
  destruct g as [[av al] reg]. unfold ReleaseCIDR. rewrite Hparse. msimpl.
  rewrite (block_net_start p n Hn). simpl in Hnone. rewrite Hnone. reflexivity.
Qed.

Lemma ReleaseCIDR_not_allocated_witness :
  ParseCIDR "192.168.0.0/28"
  = Some ((v4InV6Prefix ++ [192; 168; 0; 0])%list,
          mkIPNet [192; 168; 0; 0] [255; 255; 255; 240]) /\
  ReleaseCIDR 20 false "192.168.0.0/28" pool_one_free
  = Some (inl (CIDRNotAllocated "192.168.0.0/28"), pool_one_free).
Proof.
  assert (H : ParseCIDR "192.168.0.0/28"
              = Some ((v4InV6Prefix ++ [192; 168; 0; 0])%list,
                      mkIPNet [192; 168; 0; 0] [255; 255; 255; 240]))
    by (vm_compute; reflexivity).
  split; [exact H |].
  apply (ReleaseCIDR_not_allocated 20 _ _ _ pool_one_free H). reflexivity.
Defined.

(** ** Cancellation *)

(** C6, at its failing input. [RemoveCIDR] has no cancellation check of its
    own and looks the block up first: on an already cancelled context and a
    CIDR that is not registered it returns the not-managed error, not the
    cancellation error. *)
Theorem RemoveCIDR_cancelled_unregistered :
  forall fuel,
    RemoveCIDR fuel true "10.0.0.0/24" (mkGuardian NewMemoryIPStorage ∅)
    = Some (inl (NotManaged "10.0.0.0/24"), mkGuardian NewMemoryIPStorage ∅).
Proof. intros fuel. reflexivity. Qed.

(** Its siblings check the context first. *)
Lemma AddCIDR_cancelled fuel cidr d g : AddCIDR fuel true cidr d g = Some (inl Cancelled, g).
Proof. reflexivity. Qed.

Lemma ReleaseCIDR_cancelled fuel cidr g : ReleaseCIDR fuel true cidr g = Some (inl Cancelled, g).
Proof. reflexivity. Qed.


(** ** Used CIDRs *)

Section Splitting.

Lemma prefix_spec (sep s : string) : String.prefix sep s = true <-> exists v, s = sep +:+ v.
Proof.
  revert s. induction sep as [| a sep IH]; intros s.
  - destruct s; simpl; split; eauto.
  - destruct s as [| b s]; simpl.
    + split; [discriminate | intros [v Hv]; rewrite append_cons in Hv; discriminate].
    + destruct (ascii_dec a b) as [-> | Hne].
      * rewrite IH. split; intros [v Hv]; exists v; rewrite append_cons in *; congruence.
      * split; [discriminate |]. intros [v Hv]. rewrite append_cons in Hv. congruence.
Qed.

Lemma strings_Index_nil (sep : string) :
  strings_Index "" sep = if String.prefix sep "" then Some 0%nat else None.
Proof. reflexivity. Qed.

Lemma strings_Index_cons c (s sep : string) :
  strings_Index (String c s) sep
  = if String.prefix sep (String c s) then Some 0%nat
    else match strings_Index s sep with Some i => Some (S i) | None => None end.
Proof. reflexivity. Qed.

(** [strings_Index] finds the first occurrence. *)
Lemma strings_Index_Some (sep s : string) m :
  strings_Index s sep = Some m ->
  exists k v, split_at_first sep s k v /\ String.length k = m.
Proof.
  revert m. induction s as [| c s IH]; intros m;
    [rewrite strings_Index_nil | rewrite strings_Index_cons].
  - destruct (String.prefix sep "") eqn:Hp; [| discriminate].
    intros [= <-]. apply prefix_spec in Hp. destruct Hp as [v Hv].
    exists ""%string, v. split; [| reflexivity]. split; [exact Hv |]. intros; simpl; lia.
  - destruct (String.prefix sep (String c s)) eqn:Hp.
    + intros [= <-]. apply prefix_spec in Hp. destruct Hp as [v Hv].
      exists ""%string, v. split; [| reflexivity]. split; [exact Hv |]. intros; simpl; lia.
    + destruct (strings_Index s sep) as [i |] eqn:Hi; [| discriminate].
      intros [= <-]. destruct (IH i eq_refl) as (k & v & [Hs Hmin] & Hl).
      exists (String c k), v. split; [| simpl; congruence].
      split; [rewrite append_cons; congruence |].
      intros k' v' Hk'. destruct k' as [| c' k'].
      * exfalso. rewrite append_nil_l in Hk'.
        assert (String.prefix sep (String c s) = true) by (apply prefix_spec; eauto).
        congruence.
      * rewrite append_cons in Hk'. injection Hk' as -> Hk'. simpl.
        specialize (Hmin k' v' Hk'). lia.
Qed.

Lemma strings_Index_None (sep s : string) :
  strings_Index s sep = None -> forall k v : string, s <> k +:+ sep +:+ v.
Proof.
  induction s as [| c s IH]; [rewrite strings_Index_nil | rewrite strings_Index_cons].
  - destruct (String.prefix sep "") eqn:Hp; [discriminate |]. intros _ k v Hk.
    destruct k; [| rewrite append_cons in Hk; discriminate].
    rewrite append_nil_l in Hk.
    assert (String.prefix sep "" = true) by (apply prefix_spec; eauto). congruence.
  - destruct (String.prefix sep (String c s)) eqn:Hp; [discriminate |].
    destruct (strings_Index s sep) eqn:Hi; [discriminate |]. intros _ k v Hk.
    destruct k as [| c' k].
    + rewrite append_nil_l in Hk.
      assert (String.prefix sep (String c s) = true) by (apply prefix_spec; eauto). congruence.
    + rewrite append_cons in Hk. injection Hk as -> Hk. exact (IH eq_refl k v Hk).
Qed.

Lemma substring_split (k sep v : string) :
  substring 0 (String.length k) (k +:+ sep +:+ v) = k /\
  substring (String.length k + String.length sep)
            (String.length (k +:+ sep +:+ v) - (String.length k + String.length sep))
            (k +:+ sep +:+ v) = v.
Proof.
  split; [apply substring_before |].
  rewrite !length_append.
  replace (String.length k + (String.length sep + String.length v)
           - (String.length k + String.length sep))%nat with (String.length v) by lia.
  rewrite <- append_assoc, <- length_append. apply substring_after.
Qed.

(** [SplitN2] is the split at the first occurrence. *)
Lemma SplitN2_spec (sep s k v : string) :
  SplitN2 s sep = Some (k, v) -> split_at_first sep s k v.
Proof.
  unfold SplitN2. destruct (strings_Index s sep) as [m |] eqn:Hm; [| discriminate].
  apply strings_Index_Some in Hm. destruct Hm as (k0 & v0 & [Hs Hmin] & Hl).
  subst m. rewrite Hs at 1 2 3.
  destruct (substring_split k0 sep v0) as [-> ->]. intros [= <- <-].
  split; assumption.
Qed.

Lemma strings_Contains_spec (sep s : string) :
  strings_Contains s sep = true <-> exists k v : string, s = k +:+ sep +:+ v.
Proof.
  unfold strings_Contains. destruct (strings_Index s sep) as [m |] eqn:Hm.
  - apply strings_Index_Some in Hm. destruct Hm as (k & v & [Hs _] & _).
    split; eauto.
  - split; [discriminate |]. intros (k & v & Hs).
    exfalso. exact (strings_Index_None sep s Hm k v Hs).
Qed.

Lemma strings_Contains_SplitN2 (sep s : string) :
  strings_Contains s sep = true <-> is_Some (SplitN2 s sep).
Proof.
  unfold strings_Contains, SplitN2. destruct (strings_Index s sep); split;
    intros H; eauto; try discriminate. destruct H as [? [=]].
Qed.

End Splitting.

Section UsedCIDRs.

Let sep : string := " - ".

Lemma GetUsedCIDRs_loop_spec descs : forall res0,
  exists res,
    GetUsedCIDRs_loop false descs res0 = inr res /\
    (forall k v, res !! k = Some v ->
       res0 !! k = Some v \/ exists desc, desc ∈ descs /\ SplitN2 desc sep = Some (k, v)) /\
    (forall k, is_Some (res0 !! k) -> is_Some (res !! k)) /\
    (forall desc k v, desc ∈ descs -> SplitN2 desc sep = Some (k, v) -> is_Some (res !! k)).
Proof.
  induction descs as [| desc descs IH]; intros res0; cbn [GetUsedCIDRs_loop ctx_Err].
  - exists res0. split; [reflexivity |]. split; [auto |]. split; [auto |].
    intros desc k v H. apply elem_of_nil in H. destruct H.
  - fold sep. destruct (strings_Contains desc sep) eqn:Hc.
    + apply strings_Contains_SplitN2 in Hc. destruct Hc as [[k0 v0] Hs]. rewrite Hs.
      destruct (IH (<[k0 := v0]> res0)) as (res & Hr & H1 & H2 & H3).
      exists res. split; [exact Hr |]. split; [| split].
      * intros k v Hk. destruct (H1 k v Hk) as [H | (d & Hd & Hsd)].
        -- destruct (decide (k0 = k)) as [<- | Hne].
           ++ rewrite lookup_insert_eq in H. injection H as <-.
              right. exists desc. split; [apply elem_of_cons; left; reflexivity | exact Hs].
           ++ rewrite lookup_insert_ne in H by assumption. left. exact H.
        -- right. exists d. split; [apply elem_of_cons; right; exact Hd | exact Hsd].
      * intros k Hk. apply H2. destruct (decide (k0 = k)) as [<- | Hne].
        -- rewrite lookup_insert_eq. eauto.
        -- rewrite lookup_insert_ne by assumption. exact Hk.
      * intros d k v Hd Hsd. apply elem_of_cons in Hd. destruct Hd as [-> | Hd].
        -- rewrite Hs in Hsd. injection Hsd as <- <-. apply H2.
           rewrite lookup_insert_eq. eauto.
        -- exact (H3 d k v Hd Hsd).
    + destruct (IH res0) as (res & Hr & H1 & H2 & H3).
      exists res. split; [exact Hr |]. split; [| split; [exact H2 |]].
      * intros k v Hk. destruct (H1 k v Hk) as [H | (d & Hd & Hsd)]; [left; exact H |].
        right. exists d. split; [apply elem_of_cons; right; exact Hd | exact Hsd].
      * intros d k v Hd Hsd. apply elem_of_cons in Hd. destruct Hd as [-> | Hd].
        -- assert (Ht : strings_Contains desc sep = true)
             by (apply strings_Contains_SplitN2; eauto). congruence.
        -- exact (H3 d k v Hd Hsd).
Qed.

(** C9, amended. In whatever order the allocated map is ranged, on a live
    context [GetUsedCIDRs] succeeds and: every entry of the result pairs the
    text before the first [" - "] of some allocated description that
    contains the separator with the text after it; a description without
    the separator has no such split and contributes nothing; for a
    description with the separator the text before it is a key of the
    result, and its value is the text after it whenever every description
    with that same text before the separator has the same text after. *)
Theorem GetUsedCIDRs_entries (range : gmap string string -> list (string * string)) g :
  (forall m, range m ≡ₚ map_to_list m) ->
  exists res,
    GetUsedCIDRs_in range false g = Some (inr res, g) /\
    (forall cidr description, res !! cidr = Some description ->
       exists ip desc, allocated (storage g) !! ip = Some desc /\
                       strings_Contains desc " - " = true /\
                       split_at_first " - " desc cidr description) /\
    (forall ip desc, allocated (storage g) !! ip = Some desc ->
       strings_Contains desc " - " = false ->
       forall cidr description, ~ split_at_first " - " desc cidr description) /\
    (forall ip desc, allocated (storage g) !! ip = Some desc ->
       strings_Contains desc " - " = true ->
       exists cidr description,
         split_at_first " - " desc cidr description /\
         is_Some (res !! cidr) /\
         ((forall ip' desc' d', allocated (storage g) !! ip' = Some desc' ->
                                SplitN2 desc' " - " = Some (cidr, d') -> d' = description) ->
          res !! cidr = Some description)).
Proof.
  intros Hrange. destruct g as [[av al] reg].
  assert (Hin : forall desc, desc ∈ map snd (range al) <-> exists ip, al !! ip = Some desc).
  { intros desc. rewrite list_elem_of_fmap. split.
    - intros ([ip d] & -> & H). rewrite (Hrange al) in H.
      apply elem_of_map_to_list in H. eauto.
    - intros [ip H]. exists (ip, desc). split; [reflexivity |].
      rewrite (Hrange al). apply elem_of_map_to_list. exact H. }
  destruct (GetUsedCIDRs_loop_spec (map snd (range al)) ∅) as (res & Hr & H1 & _ & H3).
  exists res. split; [| split; [| split]].
  - unfold GetUsedCIDRs_in. msimpl. fold sep in Hr |- *. rewrite Hr. reflexivity.
  - intros cidr description Hk. destruct (H1 _ _ Hk) as [H | (desc & Hd & Hs)].
    + rewrite lookup_empty in H. discriminate.
    + apply Hin in Hd. destruct Hd as [ip Hip]. exists ip, desc. simpl.
      split; [exact Hip |]. split; [apply strings_Contains_SplitN2; eauto |].
      apply SplitN2_spec. exact Hs.
  - intros ip desc _ Hc cidr description [Hs _].
    assert (strings_Contains desc " - " = true) by (apply strings_Contains_spec; eauto).
    congruence.
  - intros ip desc Hip Hc. simpl in Hip.
    apply strings_Contains_SplitN2 in Hc. destruct Hc as [[cidr description] Hs].
    exists cidr, description. split; [apply SplitN2_spec; exact Hs |].
    assert (Hd : desc ∈ map snd (range al)) by (apply Hin; eauto).
    pose proof (H3 desc cidr description Hd Hs) as [v Hv].
    split; [eauto |]. intros Huniq. rewrite Hv. f_equal.
    destruct (H1 _ _ Hv) as [H | (desc' & Hd' & Hs')].
    + rewrite lookup_empty in H. discriminate.
    + apply Hin in Hd'. destruct Hd' as [ip' Hip']. exact (Huniq ip' desc' v Hip' Hs').
Qed.

End UsedCIDRs.

Lemma GetUsedCIDRs_entries_witness :
  (forall m : gmap string string, map_to_list m ≡ₚ map_to_list m) /\
  exists res, GetUsedCIDRs_in map_to_list false pool_used = Some (inr res, pool_used).
Proof.
  assert (H : forall m : gmap string string, map_to_list m ≡ₚ map_to_list m)
    by (intros m; reflexivity).
  split; [exact H |].
  destruct (GetUsedCIDRs_entries map_to_list pool_used H) as (res & Hres & _).
  exists res. exact Hres.
Defined.

(** C9 as stated fails on two descriptions with the same text before the
    separator: whichever order the map is ranged in, one of them has no
    entry of its own. *)
Lemma GetUsedCIDRs_shared_prefix :
  GetUsedCIDRs_in (fun _ => [("10.0.0.1", "a - x"); ("10.0.0.2", "a - y")]) false
    pool_shared_prefix
  = Some (inr {["a" := "y"]}, pool_shared_prefix) /\
  GetUsedCIDRs_in (fun _ => [("10.0.0.2", "a - y"); ("10.0.0.1", "a - x")]) false
    pool_shared_prefix
  = Some (inr {["a" := "x"]}, pool_shared_prefix).
Proof. split; vm_compute; reflexivity. Qed.

(** ** The /24 scenario *)

Lemma pool_slash24_built :
  NewCIDRGuardian 300 false ["192.168.0.0/24"%string] = Some (inr pool_slash24).
Proof. vm_cast_no_check (eq_refl (Some (inr pool_slash24 : result CIDRGuardian))). Qed.

Lemma pool_slash24_first :
  AllocateCIDR false 30 "x" pool_slash24 = Some (inr "192.168.0.0/30"%string, pool_slash24_x).
Proof.
  vm_cast_no_check
    (eq_refl (Some (inr "192.168.0.0/30"%string : result string, pool_slash24_x))).
Qed.

Lemma pool_slash24_second :
  returned (AllocateCIDR false 30 "y" pool_slash24_x) = Some (inr "192.168.0.100/30"%string).
Proof. vm_cast_no_check (eq_refl (Some (inr "192.168.0.100/30"%string : result string))). Qed.

(** C1, amended. The engine created on ["192.168.0.0/24"] has 256
    Available addresses, none Allocated and that one block registered;
    [AllocateCIDR(30, "x")] returns ["192.168.0.0/30"], and
    [AllocateCIDR(30, "y")] right after returns ["192.168.0.100/30"], the
    first aligned free block in the order of the address texts. *)
Theorem AllocateCIDR_slash24_twice :
  NewCIDRGuardian 300 false ["192.168.0.0/24"%string] = Some (inr pool_slash24) /\
  size (available (storage pool_slash24)) = 256%nat /\
  size (allocated (storage pool_slash24)) = 0%nat /\
  dom (managedCIDRs pool_slash24) = {["192.168.0.0/24"%string]} /\
  AllocateCIDR false 30 "x" pool_slash24 = Some (inr "192.168.0.0/30"%string, pool_slash24_x) /\
  returned (AllocateCIDR false 30 "y" pool_slash24_x) = Some (inr "192.168.0.100/30"%string).
Proof.
  split; [exact pool_slash24_built |].
  split; [vm_cast_no_check (eq_refl 256%nat) |].
  split; [vm_cast_no_check (eq_refl 0%nat) |].
  split; [vm_cast_no_check (eq_refl ({["192.168.0.0/24"%string]} : gset string)) |].
  split; [exact pool_slash24_first | exact pool_slash24_second].
Qed.

(** C1 as stated fails: the second call does not return 192.168.0.4/30. *)
Lemma AllocateCIDR_slash24_second_not_4 :
  NewCIDRGuardian 300 false ["192.168.0.0/24"%string] = Some (inr pool_slash24) /\
  AllocateCIDR false 30 "x" pool_slash24 = Some (inr "192.168.0.0/30"%string, pool_slash24_x) /\
  returned (AllocateCIDR false 30 "y" pool_slash24_x) <> Some (inr "192.168.0.4/30"%string).
Proof.
  split; [exact pool_slash24_built |]. split; [exact pool_slash24_first |].
  rewrite pool_slash24_second. discriminate.
Qed.

(** ** The addresses of a block *)

Section Blocks.

Lemma block_list_spec : forall (k : nat) ip0,
  ip4 ip0 -> ipZ ip0 + Z.of_nat k <= 4294967296 ->
  forall ip, ip ∈ block_list k ip0 <-> ip4 ip /\ ipZ ip0 <= ipZ ip < ipZ ip0 + Z.of_nat k.
Proof.
  induction k as [| k IH]; intros ip0 H0 Hk ip; cbn [block_list].
  - rewrite elem_of_nil. lia.
  - rewrite elem_of_cons. destruct (nextIP_spec ip0 H0) as [Hn4 HnZ].
    destruct k as [| k].
    + cbn [block_list]. rewrite elem_of_nil. split.
      * intros [-> | []]. split; [assumption | lia].
      * intros [H4 Hr]. left. apply ipZ_inj; auto. lia.
    + rewrite Z.mod_small in HnZ by (pose proof (ipZ_range ip0 H0); lia).
      rewrite (IH (nextIP ip0) Hn4) by lia. rewrite HnZ. split.
      * intros [-> | [H4 Hr]]; (split; [assumption | lia]).
      * intros [H4 Hr]. destruct (Z.eq_dec (ipZ ip) (ipZ ip0)) as [He | Hne].
        -- left. apply ipZ_inj; auto.
        -- right. split; [assumption | lia].
Qed.

Lemma block_ips_spec p n : block_net p n ->
  forall ip, ip ∈ block_ips p n <-> ip4 ip /\ Contains n ip = true.
Proof.
  intros Hn ip. pose proof Hn as (Hp & _ & Hb & _).
  pose proof (block_size_pos p Hp) as HS. pose proof (block_end p n Hn) as He.
  unfold block_ips. rewrite block_list_spec by (auto; rewrite Z2Nat.id; lia).
  rewrite Z2Nat.id by lia. split; intros [H4 H]; (split; [assumption |]).
  - apply (Contains_spec p n ip Hn H4). exact H.
  - apply (Contains_spec p n ip Hn H4). exact H.
Qed.

Lemma block_strings_spec p n : block_net p n ->
  forall s, s ∈ block_strings p n <-> in_block n s.
Proof.
  intros Hn s. unfold block_strings, in_block. rewrite list_elem_of_fmap. split.
  - intros (ip & -> & Hip). apply (block_ips_spec p n Hn) in Hip. destruct Hip. eauto.
  - intros (ip & H4 & Hc & <-). exists ip. split; [reflexivity |].
    apply (block_ips_spec p n Hn). auto.
Qed.

(** The walk of [ParseCIDR]'s network starts at its base. *)
Lemma ParseCIDR_start c ip n :
  ParseCIDR c = Some (ip, n) -> Mask ip (IPNet_Mask n) = IPNet_IP n.
Proof.
  intros H. apply ParseCIDR_inv in H. destruct H as (p & a & Hp & Ha & -> & ->).
  cbn [IPNet_Mask IPNet_IP]. apply Mask_16_4; assumption.
Qed.

End Blocks.

(** ** ExpandPool *)

(** C10. When [ExpandPool] is called, on a live context and with fuel for
    the block, with a CIDR that is already registered, it returns the
    duplicate-CIDR error of its final [AddCIDR]; the registry and Allocated
    are unchanged, and a key is Available afterwards exactly when it was
    before or it is the text of an address of the block that is not
    Allocated: the additions of the walk are kept. *)
Theorem ExpandPool_registered fuel cidr ip n info g :
  ParseCIDR cidr = Some (ip, n) ->
  fuel_for fuel n ->
  managedCIDRs g !! cidr = Some info ->
  exists g',
    ExpandPool fuel false cidr g = Some (inl (DuplicateCIDR cidr), g') /\
    managedCIDRs g' = managedCIDRs g /\
    allocated (storage g') = allocated (storage g) /\
    forall s, is_Some (available (storage g') !! s) <->
              is_Some (available (storage g) !! s) \/
              (in_block n s /\ allocated (storage g) !! s = None).
Proof.
  intros Hparse (p & Hn & Hp1 & Hfuel) Hreg.
  exists (with_available g
            (add_keys (block_strings p n) (allocated (storage g)) (available (storage g)))).
  split; [| split; [reflexivity | split; [reflexivity |]]].
  - unfold ExpandPool. rewrite Hparse. unfold cloneIP.
    rewrite (block_net_start p n Hn).
    erewrite bind_ok by (rewrite (walk_block p n Hn) by assumption; apply ExpandPool_list).
    unfold AddCIDR. rewrite Hparse. msimpl. rewrite Hreg. reflexivity.
  - intros s. cbn [with_available storage available]. rewrite add_keys_lookup.
    rewrite (block_strings_spec p n Hn). reflexivity.
Qed.

Lemma slash30_net :
  ParseCIDR "10.0.0.0/30"
  = Some ((v4InV6Prefix ++ [10; 0; 0; 0])%list, mkIPNet [10; 0; 0; 0] [255; 255; 255; 252]).
Proof. vm_compute. reflexivity. Qed.

Lemma slash30_block_net : block_net 30 (mkIPNet [10; 0; 0; 0] [255; 255; 255; 252]).
Proof.
  unfold block_net. cbn [IPNet_IP IPNet_Mask]. split; [lia |]. split; [reflexivity |].
  split; [| reflexivity].
  exists 10, 0, 0, 0. unfold is_byte. split; [reflexivity | lia].
Qed.

Lemma slash30_fuel : fuel_for 10 (mkIPNet [10; 0; 0; 0] [255; 255; 255; 252]).
Proof.
  exists 30. split; [exact slash30_block_net |]. split; [lia |].
  vm_compute. lia.
Qed.

Lemma ExpandPool_registered_witness :
  ParseCIDR "10.0.0.0/30"
  = Some ((v4InV6Prefix ++ [10; 0; 0; 0])%list, mkIPNet [10; 0; 0; 0] [255; 255; 255; 252]) /\
  fuel_for 10 (mkIPNet [10; 0; 0; 0] [255; 255; 255; 252]) /\
  is_Some (managedCIDRs pool_registered !! "10.0.0.0/30") /\
  exists g', ExpandPool 10 false "10.0.0.0/30" pool_registered
             = Some (inl (DuplicateCIDR "10.0.0.0/30"), g').
Proof.
  assert (Hreg : exists info, managedCIDRs pool_registered !! "10.0.0.0/30" = Some info)
    by (vm_compute; eauto).
  split; [exact slash30_net |]. split; [exact slash30_fuel |]. split; [exact Hreg |].
  destruct Hreg as [info Hinfo].
  destruct (ExpandPool_registered 10 _ _ _ info pool_registered slash30_net slash30_fuel Hinfo)
    as (g' & Hg' & _).
  exists g'. exact Hg'.
Defined.

(** ** AddCIDR and RemoveCIDR *)

Lemma add_then_del_keys ks al (av : gmap string bool) :
  (forall k, k ∈ ks -> av !! k = None) ->
  size (del_keys ks (add_keys ks al av)) = size av.
Proof.
  intros Hfree. apply same_keys_size. intros k.
  rewrite del_keys_lookup, add_keys_lookup. split.
  - intros [[H | [H _]] Hn]; [exact H | contradiction].
  - intros H. split; [left; exact H |]. intros Hk. rewrite (Hfree k Hk) in H.
    destruct H as [? [=]].
Qed.

(** What a successful [AddCIDR] did. *)
Lemma AddCIDR_success fuel cidr d ip n g g1 :
  ParseCIDR cidr = Some (ip, n) ->
  AddCIDR fuel false cidr d g = Some (inr tt, g1) ->
  exists p, block_net p n /\ 1 <= p /\ (Z.to_nat (block_size p) < fuel)%nat /\
    managedCIDRs g !! cidr = None /\
    g1 = mkGuardian
           (mkStorage (add_keys (block_strings p n) (allocated (storage g))
                                (available (storage g)))
                      (allocated (storage g)))
           (<[cidr := mkCIDRInfo cidr d n]> (managedCIDRs g)).
Proof.
  intros Hparse Hadd. destruct (ParseCIDR_block_net _ _ _ Hparse) as [p Hn].
  exists p. unfold AddCIDR in Hadd. rewrite Hparse in Hadd.
  unfold cloneIP in Hadd. rewrite (ParseCIDR_start _ _ _ Hparse) in Hadd.
  apply bind_inv in Hadd. destruct Hadd as ([] & g0 & Hc & Hadd).
  injection Hc as <-.
  apply bind_inv in Hadd. destruct Hadd as (reg & g0 & Hc & Hadd).
  injection Hc as <- <-.
  destruct (managedCIDRs g !! cidr) eqn:Hreg; [discriminate |].
  apply bind_inv in Hadd. destruct Hadd as (ipList & g0 & Hw & Hadd).
  destruct (walk_success p n Hn _ _ _ _ _ _ Hw) as [Hp1 Hfuel].
  rewrite (walk_block p n Hn) in Hw by assumption.
  rewrite collect_list in Hw. injection Hw as <- <-.
  apply bind_inv in Hadd. destruct Hadd as ([] & g0 & Ha & Hadd).
  rewrite AddCIDR_add_live in Ha. injection Ha as <-.
  injection Hadd as <-.
  split; [exact Hn |]. repeat split; auto.
Qed.

Lemma AvailableCount_live g :
  AvailableCount false g = Some (inr (Z.of_nat (size (available (storage g)))), g).
Proof. destruct g as [[av al] reg]. reflexivity. Qed.

Lemma AllocatedCount_live g :
  AllocatedCount false g = Some (inr (Z.of_nat (size (allocated (storage g)))), g).
Proof. destruct g as [[av al] reg]. reflexivity. Qed.

(** C4, amended. When [AddCIDR(c, d)] succeeds on a live context and no
    address of the block of [c] was Available before it, [RemoveCIDR(c)]
    right after succeeds, [AvailableCount] is what it was before the
    [AddCIDR], and the registry is what it was. *)
Theorem AddCIDR_then_RemoveCIDR fuel cidr d ip n g g1 :
  ParseCIDR cidr = Some (ip, n) ->
  (forall s, in_block n s -> available (storage g) !! s = None) ->
  AddCIDR fuel false cidr d g = Some (inr tt, g1) ->
  exists g2 c,
    RemoveCIDR fuel false cidr g1 = Some (inr tt, g2) /\
    AvailableCount false g = Some (inr c, g) /\
    AvailableCount false g2 = Some (inr c, g2) /\
    managedCIDRs g2 = managedCIDRs g.
Proof.
  intros Hparse Hfree Hadd.
  destruct (AddCIDR_success _ _ _ _ _ _ _ Hparse Hadd) as (p & Hn & Hp1 & Hfuel & Hreg & ->).
  eexists _, (Z.of_nat (size (available (storage g)))). split; [| split; [| split]].
  - unfold RemoveCIDR, removeCIDRWithoutLock. msimpl. rewrite lookup_insert_eq.
    cbn [IPNet_of]. unfold cloneIP. rewrite (block_net_start p n Hn).
    rewrite (walk_block p n Hn) by assumption. rewrite removeCIDR_list. reflexivity.
  - apply AvailableCount_live.
  - rewrite AvailableCount_live. cbn [with_available storage available].
    rewrite add_then_del_keys; [reflexivity |].
    intros k Hk. apply Hfree. apply (block_strings_spec p n Hn). exact Hk.
  - simpl. apply delete_insert_id. exact Hreg.
Qed.

Lemma AddCIDR_then_RemoveCIDR_witness :
  ParseCIDR "10.0.0.0/30"
  = Some ((v4InV6Prefix ++ [10; 0; 0; 0])%list, mkIPNet [10; 0; 0; 0] [255; 255; 255; 252]) /\
  (forall s, in_block (mkIPNet [10; 0; 0; 0] [255; 255; 255; 252]) s ->
             available (storage empty_pool) !! s = None) /\
  AddCIDR 10 false "10.0.0.0/30" "lab" empty_pool = Some (inr tt, pool_after_add) /\
  exists g2 c,
    RemoveCIDR 10 false "10.0.0.0/30" pool_after_add = Some (inr tt, g2) /\
    AvailableCount false empty_pool = Some (inr c, empty_pool) /\
    AvailableCount false g2 = Some (inr c, g2).
Proof.
  assert (Hfree : forall s, in_block (mkIPNet [10; 0; 0; 0] [255; 255; 255; 252]) s ->
                            available (storage empty_pool) !! s = None)
    by (intros s _; apply lookup_empty).
  assert (Hadd : AddCIDR 10 false "10.0.0.0/30" "lab" empty_pool = Some (inr tt, pool_after_add))
    by (vm_compute; reflexivity).
  split; [exact slash30_net |]. split; [exact Hfree |]. split; [exact Hadd |].
  destruct (AddCIDR_then_RemoveCIDR 10 _ _ _ _ empty_pool pool_after_add slash30_net Hfree Hadd)
    as (g2 & c & H1 & H2 & H3 & _).
  exists g2, c. auto.
Defined.

(** C4 as stated fails when an address of the block was already
    Available: [RemoveCIDR] takes it away with the block. *)
Lemma AddCIDR_RemoveCIDR_loses_address :
  AddCIDR 5 false "10.0.0.0/32" "host" pool_single_free = Some (inr tt, pool_single_added) /\
  RemoveCIDR 5 false "10.0.0.0/32" pool_single_added = Some (inr tt, empty_pool) /\
  AvailableCount false pool_single_free = Some (inr 1, pool_single_free) /\
  AvailableCount false empty_pool = Some (inr 0, empty_pool).
Proof. repeat split; vm_compute; reflexivity. Qed.

(** ** AllocateCIDR with prefix length 32 *)

Lemma slash32_block_net ip : ip4 ip -> block_net 32 (mkIPNet ip (CIDRMask 32 32)).
Proof.
  intros Hip. unfold block_net. cbn [IPNet_IP IPNet_Mask].
  split; [lia |]. split; [reflexivity |]. split; [assumption |].
  change (block_size 32) with 1. apply Z.mod_1_r.
Qed.

Lemma filter_all {A} (f : A -> bool) l :
  (forall x, In x l -> f x = true) -> List.filter f l = l.
Proof.
  induction l as [| y l IH]; intros H; simpl; [reflexivity |].
  rewrite (H y) by (left; reflexivity). f_equal. apply IH. intros x Hx. apply H. right. exact Hx.
Qed.

(** C5, amended. When the only Available key is the text [a] of an IPv4
    address, [AllocateCIDR(32, d)] and [AllocateIP(a, d)] both succeed on a
    live context, both leave Available empty and [a] Allocated, and differ
    in the description recorded for [a]: ["a/32 - d"] for the block, [d]
    for the address; on a cancelled context both fail with the cancellation
    error and change nothing. *)
Theorem AllocateCIDR_32_singleton ip v d g :
  ip4 ip ->
  available (storage g) = {[IP_String ip := v]} ->
  AllocateCIDR false 32 d g
  = Some (inr (IP_String ip +:+ "/32"),
          mkGuardian
            (mkStorage ∅ (<[IP_String ip := (IP_String ip +:+ "/32") +:+ " - " +:+ d]>
                            (allocated (storage g))))
            (managedCIDRs g)) /\
  AllocateIP false (IP_String ip) d g
  = Some (inr tt,
          mkGuardian (mkStorage ∅ (<[IP_String ip := d]> (allocated (storage g))))
                     (managedCIDRs g)) /\
  AllocateCIDR true 32 d g = Some (inl Cancelled, g) /\
  AllocateIP true (IP_String ip) d g = Some (inl Cancelled, g).
Proof.
  intros Hip Hav. destruct g as [[av al] reg]. cbn [storage available allocated managedCIDRs] in *.
  subst av. pose proof (slash32_block_net ip Hip) as Hn.
  assert (Hm : Mask ip (CIDRMask 32 32) = ip) by exact (block_net_start 32 _ Hn).
  assert (Hal : aligned 32 (IP_String ip) = true).
  { apply aligned_spec; [lia |]. exists ip. auto. }
  split; [| split; [| split; reflexivity]].
  - unfold AllocateCIDR. msimpl. rewrite map_to_list_singleton. cbn [map fst].
    change (sort_Strings [IP_String ip]) with [IP_String ip].
    replace (Z.of_nat (length [IP_String ip]) <? Z.shiftl 1 (32 - 32)) with false by reflexivity.
    change (sort_Strings [IP_String ip]) with [IP_String ip].
    cbn [List.filter]. rewrite Hal.
    change (sort_Strings [IP_String ip]) with [IP_String ip]. cbn iota.
    rewrite (ParseCIDR_IP_String ip 32 Hip) by lia. rewrite Hm.
    cbn [IPNet_IP]. unfold cloneIP.
    change (Z.to_nat (Z.shiftl 1 (32 - 32))) with 1%nat. cbn [walk_counted].
    rewrite (contains_from 32 _ Hn) by (cbn [IPNet_IP]; auto; change (block_size 32) with 1; lia).
    change (itoa 32) with "32"%string.
    unfold AllocateCIDR_check, AllocateCIDR_remove. msimpl.
    rewrite lookup_singleton_eq. rewrite bool_decide_eq_true_2 by eauto. simpl.
    unfold Storage.AllocateIP. simpl. rewrite lookup_singleton_eq. simpl.
    rewrite String.eqb_refl. rewrite delete_singleton_eq. reflexivity.
  - unfold AllocateIP. msimpl. unfold Storage.AllocateIP. simpl.
    rewrite lookup_singleton_eq. simpl. rewrite delete_singleton_eq. reflexivity.
Qed.

Lemma AllocateCIDR_32_singleton_witness :
  ip4 [10; 0; 0; 1] /\
  available (storage pool_one_host) = {[IP_String [10; 0; 0; 1] := true]} /\
  AllocateCIDR false 32 "db" pool_one_host
  = Some (inr "10.0.0.1/32"%string,
          mkGuardian (mkStorage ∅ {["10.0.0.1" := "10.0.0.1/32 - db"]}) ∅).
Proof.
  assert (H4 : ip4 [10; 0; 0; 1]).
  { exists 10, 0, 0, 1. unfold is_byte. split; [reflexivity | lia]. }
  assert (Hav : available (storage pool_one_host) = {[IP_String [10; 0; 0; 1] := true]})
    by reflexivity.
  split; [exact H4 |]. split; [exact Hav |].
  exact (proj1 (AllocateCIDR_32_singleton [10; 0; 0; 1] true "db" pool_one_host H4 Hav)).
Defined.

(** C5 as stated fails: the description recorded for the address differs,
    and a key that is not the text of an IPv4 address is no candidate. *)
Lemma AllocateCIDR_32_differs_from_AllocateIP :
  AllocateCIDR false 32 "db" pool_one_host
  = Some (inr "10.0.0.1/32"%string,
          mkGuardian (mkStorage ∅ {["10.0.0.1" := "10.0.0.1/32 - db"]}) ∅) /\
  AllocateIP false "10.0.0.1" "db" pool_one_host
  = Some (inr tt, mkGuardian (mkStorage ∅ {["10.0.0.1" := "db"]}) ∅) /\
  AllocateCIDR false 32 "db" pool_one_key = Some (inl NoAlignedBlock, pool_one_key) /\
  AllocateIP false "::1" "db" pool_one_key
  = Some (inr tt, mkGuardian (mkStorage ∅ {["::1" := "db"]}) ∅).
Proof. repeat split; vm_compute; reflexivity. Qed.

(** ** AllocateCIDR then ReleaseCIDR *)

(** What a successful [AllocateCIDR] did. *)
Lemma AllocateCIDR_success p d g c g1 :
  AllocateCIDR false p d g = Some (inr c, g1) ->
  0 <= p <= 32 /\
  exists ip,
    ip4 ip /\ Mask ip (CIDRMask p 32) = ip /\
    c = IP_String ip +:+ "/" +:+ itoa p /\
    (forall s, s ∈ block_strings p (mkIPNet ip (CIDRMask p 32)) ->
               is_Some (available (storage g) !! s)) /\
    g1 = mkGuardian
           (mkStorage
              (del_keys (List.filter (fun s => negb (String.eqb s (IP_String ip)))
                                     (block_strings p (mkIPNet ip (CIDRMask p 32))))
                        (delete (IP_String ip) (available (storage g))))
              (<[IP_String ip := c +:+ " - " +:+ d]> (allocated (storage g))))
           (managedCIDRs g).
Proof.
  intros H. unfold AllocateCIDR in H.
  apply bind_inv in H. destruct H as ([] & g0 & Hc & H). injection Hc as <-.
  destruct ((p <? 0) || (32 <? p)) eqn:Hb; [discriminate |].
  apply orb_false_iff in Hb. destruct Hb as [Hb1 Hb2].
  apply Z.ltb_ge in Hb1, Hb2. assert (Hp : 0 <= p <= 32) by lia.
  split; [exact Hp |].
  apply bind_inv in H. destruct H as (avs & g0 & Hc & H).
  unfold on_storage, Storage.GetAvailableIPs in Hc. cbn [ctx_Err] in Hc.
  injection Hc as <- <-.
  destruct (_ <? _) in H; [discriminate |].
  destruct (sort_Strings (List.filter _ _)) as [| startIP rest] eqn:Hs; [discriminate |].
  assert (Hin : In startIP (startIP :: rest)) by (left; reflexivity).
  rewrite <- Hs in Hin. apply sort_Strings_In, filter_In in Hin. destruct Hin as [Hin Hal].
  apply sort_Strings_In, available_keys_In in Hin.
  apply aligned_spec in Hal; [| exact Hp]. destruct Hal as (ip & Hip & <- & Hm).
  exists ip. split; [exact Hip |]. split; [exact Hm |].
  rewrite (ParseCIDR_IP_String ip p Hip Hp), Hm, shiftl_block_size in H by exact Hp.
  unfold cloneIP in H. cbn [IPNet_IP] in H.
  assert (Hn : block_net p (mkIPNet ip (CIDRMask p 32))).
  { unfold block_net. cbn [IPNet_IP IPNet_Mask]. repeat split; auto; try lia.
    rewrite <- Hm. apply Mask_aligned; assumption. }
  pose proof (fun body g => walk_counted_block p _ Hn body g) as Hwc. cbn [IPNet_IP] in Hwc.
  apply bind_inv in H. destruct H as ([] & g0 & Hw & H).
  rewrite Hwc in Hw. apply AllocateCIDR_check_inv in Hw. destruct Hw as [-> Hall].
  apply bind_inv in H. destruct H as ([] & g0 & Ha & H).
  unfold on_storage, Storage.AllocateIP in Ha. cbn [ctx_Err storage managedCIDRs] in Ha.
  destruct (available (storage g) !! IP_String ip) eqn:Hav; [| discriminate].
  injection Ha as <-.
  apply bind_inv in H. destruct H as ([] & g0 & Hw & H).
  rewrite Hwc in Hw. apply AllocateCIDR_remove_inv in Hw. subst g0.
  injection H as <- <-.
  split; [reflexivity |]. split; [| reflexivity].
  intros s Hs'. unfold block_strings in Hs'. apply list_elem_of_fmap in Hs'.
  destruct Hs' as (a & -> & Ha). rewrite Forall_forall in Hall. apply Hall.
  exact Ha.
Qed.

(** C3, amended. For [1 <= p], fuel for a /p block, a storage whose two sets
    are disjoint and a live context: when [AllocateCIDR(p, d)] succeeds with
    [c] and every address of the block of [c] lies in some registered CIDR,
    [ReleaseCIDR(c)] succeeds and [AvailableCount] and [AllocatedCount] are
    what they were before the [AllocateCIDR]. *)
Theorem AllocateCIDR_then_ReleaseCIDR fuel p d g c g1 :
  1 <= p ->
  (Z.to_nat (block_size p) < fuel)%nat ->
  storage_disjoint (storage g) ->
  AllocateCIDR false p d g = Some (inr c, g1) ->
  (forall ip n, ParseCIDR c = Some (ip, n) ->
     forall a, ip4 a -> Contains n a = true -> inManagedRange (managedCIDRs g) a = true) ->
  exists g2 nav nal,
    ReleaseCIDR fuel false c g1 = Some (inr tt, g2) /\
    AvailableCount false g = Some (inr nav, g) /\
    AvailableCount false g2 = Some (inr nav, g2) /\
    AllocatedCount false g = Some (inr nal, g) /\
    AllocatedCount false g2 = Some (inr nal, g2).
Proof.
  intros Hp1 Hfuel Hdisj Halloc Hcover.
  destruct (AllocateCIDR_success _ _ _ _ _ Halloc)
    as (Hp & ip & Hip & Hm & Hc & Havail & Hg1).
  set (n := mkIPNet ip (CIDRMask p 32)) in *.
  set (a := IP_String ip) in *.
  assert (Hn : block_net p n).
  { unfold block_net, n. cbn [IPNet_IP IPNet_Mask]. repeat split; auto; try lia.
    rewrite <- Hm. apply Mask_aligned; assumption. }
  assert (Hparse : ParseCIDR c = Some ((v4InV6Prefix ++ ip)%list, n)).
  { rewrite Hc. unfold a. rewrite (ParseCIDR_IP_String ip p Hip Hp), Hm. reflexivity. }
  assert (Hain : a ∈ block_strings p n).
  { apply (block_strings_spec p n Hn). exists ip. split; [exact Hip |]. split; [| reflexivity].
    apply (contains_from p n Hn ip Hip). pose proof (block_size_pos p Hp). unfold n. simpl. lia. }
  assert (Hal_a : allocated (storage g) !! a = None) by (apply Hdisj, Havail, Hain).
  assert (Hall : List.filter (inManagedRange (managedCIDRs g)) (block_ips p n) = block_ips p n).
  { apply filter_all. intros x Hx. apply list_elem_of_In, (block_ips_spec p n Hn) in Hx.
    destruct Hx as [Hx4 Hxc]. exact (Hcover _ _ Hparse x Hx4 Hxc). }
  destruct g as [[av al] reg]. cbn [storage available allocated managedCIDRs] in *.
  set (al1 := <[a := c +:+ " - " +:+ d]> al) in *.
  set (av1 := del_keys _ _) in Hg1.
  exists (mkGuardian (mkStorage (<[a := true]> (add_keys (block_strings p n) al1 av1)) al) reg),
         (Z.of_nat (size av)), (Z.of_nat (size al)).
  split; [| split; [apply AvailableCount_live | split; [| split; [apply AllocatedCount_live |
            apply AllocatedCount_live]]]].
  - subst g1. unfold ReleaseCIDR. rewrite Hparse. unfold cloneIP.
    rewrite (block_net_start p n Hn).
    change (IP_String (IPNet_IP n)) with a.
    rewrite (bind_ok (check false) _ _ tt (mkGuardian (mkStorage av1 al1) reg)) by reflexivity.
    rewrite (bind_ok (on_storage (Storage.GetAllocatedIPs false)) _ _ al1
               (mkGuardian (mkStorage av1 al1) reg)) by reflexivity.
    replace (al1 !! a) with (Some (c +:+ " - " +:+ d)) by (symmetry; apply lookup_insert_eq).
    erewrite bind_ok.
    2:{ rewrite (walk_block p n Hn) by assumption.
        apply (ReleaseCIDR_list (block_ips p n) (mkGuardian (mkStorage av1 al1) reg)). }
    cbn [managedCIDRs storage allocated available with_available]. rewrite Hall.
    unfold on_storage, Storage.DeallocateIP. cbn [ctx_Err storage allocated available managedCIDRs].
    replace (al1 !! a) with (Some (c +:+ " - " +:+ d)) by (symmetry; apply lookup_insert_eq).
    replace (delete a al1) with al by (symmetry; apply delete_insert_id; exact Hal_a).
    reflexivity.
  - rewrite AvailableCount_live. cbn [storage available].
    assert (Hsize : size (<[a := true]> (add_keys (block_strings p n) al1 av1)) = size av);
      [| rewrite Hsize; reflexivity].
    apply same_keys_size. intros k.
    assert (Hk1 : is_Some (av1 !! k) <->
                  is_Some (av !! k) /\ k <> a /\ k ∉ block_strings p n).
    { unfold av1. rewrite del_keys_lookup.
      rewrite (list_elem_of_In _ k), filter_In, <- list_elem_of_In.
      destruct (decide (k = a)) as [-> | Hne].
      - rewrite lookup_delete_eq. split; [intros [[? [=]] _] | intros (_ & H & _); congruence].
      - rewrite lookup_delete_ne by congruence.
        assert (He : negb (String.eqb k a) = true)
          by (apply negb_true_iff, String.eqb_neq; exact Hne).
        rewrite He. tauto. }
    destruct (decide (k = a)) as [-> | Hne].
    + rewrite lookup_insert_eq. split; [intros _; apply Havail, Hain | eauto].
    + rewrite lookup_insert_ne by congruence. rewrite add_keys_lookup, Hk1.
      unfold al1. rewrite lookup_insert_ne by congruence. split.
      * intros [(H & _) | [Hk _]]; [exact H | apply Havail, Hk].
      * intros H. destruct (decide (k ∈ block_strings p n)) as [Hin | Hnin].
        -- right. split; [exact Hin | apply Hdisj, H].
        -- left. auto.
Qed.

Lemma slash31_net :
  ParseCIDR "10.0.0.0/31"
  = Some ((v4InV6Prefix ++ [10; 0; 0; 0])%list, mkIPNet [10; 0; 0; 0] [255; 255; 255; 254]).
Proof. vm_compute. reflexivity. Qed.

Lemma slash31_block_net : block_net 31 (mkIPNet [10; 0; 0; 0] [255; 255; 255; 254]).
Proof.
  unfold block_net. cbn [IPNet_IP IPNet_Mask]. split; [lia |]. split; [reflexivity |].
  split; [| reflexivity].
  exists 10, 0, 0, 0. unfold is_byte. split; [reflexivity | lia].
Qed.

Lemma slash31_covered a :
  ip4 a -> Contains (mkIPNet [10; 0; 0; 0] [255; 255; 255; 254]) a = true ->
  inManagedRange (managedCIDRs pool_registered) a = true.
Proof.
  intros Ha Hc.
  apply (Contains_spec 31 _ a slash31_block_net Ha) in Hc.
  assert (Hreg : managedCIDRs pool_registered
                 = {["10.0.0.0/30"%string :=
                       mkCIDRInfo "10.0.0.0/30" "初始 CIDR"
                                  (mkIPNet [10; 0; 0; 0] [255; 255; 255; 252])]})
    by (vm_compute; reflexivity).
  unfold inManagedRange. rewrite Hreg, map_to_list_singleton. cbn [existsb snd IPNet_of].
  rewrite orb_false_r. apply (Contains_spec 30 _ a slash30_block_net Ha).
  cbn [IPNet_IP] in *. change (block_size 31) with 2 in Hc. change (block_size 30) with 4. lia.
Qed.

Lemma AllocateCIDR_then_ReleaseCIDR_witness :
  1 <= 31 /\
  (Z.to_nat (block_size 31) < 10)%nat /\
  storage_disjoint (storage pool_registered) /\
  AllocateCIDR false 31 "db" pool_registered
  = Some (inr "10.0.0.0/31"%string, pool_registered_31) /\
  exists g2 nav nal,
    ReleaseCIDR 10 false "10.0.0.0/31" pool_registered_31 = Some (inr tt, g2) /\
    AvailableCount false pool_registered = Some (inr nav, pool_registered) /\
    AvailableCount false g2 = Some (inr nav, g2) /\
    AllocatedCount false pool_registered = Some (inr nal, pool_registered) /\
    AllocatedCount false g2 = Some (inr nal, g2).
Proof.
  assert (H1 : 1 <= 31) by lia.
  assert (H2 : (Z.to_nat (block_size 31) < 10)%nat) by (vm_compute; lia).
  assert (H3 : storage_disjoint (storage pool_registered)).
  { intros k _. assert (Hal : allocated (storage pool_registered) = ∅) by (vm_compute; reflexivity).
    rewrite Hal. apply lookup_empty. }
  assert (H4 : AllocateCIDR false 31 "db" pool_registered
               = Some (inr "10.0.0.0/31"%string, pool_registered_31))
    by (vm_compute; reflexivity).
  split; [exact H1 |]. split; [exact H2 |]. split; [exact H3 |]. split; [exact H4 |].
  apply (AllocateCIDR_then_ReleaseCIDR 10 31 "db" pool_registered _ _ H1 H2 H3 H4).
  intros ip n Hparse a Ha Hc. rewrite slash31_net in Hparse. injection Hparse as _ <-.
  exact (slash31_covered a Ha Hc).
Defined.

(** C3 as stated fails when no registered CIDR covers the block: only
    the network address comes back. *)
Lemma AllocateCIDR_ReleaseCIDR_unregistered :
  AllocateCIDR false 31 "db" pool_two_free = Some (inr "10.0.0.0/31"%string, pool_two_free_31) /\
  ReleaseCIDR 10 false "10.0.0.0/31" pool_two_free_31 = Some (inr tt, pool_two_free_released) /\
  AvailableCount false pool_two_free = Some (inr 2, pool_two_free) /\
  AvailableCount false pool_two_free_released = Some (inr 1, pool_two_free_released).
Proof. repeat split; vm_compute; reflexivity. Qed.

(** * Further properties of the code *)

(** ** sort.Strings *)

Section SortingOrder.

Lemma leb_le (x y : string) : String.leb x y = true <-> String.le x y.
Proof. unfold String.le. symmetry. apply Is_true_true. Qed.

Lemma insert_sorted_perm x l : insert_sorted x l ≡ₚ x :: l.
Proof.
  induction l as [| y l IH]; cbn [insert_sorted]; [reflexivity |].
  destruct (String.leb x y); [reflexivity |].
  rewrite IH. apply Permutation_swap.
Qed.

Lemma sort_Strings_perm l : sort_Strings l ≡ₚ l.
Proof.
  induction l as [| x l IH]; [reflexivity |].
  change (sort_Strings (x :: l)) with (insert_sorted x (sort_Strings l)).
  rewrite insert_sorted_perm, IH. reflexivity.
Qed.

Lemma insert_sorted_Sorted x l :
  StronglySorted String.le l -> StronglySorted String.le (insert_sorted x l).
Proof.
  induction l as [| y l IH]; intros Hs; cbn [insert_sorted].
  - repeat constructor.
  - apply StronglySorted_inv in Hs. destruct Hs as [Hl Hy].
    destruct (String.leb x y) eqn:Hxy.
    + apply leb_le in Hxy. constructor; [constructor; assumption |].
      constructor; [exact Hxy |]. rewrite Forall_forall in Hy |- *.
      intros z Hz. etransitivity; [exact Hxy | apply Hy, Hz].
    + constructor; [apply IH, Hl |].
      rewrite Forall_forall in Hy |- *. intros z Hz.
      apply list_elem_of_In, insert_sorted_In in Hz. destruct Hz as [-> | Hz].
      * destruct (total String.le y x) as [H | H]; [exact H |].
        apply leb_le in H. congruence.
      * apply Hy, list_elem_of_In, Hz.
Qed.

Lemma sort_Strings_Sorted l : StronglySorted String.le (sort_Strings l).
Proof.
  induction l as [| x l IH]; [constructor |].
  change (sort_Strings (x :: l)) with (insert_sorted x (sort_Strings l)).
  apply insert_sorted_Sorted, IH.
Qed.

(** The sorted list does not depend on the order of the input. *)
Lemma sort_Strings_order_free l l' : l ≡ₚ l' -> sort_Strings l = sort_Strings l'.
Proof.
  intros H. apply (StronglySorted_unique String.le); try apply sort_Strings_Sorted.
  rewrite !sort_Strings_perm. exact H.
Qed.

End SortingOrder.

(** ** memory_storage.go *)

(** X1. [GetAvailableIPs] lists every Available key once, in ascending byte
    order, whatever order the map is ranged in. *)
Theorem GetAvailableIPs_sorted_keys s :
  exists ips,
    Storage.GetAvailableIPs false s = (inr ips, s) /\
    StronglySorted String.le ips /\
    NoDup ips /\
    (forall k, k ∈ ips <-> is_Some (available s !! k)) /\
    (forall l, l ≡ₚ map_to_list (available s) -> sort_Strings (map fst l) = ips).
Proof.
  exists (sort_Strings (map fst (map_to_list (available s)))).
  split; [reflexivity |]. split; [apply sort_Strings_Sorted |]. split; [| split].
  - rewrite sort_Strings_perm. apply NoDup_fst_map_to_list.
  - intros k. rewrite list_elem_of_In. apply available_keys_In.
  - intros l Hl. apply sort_Strings_order_free. rewrite Hl. reflexivity.
Qed.

Lemma GetAvailableIPs_sorted_keys_witness :
  exists ips,
    Storage.GetAvailableIPs false (storage pool_two_free) = (inr ips, storage pool_two_free) /\
    StronglySorted String.le ips /\ NoDup ips.
Proof.
  destruct (GetAvailableIPs_sorted_keys (storage pool_two_free)) as (ips & H1 & H2 & H3 & _).
  exists ips. auto.
Defined.

(** X2. One key through its life: absent, Available, Allocated, Available,
    absent; and each step refused from the wrong state. *)
Theorem storage_key_lifecycle ip d s :
  available s !! ip = None ->
  allocated s !! ip = None ->
  exists s1 s2 s3,
    Storage.AddIP false ip s = (inr tt, s1) /\
    Storage.AllocateIP false ip d s1 = (inr tt, s2) /\
    Storage.DeallocateIP false ip s2 = (inr tt, s3) /\
    Storage.RemoveIP false ip s3 = (inr tt, s) /\
    (is_Some (available s1 !! ip) /\ allocated s1 !! ip = None) /\
    (available s2 !! ip = None /\ allocated s2 !! ip = Some d) /\
    (is_Some (available s3 !! ip) /\ allocated s3 !! ip = None) /\
    Storage.RemoveIP false ip s = (inl (AddressUnavailable ip), s) /\
    Storage.AllocateIP false ip d s = (inl (AddressUnavailable ip), s) /\
    Storage.DeallocateIP false ip s = (inl (NotAllocated ip), s) /\
    Storage.DeallocateIP false ip s1 = (inl (NotAllocated ip), s1) /\
    Storage.AddIP false ip s2 = (inl (AddressAlreadyAllocated ip), s2) /\
    Storage.RemoveIP false ip s2 = (inl (AddressUnavailable ip), s2) /\
    Storage.AllocateIP false ip d s2 = (inl (AddressUnavailable ip), s2).
Proof.
  intros Hav Hal. destruct s as [av al]. cbn [available allocated] in *.
  exists (mkStorage (<[ip := true]> av) al),
         (mkStorage av (<[ip := d]> al)),
         (mkStorage (<[ip := true]> av) al).
  unfold Storage.AddIP, Storage.AllocateIP, Storage.DeallocateIP, Storage.RemoveIP.
  cbn [ctx_Err available allocated].
  rewrite ?Hav, ?Hal, ?lookup_insert_eq, ?Hav, ?Hal.
  rewrite !delete_insert_id by assumption.
  rewrite ?Hav, ?Hal, ?lookup_insert_eq.
  repeat split; eauto.
Qed.

Lemma storage_key_lifecycle_witness :
  available NewMemoryIPStorage !! "10.0.0.1" = None /\
  allocated NewMemoryIPStorage !! "10.0.0.1" = None /\
  exists s1 s2 s3,
    Storage.AddIP false "10.0.0.1" NewMemoryIPStorage = (inr tt, s1) /\
    Storage.AllocateIP false "10.0.0.1" "web" s1 = (inr tt, s2) /\
    Storage.DeallocateIP false "10.0.0.1" s2 = (inr tt, s3) /\
    Storage.RemoveIP false "10.0.0.1" s3 = (inr tt, NewMemoryIPStorage).
Proof.
  assert (H1 : available NewMemoryIPStorage !! "10.0.0.1" = None) by apply lookup_empty.
  assert (H2 : allocated NewMemoryIPStorage !! "10.0.0.1" = None) by apply lookup_empty.
  split; [exact H1 |]. split; [exact H2 |].
  destruct (storage_key_lifecycle "10.0.0.1" "web" NewMemoryIPStorage H1 H2)
    as (s1 & s2 & s3 & Ha & Hb & Hc & Hd & _).
  exists s1, s2, s3. auto.
Defined.

(** X3. Allocating and deallocating move one key between the sets: on a
    storage whose sets are disjoint, a successful [AllocateIP] takes one
    off [AvailableCount] and adds one to [AllocatedCount], and a
    successful [DeallocateIP] does the opposite. *)
Theorem AllocateIP_DeallocateIP_counts ip d s :
  storage_disjoint s ->
  exists nav nal,
    Storage.AvailableCount false s = (inr nav, s) /\
    Storage.AllocatedCount false s = (inr nal, s) /\
    (forall s', Storage.AllocateIP false ip d s = (inr tt, s') ->
       Storage.AvailableCount false s' = (inr (nav - 1), s') /\
       Storage.AllocatedCount false s' = (inr (nal + 1), s')) /\
    (forall s', Storage.DeallocateIP false ip s = (inr tt, s') ->
       Storage.AvailableCount false s' = (inr (nav + 1), s') /\
       Storage.AllocatedCount false s' = (inr (nal - 1), s')).
Proof.
  intros Hd. destruct s as [av al]. unfold storage_disjoint in Hd.
  cbn [available allocated] in Hd.
  exists (Z.of_nat (size av)), (Z.of_nat (size al)).
  split; [reflexivity |]. split; [reflexivity |].
  unfold Storage.AllocateIP, Storage.DeallocateIP, Storage.AvailableCount,
    Storage.AllocatedCount. cbn [ctx_Err available allocated].
  split; intros s'.
  - destruct (av !! ip) eqn:Hav; [| discriminate]. intros [= <-]. cbn [available allocated].
    rewrite map_size_delete, Hav.
    rewrite map_size_insert, (Hd ip) by eauto.
    assert (size av <> 0%nat).
    { intros H0. apply map_size_empty_inv in H0. subst av. rewrite lookup_empty in Hav.
      discriminate. }
    split; do 2 f_equal; lia.
  - destruct (al !! ip) eqn:Hal; [| discriminate]. intros [= <-]. cbn [available allocated].
    assert (Hav : av !! ip = None).
    { destruct (av !! ip) eqn:Hav; [| reflexivity].
      rewrite (Hd ip) in Hal by eauto. discriminate. }
    rewrite map_size_insert, Hav. rewrite map_size_delete, Hal.
    assert (size al <> 0%nat).
    { intros H0. apply map_size_empty_inv in H0. subst al. rewrite lookup_empty in Hal.
      discriminate. }
    split; do 2 f_equal; lia.
Qed.

Lemma AllocateIP_DeallocateIP_counts_witness :
  storage_disjoint (storage pool_one_host) /\
  exists nav nal,
    Storage.AvailableCount false (storage pool_one_host) = (inr nav, storage pool_one_host) /\
    Storage.AllocatedCount false (storage pool_one_host) = (inr nal, storage pool_one_host).
Proof.
  assert (H : storage_disjoint (storage pool_one_host)).
  { intros k _. apply lookup_empty. }
  split; [exact H |].
  destruct (AllocateIP_DeallocateIP_counts "10.0.0.1" "web" (storage pool_one_host) H)
    as (nav & nal & H1 & H2 & _).
  exists nav, nal. split; [exact H1 | exact H2].
Defined.

(** ** pool.go: address arithmetic *)

(** X4. [nextIP] on a 4-byte address is the successor modulo [2^32]: it carries
    from the last byte and the highest address wraps to 0.0.0.0. *)
Theorem nextIP_successor ip :
  ip4 ip ->
  ip4 (nextIP ip) /\
  (ipZ ip < 4294967295 -> ipZ (nextIP ip) = ipZ ip + 1) /\
  (ipZ ip = 4294967295 -> nextIP ip = [0; 0; 0; 0]).
Proof.
  intros Hip. destruct (nextIP_spec ip Hip) as [H4 HZ].
  pose proof (ipZ_range ip Hip) as Hr.
  split; [exact H4 |]. split.
  - intros Hlt. rewrite HZ. apply Z.mod_small. lia.
  - intros Hmax. apply ipZ_inj; [exact H4 | |].
    + exists 0, 0, 0, 0. unfold is_byte. split; [reflexivity | lia].
    + rewrite HZ, Hmax. reflexivity.
Qed.

Lemma nextIP_successor_witness :
  ip4 [10; 0; 255; 255] /\ ipZ (nextIP [10; 0; 255; 255]) = ipZ [10; 0; 255; 255] + 1.
Proof.
  assert (H : ip4 [10; 0; 255; 255]).
  { exists 10, 0, 255, 255. unfold is_byte. split; [reflexivity | lia]. }
  split; [exact H |].
  apply (proj1 (proj2 (nextIP_successor [10; 0; 255; 255] H))). vm_compute. reflexivity.
Defined.

(** ** pool.go: the alignment test *)

(** X5. A key passes step 7 of [AllocateCIDR] exactly when it is the
    dotted-quad text of an IPv4 address whose low [32 - p] bits are zero. *)
Theorem aligned_iff_low_bits_zero p s :
  0 <= p <= 32 ->
  aligned p s = true <->
  exists ip, ip4 ip /\ IP_String ip = s /\ ipZ ip mod 2 ^ (32 - p) = 0.
Proof.
  intros Hp. rewrite (aligned_spec p s Hp). fold (block_size p).
  split; intros (ip & Hip & Hs & H); exists ip; (split; [exact Hip |]; split; [exact Hs |]);
    apply (Mask_fixed_iff p ip Hp Hip); exact H.
Qed.

Lemma aligned_iff_low_bits_zero_witness :
  0 <= 30 <= 32 /\ aligned 30 "192.168.0.100" = true /\ aligned 30 "192.168.0.101" = false.
Proof.
  assert (Hp : 0 <= 30 <= 32) by lia.
  split; [exact Hp |]. split.
  - apply (proj2 (aligned_iff_low_bits_zero 30 "192.168.0.100" Hp)).
    exists [192; 168; 0; 100]. split.
    + exists 192, 168, 0, 100. unfold is_byte. split; [reflexivity | lia].
    + split; vm_compute; reflexivity.
  - vm_compute. reflexivity.
Defined.

(** ** pool.go: GetNextAvailableIP *)

(** X6. On an empty pool [GetNextAvailableIP] fails and changes nothing;
    otherwise it allocates the Available key that is least in the byte
    order of the texts, with the description given. *)
Theorem GetNextAvailableIP_least d g :
  (available (storage g) = ∅ ->
   GetNextAvailableIP false d g = Some (inl NoAvailableAddress, g)) /\
  (available (storage g) <> ∅ ->
   exists ip,
     is_Some (available (storage g) !! ip) /\
     (forall k, is_Some (available (storage g) !! k) -> String.le ip k) /\
     GetNextAvailableIP false d g
     = Some (inr ip,
             mkGuardian (mkStorage (delete ip (available (storage g)))
                                   (<[ip := d]> (allocated (storage g))))
                        (managedCIDRs g))).
Proof.
  destruct g as [[av al] reg]. cbn [storage available allocated managedCIDRs].
  unfold GetNextAvailableIP. msimpl. split.
  - intros ->. rewrite map_to_list_empty. reflexivity.
  - intros Hne.
    destruct (sort_Strings (map fst (map_to_list av))) as [| ip rest] eqn:Hs.
    + exfalso. apply Hne. apply map_size_empty_inv.
      rewrite <- available_keys_length, Hs. reflexivity.
    + assert (Hin : forall k, In k (ip :: rest) <-> is_Some (av !! k)).
      { intros k. rewrite <- Hs. apply available_keys_In. }
      pose proof (sort_Strings_Sorted (map fst (map_to_list av))) as Hsorted.
      rewrite Hs in Hsorted. apply StronglySorted_inv in Hsorted.
      destruct Hsorted as [_ Hmin]. rewrite Forall_forall in Hmin.
      exists ip. assert (Hip : is_Some (av !! ip)) by (apply Hin; left; reflexivity).
      split; [exact Hip |]. split.
      * intros k Hk. apply Hin in Hk. destruct Hk as [<- | Hk]; [reflexivity |].
        apply Hmin, list_elem_of_In, Hk.
      * unfold Storage.AllocateIP. cbn [ctx_Err available allocated storage managedCIDRs].
        destruct Hip as [v Hv]. rewrite Hv. reflexivity.
Qed.

Lemma GetNextAvailableIP_least_witness :
  available (storage pool_one_host) <> ∅ /\
  exists ip g1, GetNextAvailableIP false "web" pool_one_host = Some (inr ip, g1).
Proof.
  assert (H : available (storage pool_one_host) <> ∅) by apply map_non_empty_singleton.
  split; [exact H |].
  destruct (proj2 (GetNextAvailableIP_least "web" pool_one_host) H) as (ip & _ & _ & Hrun).
  eexists _, _. exact Hrun.
Defined.

(** ** pool.go: AddCIDR and RemoveCIDR on their own *)

(** [AddCIDR] of a text that is not registered, run. *)
Lemma AddCIDR_run fuel cidr d ip n p g :
  ParseCIDR cidr = Some (ip, n) ->
  block_net p n -> 1 <= p -> (Z.to_nat (block_size p) < fuel)%nat ->
  managedCIDRs g !! cidr = None ->
  AddCIDR fuel false cidr d g
  = Some (inr tt,
          mkGuardian
            (mkStorage (add_keys (block_strings p n) (allocated (storage g))
                                 (available (storage g)))
                       (allocated (storage g)))
            (<[cidr := mkCIDRInfo cidr d n]> (managedCIDRs g))).
Proof.
  intros Hparse Hn Hp1 Hfuel Hreg.
  unfold AddCIDR. rewrite Hparse. unfold cloneIP.
  rewrite (ParseCIDR_start _ _ _ Hparse).
  rewrite (bind_ok (check false) _ _ tt g) by reflexivity.
  rewrite (bind_ok registry _ _ (managedCIDRs g) g) by reflexivity.
  rewrite Hreg.
  erewrite bind_ok by (rewrite (walk_block p n Hn) by assumption; apply collect_list).
  erewrite bind_ok by apply AddCIDR_add_live.
  reflexivity.
Qed.

(** X7. On a live context, with fuel for the block and a CIDR text that is not
    registered, [AddCIDR] succeeds: it registers the text with its
    description, leaves Allocated alone, and makes Available exactly the
    keys that were Available or are texts of block addresses that are not
    Allocated.  The same call right after is refused as a duplicate and
    changes nothing. *)
Theorem AddCIDR_fresh fuel cidr d ip n g :
  ParseCIDR cidr = Some (ip, n) ->
  fuel_for fuel n ->
  managedCIDRs g !! cidr = None ->
  exists g1,
    AddCIDR fuel false cidr d g = Some (inr tt, g1) /\
    managedCIDRs g1 = <[cidr := mkCIDRInfo cidr d n]> (managedCIDRs g) /\
    allocated (storage g1) = allocated (storage g) /\
    (forall s, is_Some (available (storage g1) !! s) <->
               is_Some (available (storage g) !! s) \/
               (in_block n s /\ allocated (storage g) !! s = None)) /\
    forall d', AddCIDR fuel false cidr d' g1 = Some (inl (DuplicateCIDR cidr), g1).
Proof.
  intros Hparse (p & Hn & Hp1 & Hfuel) Hreg.
  eexists. split; [apply (AddCIDR_run fuel cidr d ip n p g); assumption |].
  split; [reflexivity | split; [reflexivity | split]].
  - intros s. cbn [storage available]. rewrite add_keys_lookup.
    rewrite (block_strings_spec p n Hn). reflexivity.
  - intros d'. unfold AddCIDR. rewrite Hparse. msimpl.
    rewrite lookup_insert_eq. reflexivity.
Qed.

Lemma AddCIDR_fresh_witness :
  ParseCIDR "10.0.0.0/30"
  = Some ((v4InV6Prefix ++ [10; 0; 0; 0])%list, mkIPNet [10; 0; 0; 0] [255; 255; 255; 252]) /\
  fuel_for 10 (mkIPNet [10; 0; 0; 0] [255; 255; 255; 252]) /\
  managedCIDRs empty_pool !! "10.0.0.0/30" = None /\
  exists g1, AddCIDR 10 false "10.0.0.0/30" "lab" empty_pool = Some (inr tt, g1).
Proof.
  assert (H3 : managedCIDRs empty_pool !! "10.0.0.0/30" = None) by apply lookup_empty.
  split; [exact slash30_net |]. split; [exact slash30_fuel |]. split; [exact H3 |].
  destruct (AddCIDR_fresh 10 "10.0.0.0/30" "lab" _ _ empty_pool slash30_net slash30_fuel H3)
    as (g1 & H & _).
  exists g1. exact H.
Defined.

(** Every 4-byte address is in a /0 network. *)
Lemma Contains_slash0 n ip : block_net 0 n -> ip4 ip -> Contains n ip = true.
Proof.
  intros Hn Hip. apply (Contains_spec 0 n ip Hn Hip).
  destruct Hn as (_ & _ & Hb & Hmod). pose proof (ipZ_range _ Hb) as Hr.
  pose proof (ipZ_range _ Hip) as Hr'.
  change (block_size 0) with 4294967296 in *.
  rewrite Z.mod_small in Hmod by lia. lia.
Qed.

(** A walk over a /0 network whose body always succeeds uses up any fuel. *)
Lemma walk_slash0_None {A} n (body : IP -> A -> M A) :
  block_net 0 n ->
  (forall ip a g, exists a' g', body ip a g = Some (inr a', g')) ->
  forall (fuel : nat) ip a g, ip4 ip -> walk fuel n ip body a g = None.
Proof.
  intros Hn Hbody fuel. induction fuel as [| fuel IH]; intros ip a g Hip; [reflexivity |].
  cbn [walk]. rewrite (Contains_slash0 n ip Hn Hip).
  destruct (Hbody ip a g) as (a' & g' & Hb).
  rewrite (bind_ok _ _ _ _ _ Hb). apply IH, nextIP_spec, Hip.
Qed.

Lemma ParseCIDR_slash0 cidr ip n :
  ParseCIDR cidr = Some (ip, n) -> IPNet_Mask n = CIDRMask 0 32 -> block_net 0 n.
Proof.
  intros Hparse Hmask. destruct (ParseCIDR_inv _ _ _ Hparse) as (p & a & Hp & Ha & -> & ->).
  cbn [IPNet_Mask IPNet_IP] in *. unfold block_net. cbn [IPNet_Mask IPNet_IP].
  split; [lia |]. split; [exact Hmask |]. rewrite Hmask.
  split; [apply Mask_spec; [lia | exact Ha] | apply Mask_aligned; [lia | exact Ha]].
Qed.

(** X8. For a CIDR of prefix length 0 the block walk of [AddCIDR] and of
    [ExpandPool] wraps from 255.255.255.255 to 0.0.0.0 and never leaves the
    block: on a live context neither call returns, whatever the fuel. *)
Theorem AddCIDR_slash0_never_returns cidr ip n :
  ParseCIDR cidr = Some (ip, n) ->
  IPNet_Mask n = CIDRMask 0 32 ->
  forall fuel d g,
    (managedCIDRs g !! cidr = None -> AddCIDR fuel false cidr d g = None) /\
    ExpandPool fuel false cidr g = None.
Proof.
  intros Hparse Hmask fuel d g.
  pose proof (ParseCIDR_slash0 _ _ _ Hparse Hmask) as Hn.
  assert (Hb : ip4 (IPNet_IP n)) by apply Hn.
  split.
  - intros Hreg. unfold AddCIDR. rewrite Hparse. unfold cloneIP.
    rewrite (ParseCIDR_start _ _ _ Hparse).
    rewrite (bind_ok (check false) _ _ tt g) by reflexivity.
    rewrite (bind_ok registry _ _ (managedCIDRs g) g) by reflexivity.
    rewrite Hreg. unfold mbind at 1, M_bind at 1.
    rewrite (walk_slash0_None n AddCIDR_collect Hn); [reflexivity | | exact Hb].
    intros ip' a g'. eexists _, _. reflexivity.
  - unfold ExpandPool. rewrite Hparse. unfold cloneIP.
    rewrite (block_net_start 0 n Hn). unfold mbind at 1, M_bind at 1.
    rewrite (walk_slash0_None n (ExpandPool_body false) Hn); [reflexivity | | exact Hb].
    intros ip' [] g'. eexists _, _. apply ExpandPool_body_live.
Qed.

Lemma AddCIDR_slash0_never_returns_witness :
  ParseCIDR "0.0.0.0/0"
  = Some ((v4InV6Prefix ++ [0; 0; 0; 0])%list, mkIPNet [0; 0; 0; 0] [0; 0; 0; 0]) /\
  IPNet_Mask (mkIPNet [0; 0; 0; 0] [0; 0; 0; 0]) = CIDRMask 0 32 /\
  ExpandPool 1000 false "0.0.0.0/0" empty_pool = None.
Proof.
  assert (H1 : ParseCIDR "0.0.0.0/0"
               = Some ((v4InV6Prefix ++ [0; 0; 0; 0])%list, mkIPNet [0; 0; 0; 0] [0; 0; 0; 0]))
    by (vm_compute; reflexivity).
  assert (H2 : IPNet_Mask (mkIPNet [0; 0; 0; 0] [0; 0; 0; 0]) = CIDRMask 0 32)
    by (vm_compute; reflexivity).
  split; [exact H1 |]. split; [exact H2 |].
  exact (proj2 (AddCIDR_slash0_never_returns _ _ _ H1 H2 1000%nat ""%string empty_pool)).
Defined.

(** X9. On a live context, with fuel for the block, [RemoveCIDR] of a
    registered text succeeds: the text leaves the registry, Allocated is
    unchanged, and the texts of the block's addresses leave Available,
    whoever made them Available. *)
Theorem RemoveCIDR_registered fuel cidr info g :
  managedCIDRs g !! cidr = Some info ->
  fuel_for fuel (IPNet_of info) ->
  exists g1,
    RemoveCIDR fuel false cidr g = Some (inr tt, g1) /\
    managedCIDRs g1 = delete cidr (managedCIDRs g) /\
    allocated (storage g1) = allocated (storage g) /\
    (forall s, is_Some (available (storage g1) !! s) <->
               is_Some (available (storage g) !! s) /\ ~ in_block (IPNet_of info) s) /\
    forall ctx, RemoveCIDR fuel ctx cidr g1 = Some (inl (NotManaged cidr), g1).
Proof.
  intros Hreg (p & Hn & Hp1 & Hfuel).
  exists (mkGuardian
            (mkStorage (del_keys (block_strings p (IPNet_of info)) (available (storage g)))
                       (allocated (storage g)))
            (delete cidr (managedCIDRs g))).
  split; [| split; [reflexivity | split; [reflexivity | split]]].
  - unfold RemoveCIDR, removeCIDRWithoutLock.
    rewrite (bind_ok registry _ _ (managedCIDRs g) g) by reflexivity.
    rewrite Hreg. unfold cloneIP. rewrite (block_net_start p _ Hn).
    erewrite bind_ok by (rewrite (walk_block p _ Hn) by assumption; apply removeCIDR_list).
    reflexivity.
  - intros s. cbn [storage available]. rewrite del_keys_lookup.
    rewrite (block_strings_spec p _ Hn). reflexivity.
  - intros ctx. unfold RemoveCIDR, removeCIDRWithoutLock. msimpl.
    rewrite lookup_delete_eq. reflexivity.
Qed.

Lemma RemoveCIDR_registered_witness :
  is_Some (managedCIDRs pool_registered !! "10.0.0.0/30") /\
  fuel_for 10 (mkIPNet [10; 0; 0; 0] [255; 255; 255; 252]) /\
  exists g1, RemoveCIDR 10 false "10.0.0.0/30" pool_registered = Some (inr tt, g1).
Proof.
  assert (H1 : managedCIDRs pool_registered !! "10.0.0.0/30"
               = Some (mkCIDRInfo "10.0.0.0/30" "初始 CIDR"
                                  (mkIPNet [10; 0; 0; 0] [255; 255; 255; 252])))
    by (vm_compute; reflexivity).
  split; [rewrite H1; eauto |]. split; [exact slash30_fuel |].
  destruct (RemoveCIDR_registered 10 "10.0.0.0/30" _ pool_registered H1 slash30_fuel)
    as (g1 & H & _).
  exists g1. exact H.
Defined.

(** ** pool.go: a cancelled context *)

(** X10. On a cancelled context every engine call that checks the context
    before its first change returns the context's error and leaves the
    engine as it was; for the calls that walk a block, the check of the
    first step does so.  ([RemoveCIDR] needs its text registered and
    [ExpandPool] and [AddSingleIP] need a text that parses: their other
    errors come before the check.) *)
Theorem cancelled_context_changes_nothing fuel g :
  (forall cidr d, AddCIDR fuel true cidr d g = Some (inl Cancelled, g)) /\
  (forall cidr info p, managedCIDRs g !! cidr = Some info -> block_net p (IPNet_of info) ->
     RemoveCIDR (S fuel) true cidr g = Some (inl Cancelled, g)) /\
  (forall cidr ip n, ParseCIDR cidr = Some (ip, n) ->
     ExpandPool (S fuel) true cidr g = Some (inl Cancelled, g)) /\
  (forall a, ip4 a -> AddSingleIP true (IP_String a) g = Some (inl Cancelled, g)) /\
  (forall ip, RemoveSingleIP true ip g = Some (inl Cancelled, g)) /\
  (forall ip d, AllocateIP true ip d g = Some (inl Cancelled, g)) /\
  (forall d, GetNextAvailableIP true d g = Some (inl Cancelled, g)) /\
  (forall p d, AllocateCIDR true p d g = Some (inl Cancelled, g)) /\
  (forall ip, ReleaseIP true ip g = Some (inl Cancelled, g)) /\
  (forall cidr, ReleaseCIDR fuel true cidr g = Some (inl Cancelled, g)) /\
  GetManagedCIDRs true g = Some (inl Cancelled, g) /\
  (forall range, GetUsedCIDRs_in range true g = Some (inl Cancelled, g)) /\
  AvailableCount true g = Some (inl Cancelled, g) /\
  AllocatedCount true g = Some (inl Cancelled, g).
Proof.
  destruct g as [[av al] reg].
  refine (conj _ (conj _ (conj _ (conj _ (conj _ (conj _ (conj _ (conj _ (conj _
         (conj _ (conj _ (conj _ (conj _ _))))))))))))); try reflexivity.
  - intros cidr info p Hreg Hn. cbn [managedCIDRs] in Hreg.
    unfold RemoveCIDR, removeCIDRWithoutLock.
    rewrite (bind_ok registry _ _ reg (mkGuardian (mkStorage av al) reg)) by reflexivity.
    rewrite Hreg. unfold cloneIP. rewrite (block_net_start p _ Hn).
    cbn [walk]. 
    assert (Hc : Contains (IPNet_of info) (IPNet_IP (IPNet_of info)) = true).
    { pose proof Hn as (Hp & _ & Hb & _). apply (Contains_spec p _ _ Hn Hb).
      pose proof (block_size_pos p Hp). lia. }
    rewrite Hc. reflexivity.
  - intros cidr ip n Hparse. destruct (ParseCIDR_block_net _ _ _ Hparse) as [p Hn].
    unfold ExpandPool. rewrite Hparse. unfold cloneIP. rewrite (block_net_start p _ Hn).
    cbn [walk].
    assert (Hc : Contains n (IPNet_IP n) = true).
    { pose proof Hn as (Hp & _ & Hb & _). apply (Contains_spec p _ _ Hn Hb).
      pose proof (block_size_pos p Hp). lia. }
    rewrite Hc. reflexivity.
  - intros a Ha. unfold AddSingleIP, ParseIP. rewrite (ParseAddr_IP_String a Ha). reflexivity.
Qed.

Lemma cancelled_context_changes_nothing_witness :
  is_Some (managedCIDRs pool_registered !! "10.0.0.0/30") /\
  block_net 30 (mkIPNet [10; 0; 0; 0] [255; 255; 255; 252]) /\
  RemoveCIDR 1 true "10.0.0.0/30" pool_registered = Some (inl Cancelled, pool_registered).
Proof.
  assert (H1 : managedCIDRs pool_registered !! "10.0.0.0/30"
               = Some (mkCIDRInfo "10.0.0.0/30" "初始 CIDR"
                                  (mkIPNet [10; 0; 0; 0] [255; 255; 255; 252])))
    by (vm_compute; reflexivity).
  split; [rewrite H1; eauto |]. split; [exact slash30_block_net |].
  exact (proj1 (proj2 (cancelled_context_changes_nothing 0 pool_registered))
           "10.0.0.0/30"%string _ 30 H1 slash30_block_net).
Defined.

(** ** pool.go: AllocateCIDR, forwards *)

Section Allocation.

Lemma IP_String_inj a b : ip4 a -> ip4 b -> IP_String a = IP_String b -> a = b.
Proof.
  intros Ha Hb Heq. pose proof (ParseAddr_IP_String a Ha) as H1.
  rewrite Heq, (ParseAddr_IP_String b Hb) in H1. congruence.
Qed.

Lemma block_list_length : forall (k : nat) ip, length (block_list k ip) = k.
Proof. induction k as [| k IH]; intros ip; [reflexivity |]. cbn [block_list length]. by rewrite IH. Qed.

Lemma block_list_NoDup : forall (k : nat) ip0,
  ip4 ip0 -> ipZ ip0 + Z.of_nat k <= 4294967296 -> NoDup (block_list k ip0).
Proof.
  induction k as [| k IH]; intros ip0 Hip Hk; [constructor |].
  cbn [block_list]. destruct k as [| k'].
  - constructor; [| constructor]. cbn [block_list]. intros Hin. by apply elem_of_nil in Hin.
  - destruct (nextIP_spec ip0 Hip) as [Hn4 HnZ].
    rewrite Z.mod_small in HnZ by (pose proof (ipZ_range ip0 Hip); lia).
    constructor.
    + rewrite (block_list_spec (S k') (nextIP ip0) Hn4) by lia. lia.
    + apply IH; [exact Hn4 | lia].
Qed.

Lemma block_ips_ip4 p n : block_net p n -> Forall ip4 (block_ips p n).
Proof.
  intros Hn. apply Forall_forall. intros ip Hin.
  by apply (block_ips_spec p n Hn) in Hin as [? _].
Qed.

Lemma block_end_le p n : block_net p n -> ipZ (IPNet_IP n) + block_size p <= 4294967296.
Proof. intros Hn. exact (block_end p n Hn). Qed.

Lemma block_strings_NoDup p n : block_net p n -> NoDup (block_strings p n).
Proof.
  intros Hn. unfold block_strings. apply (NoDup_fmap_2_strong IP_String).
  - intros a b Ha Hb. apply IP_String_inj.
    + by apply (block_ips_spec p n Hn) in Ha as [? _].
    + by apply (block_ips_spec p n Hn) in Hb as [? _].
  - unfold block_ips. pose proof Hn as (Hp & _ & Hb & _).
    apply block_list_NoDup; [exact Hb |].
    rewrite Z2Nat.id by (pose proof (block_size_pos p Hp); lia).
    apply (block_end_le p n Hn).
Qed.

Lemma block_strings_length p n : length (block_strings p n) = Z.to_nat (block_size p).
Proof. unfold block_strings, block_ips. by rewrite length_map, block_list_length. Qed.

Lemma del_keys_cons k ks (av : gmap string bool) :
  del_keys (k :: ks) av = del_keys ks (delete k av).
Proof. reflexivity. Qed.

Lemma del_keys_lookup_in ks : forall (av : gmap string bool) k,
  k ∈ ks -> del_keys ks av !! k = None.
Proof.
  induction ks as [| x ks IH]; intros av k Hin; [by apply elem_of_nil in Hin |].
  rewrite del_keys_cons. destruct (decide (k ∈ ks)) as [Hk | Hk]; [by apply IH |].
  apply elem_of_cons in Hin as [-> | Hin]; [| contradiction].
  destruct (del_keys ks (delete x av) !! x) eqn:E; [| reflexivity].
  assert (Hs : is_Some (del_keys ks (delete x av) !! x)) by eauto.
  apply del_keys_lookup in Hs as [[v Hv] _]. rewrite lookup_delete_eq in Hv. discriminate.
Qed.

Lemma del_keys_lookup_out ks : forall (av : gmap string bool) k,
  k ∉ ks -> del_keys ks av !! k = av !! k.
Proof.
  induction ks as [| x ks IH]; intros av k Hin; [reflexivity |].
  rewrite del_keys_cons. apply not_elem_of_cons in Hin as [Hne Hin].
  rewrite IH by exact Hin. by apply lookup_delete_ne.
Qed.

Lemma del_keys_size ks : forall (av : gmap string bool),
  NoDup ks -> (forall k, k ∈ ks -> is_Some (av !! k)) ->
  (size (del_keys ks av) + length ks = size av)%nat.
Proof.
  induction ks as [| x ks IH]; intros av Hnd Hall; [cbn; lia |].
  rewrite del_keys_cons. apply NoDup_cons in Hnd as [Hx Hnd].
  cbn [length].
  assert (IH' : (size (del_keys ks (delete x av)) + length ks = size (delete x av))%nat).
  { apply IH; [exact Hnd |]. intros k Hk.
    rewrite lookup_delete_ne; [apply Hall; apply elem_of_cons; by right |].
    intros ->. contradiction. }
  rewrite map_size_delete in IH'. destruct (Hall x) as [v Hv]; [apply elem_of_cons; by left |].
  rewrite Hv in IH'. assert (size av <> 0%nat).
  { intros H0. apply map_size_empty_inv in H0. subst av. by rewrite lookup_empty in Hv. }
  lia.
Qed.

Lemma bind_cong {A B} (m m' : M A) (k k' : A -> M B) g :
  m g = m' g -> (forall a g1, k a g1 = k' a g1) -> (m ≫= k) g = (m' ≫= k') g.
Proof.
  intros Hm Hk. unfold mbind, M_bind. rewrite Hm.
  destruct (m' g) as [[[e | a] g1] |]; auto.
Qed.

(** Step 10 stops at the first address of the walk that is not Available. *)
Lemma AllocateCIDR_check_stops ips : forall g,
  Exists (fun ip => available (storage g) !! IP_String ip = None) ips ->
  exists ip, ip ∈ ips /\ available (storage g) !! IP_String ip = None /\
    walk_list ips (fun ip _ => AllocateCIDR_check false ip) tt g
    = Some (inl (BlockAddressUnavailable (IP_String ip)), g).
Proof.
  induction ips as [| ip ips IH]; intros g Hex; [by apply Exists_nil in Hex |].
  destruct (available (storage g) !! IP_String ip) eqn:Hav.
  - apply Exists_cons in Hex as [Hex | Hex]; [congruence |].
    destruct (IH g Hex) as (ip' & Hin & Hnone & Hw).
    exists ip'. split; [apply elem_of_cons; by right |]. split; [exact Hnone |].
    cbn [walk_list]. rewrite (bind_ok _ _ _ tt g); [exact Hw |].
    apply AllocateCIDR_check_ok. eauto.
  - exists ip. split; [apply elem_of_cons; by left |]. split; [exact Hav |].
    cbn [walk_list]. apply bind_err. unfold AllocateCIDR_check.
    destruct g as [[av al] reg]. cbn [storage available] in Hav.
    unfold mbind, M_bind, on_storage, Storage.IsIPAvailable.
    cbn [ctx_Err storage available managedCIDRs]. rewrite Hav.
    rewrite bool_decide_eq_false_2; [reflexivity |]. by intros [? [=]].
Qed.

(** Step 12 removes every key of the walk but the start, when the keys are
    distinct and Available. *)
Lemma AllocateCIDR_remove_list startIP ips : forall g,
  NoDup (map IP_String ips) ->
  (forall ip, ip ∈ ips -> IP_String ip <> startIP ->
              is_Some (available (storage g) !! IP_String ip)) ->
  walk_list ips (fun ip _ => AllocateCIDR_remove false startIP ip) tt g
  = Some (inr tt, with_available g
            (del_keys (List.filter (fun s => negb (String.eqb s startIP)) (map IP_String ips))
                      (available (storage g)))).
Proof.
  induction ips as [| ip ips IH]; intros g Hnd Hall.
  - cbn. by rewrite with_available_id.
  - cbn [map] in Hnd. apply NoDup_cons in Hnd as [Hx Hnd].
    cbn [walk_list map List.filter].
    destruct (String.eqb (IP_String ip) startIP) eqn:Heq; cbn [negb].
    + rewrite (bind_ok _ _ _ tt g).
      * apply IH; [exact Hnd |]. intros a Ha. apply Hall, elem_of_cons. by right.
      * unfold AllocateCIDR_remove. by rewrite Heq.
    + apply String.eqb_neq in Heq as Hne.
      destruct (Hall ip) as [v Hv]; [apply elem_of_cons; by left | exact Hne |].
      rewrite (bind_ok _ _ _ tt
                 (with_available g (delete (IP_String ip) (available (storage g))))).
      * rewrite IH; [| exact Hnd |].
        -- rewrite with_available_twice. reflexivity.
        -- intros a Ha Hna. cbn [with_available storage available].
           rewrite lookup_delete_ne.
           ++ apply Hall; [apply elem_of_cons; by right | exact Hna].
           ++ intros Heq'. apply Hx. rewrite Heq'. apply list_elem_of_fmap. eauto.
      * unfold AllocateCIDR_remove. rewrite Heq.
        destruct g as [[av al] reg]. cbn [storage available] in Hv.
        unfold mbind, M_bind, attempt, on_storage, Storage.RemoveIP.
        cbn [ctx_Err storage available managedCIDRs allocated]. rewrite Hv. reflexivity.
Qed.

(** [AllocateCIDR] from step 9 on, for the start it chose. *)
Lemma AllocateCIDR_from_start p d g startIP rest :
  0 <= p <= 32 ->
  block_size p <= Z.of_nat (size (available (storage g))) ->
  sort_Strings (List.filter (aligned p)
     (sort_Strings (sort_Strings (map fst (map_to_list (available (storage g)))))))
  = startIP :: rest ->
  exists ip,
    ip4 ip /\ IP_String ip = startIP /\ ipZ ip mod block_size p = 0 /\
    block_net p (mkIPNet ip (CIDRMask p 32)) /\
    is_Some (available (storage g) !! startIP) /\
    AllocateCIDR false p d g
    = (walk_list (block_ips p (mkIPNet ip (CIDRMask p 32)))
                 (fun ip _ => AllocateCIDR_check false ip) tt;;
       on_storage (Storage.AllocateIP false startIP
                     ((startIP +:+ "/" +:+ itoa p) +:+ " - " +:+ d));;
       walk_list (block_ips p (mkIPNet ip (CIDRMask p 32)))
                 (fun ip _ => AllocateCIDR_remove false startIP ip) tt;;
       mret (startIP +:+ "/" +:+ itoa p)) g.
Proof.
  intros Hp Hcap Hs.
  assert (Hin : In startIP (startIP :: rest)) by (left; reflexivity).
  rewrite <- Hs in Hin. apply sort_Strings_In, filter_In in Hin. destruct Hin as [Hin Hal].
  apply sort_Strings_In, available_keys_In in Hin.
  apply aligned_spec in Hal; [| exact Hp]. destruct Hal as (ip & Hip & <- & Hm).
  exists ip.
  assert (Hmod : ipZ ip mod block_size p = 0) by (apply (Mask_fixed_iff p ip Hp Hip); exact Hm).
  assert (Hn : block_net p (mkIPNet ip (CIDRMask p 32))).
  { unfold block_net. cbn [IPNet_IP IPNet_Mask]. repeat split; auto; lia. }
  split; [exact Hip |]. split; [reflexivity |]. split; [exact Hmod |].
  split; [exact Hn |]. split; [exact Hin |].
  unfold AllocateCIDR.
  rewrite (bind_ok (check false) _ _ tt g) by reflexivity.
  assert (Hb : (p <? 0) || (32 <? p) = false).
  { apply orb_false_iff. split; apply Z.ltb_ge; lia. }
  rewrite Hb.
  rewrite (bind_ok (on_storage (Storage.GetAvailableIPs false)) _ _
             (sort_Strings (map fst (map_to_list (available (storage g))))) g)
    by (destruct g as [[av al] reg]; reflexivity).
  rewrite available_keys_length, shiftl_block_size by exact Hp.
  assert (Hc : (Z.of_nat (size (available (storage g))) <? block_size p) = false)
    by (apply Z.ltb_ge; lia).
  rewrite Hc, Hs.
  rewrite (ParseCIDR_IP_String ip p Hip Hp), Hm.
  unfold cloneIP. cbn [IPNet_IP].
  pose proof (fun body g => walk_counted_block p _ Hn body g) as Hwc. cbn [IPNet_IP] in Hwc.
  apply bind_cong; [apply Hwc |]. intros [] g1.
  apply bind_cong; [reflexivity |]. intros [] g2.
  apply bind_cong; [apply Hwc | reflexivity].
Qed.

Lemma start_in_block p ip :
  0 <= p <= 32 -> ip4 ip -> ipZ ip mod block_size p = 0 ->
  IP_String ip ∈ block_strings p (mkIPNet ip (CIDRMask p 32)).
Proof.
  intros Hp Hip Hmod.
  assert (Hn : block_net p (mkIPNet ip (CIDRMask p 32))).
  { unfold block_net. cbn [IPNet_IP IPNet_Mask]. repeat split; auto; lia. }
  apply (block_strings_spec p _ Hn). exists ip. split; [exact Hip |]. split; [| reflexivity].
  apply (Contains_spec p _ ip Hn Hip). cbn [IPNet_IP].
  pose proof (block_size_pos p Hp). lia.
Qed.

Lemma del_keys_but_start ks k0 (av : gmap string bool) :
  k0 ∈ ks ->
  del_keys (List.filter (fun s => negb (String.eqb s k0)) ks) (delete k0 av) = del_keys ks av.
Proof.
  intros Hk0. apply map_eq. intros k.
  assert (Hf : k ∈ List.filter (fun s => negb (String.eqb s k0)) ks <-> k ∈ ks /\ k <> k0).
  { rewrite (list_elem_of_In _ k), filter_In, <- list_elem_of_In, negb_true_iff.
    by rewrite String.eqb_neq. }
  destruct (decide (k ∈ ks)) as [Hin | Hout].
  - rewrite (del_keys_lookup_in ks av k Hin).
    destruct (decide (k = k0)) as [-> | Hne].
    + rewrite del_keys_lookup_out by (rewrite Hf; tauto). apply lookup_delete_eq.
    + apply del_keys_lookup_in, Hf. tauto.
  - rewrite (del_keys_lookup_out ks av k Hout), del_keys_lookup_out by (rewrite Hf; tauto).
    apply lookup_delete_ne. intros ->. contradiction.
Qed.

(** The two ways [AllocateCIDR] ends once it has chosen its start. *)
Lemma AllocateCIDR_outcome p d g startIP rest :
  0 <= p <= 32 ->
  block_size p <= Z.of_nat (size (available (storage g))) ->
  sort_Strings (List.filter (aligned p)
     (sort_Strings (sort_Strings (map fst (map_to_list (available (storage g)))))))
  = startIP :: rest ->
  exists ip,
    ip4 ip /\ IP_String ip = startIP /\ ipZ ip mod block_size p = 0 /\
    ((forall s, s ∈ block_strings p (mkIPNet ip (CIDRMask p 32)) ->
                is_Some (available (storage g) !! s)) ->
     AllocateCIDR false p d g
     = Some (inr (startIP +:+ "/" +:+ itoa p),
             mkGuardian
               (mkStorage
                  (del_keys (block_strings p (mkIPNet ip (CIDRMask p 32)))
                            (available (storage g)))
                  (<[startIP := (startIP +:+ "/" +:+ itoa p) +:+ " - " +:+ d]>
                     (allocated (storage g))))
               (managedCIDRs g))) /\
    ((exists s, s ∈ block_strings p (mkIPNet ip (CIDRMask p 32)) /\
                available (storage g) !! s = None) ->
     exists s, s ∈ block_strings p (mkIPNet ip (CIDRMask p 32)) /\
               available (storage g) !! s = None /\
               AllocateCIDR false p d g = Some (inl (BlockAddressUnavailable s), g)).
Proof.
  intros Hp Hcap Hs.
  destruct (AllocateCIDR_from_start p d g startIP rest Hp Hcap Hs)
    as (ip & Hip & Hstr & Hmod & Hn & Hav & Hrun).
  exists ip. split; [exact Hip |]. split; [exact Hstr |]. split; [exact Hmod |].
  set (n := mkIPNet ip (CIDRMask p 32)) in *.
  split.
  - intros Hall. rewrite Hrun.
    rewrite (bind_ok _ _ _ tt g).
    2:{ apply AllocateCIDR_check_list. apply Forall_forall. intros a Ha.
        apply Hall. unfold block_strings. apply list_elem_of_fmap. eauto. }
    destruct Hav as [v Hv].
    rewrite (bind_ok _ _ _ tt
               (mkGuardian (mkStorage (delete startIP (available (storage g)))
                                      (<[startIP := (startIP +:+ "/" +:+ itoa p) +:+ " - " +:+ d]>
                                         (allocated (storage g))))
                           (managedCIDRs g))).
    2:{ destruct g as [[av al] reg]. cbn [storage available] in Hv.
        unfold on_storage, Storage.AllocateIP. cbn [ctx_Err storage available]. by rewrite Hv. }
    erewrite bind_ok.
    2:{ apply AllocateCIDR_remove_list.
        - apply (block_strings_NoDup p n Hn).
        - intros a Ha Hne. cbn [storage available]. rewrite lookup_delete_ne by congruence.
          apply Hall. unfold block_strings. apply list_elem_of_fmap. eauto. }
    cbn [with_available storage available allocated managedCIDRs].
    fold (block_strings p n). rewrite del_keys_but_start; [reflexivity |].
    rewrite <- Hstr. apply start_in_block; assumption.
  - intros (s & Hin & Hnone). rewrite Hrun.
    destruct (AllocateCIDR_check_stops (block_ips p n) g) as (a & Ha & Hna & Hw).
    { unfold block_strings in Hin. apply list_elem_of_fmap in Hin as (a & -> & Ha).
      apply Exists_exists. eauto. }
    exists (IP_String a). split; [unfold block_strings; apply list_elem_of_fmap; eauto |].
    split; [exact Hna |]. by apply bind_err.
Qed.



(** X12. With enough Available keys, [AllocateCIDR] considers one block only:
    the one starting at the /p-aligned Available address whose text is
    least in byte order.  When every address of that block is Available
    the block is allocated: its keys leave Available and the start is
    Allocated with description "<cidr> - <d>".  When one is not, the call
    fails and changes nothing, even if another aligned block is free. *)
Theorem AllocateCIDR_first_candidate p d g ip :
  0 <= p <= 32 ->
  block_size p <= Z.of_nat (size (available (storage g))) ->
  ip4 ip -> ipZ ip mod block_size p = 0 ->
  is_Some (available (storage g) !! IP_String ip) ->
  (forall ip', ip4 ip' -> ipZ ip' mod block_size p = 0 ->
               is_Some (available (storage g) !! IP_String ip') ->
               String.le (IP_String ip) (IP_String ip')) ->
  ((forall s, in_block (mkIPNet ip (CIDRMask p 32)) s ->
              is_Some (available (storage g) !! s)) ->
   exists g1,
     AllocateCIDR false p d g = Some (inr (IP_String ip +:+ "/" +:+ itoa p), g1) /\
     managedCIDRs g1 = managedCIDRs g /\
     allocated (storage g1)
     = <[IP_String ip := (IP_String ip +:+ "/" +:+ itoa p) +:+ " - " +:+ d]>
         (allocated (storage g)) /\
     (forall s, in_block (mkIPNet ip (CIDRMask p 32)) s ->
                available (storage g1) !! s = None) /\
     (forall s, ~ in_block (mkIPNet ip (CIDRMask p 32)) s ->
                available (storage g1) !! s = available (storage g) !! s)) /\
  ((exists s, in_block (mkIPNet ip (CIDRMask p 32)) s /\
              available (storage g) !! s = None) ->
   exists s, in_block (mkIPNet ip (CIDRMask p 32)) s /\
             available (storage g) !! s = None /\
             AllocateCIDR false p d g = Some (inl (BlockAddressUnavailable s), g)).
Proof.
  intros Hp Hcap Hip Hmod Hav Hleast.
  remember (sort_Strings (List.filter (aligned p)
     (sort_Strings (sort_Strings (map fst (map_to_list (available (storage g)))))))) as cands
    eqn:Hs.
  assert (Hcand : forall s, In s cands <->
            exists a, ip4 a /\ IP_String a = s /\ ipZ a mod block_size p = 0 /\
                      is_Some (available (storage g) !! s)).
  { intros s. rewrite Hs.
    rewrite sort_Strings_In, filter_In, sort_Strings_In, available_keys_In.
    rewrite (aligned_spec p s Hp). split.
    - intros (Hsa & a & Ha & Hsa' & Hm). exists a. repeat split; auto.
      by apply (Mask_fixed_iff p a Hp Ha).
    - intros (a & Ha & Hsa & Hm & Hsa'). split; [exact Hsa' |]. exists a. repeat split; auto.
      by apply (Mask_fixed_iff p a Hp Ha). }
  assert (Hso : StronglySorted String.le cands) by (rewrite Hs; apply sort_Strings_Sorted).
  assert (Hin : In (IP_String ip) cands) by (apply Hcand; eauto 6).
  destruct cands as [| startIP rest]; [destruct Hin |].
  assert (Hstart : startIP = IP_String ip).
  { apply (anti_symm String.le).
    - apply StronglySorted_inv in Hso as [_ Hmin].
      destruct Hin as [-> | Hin]; [reflexivity |].
      rewrite Forall_forall in Hmin. apply Hmin, list_elem_of_In, Hin.
    - assert (H0 : In startIP (startIP :: rest)) by (left; reflexivity).
      apply Hcand in H0 as (a & Ha & <- & Hm & Hsa).
      apply Hleast; assumption. }
  subst startIP. symmetry in Hs.
  destruct (AllocateCIDR_outcome p d g _ rest Hp Hcap Hs)
    as (ip' & Hip' & Hstr & Hmod' & Hok & Hbad).
  apply IP_String_inj in Hstr; [| assumption..]. subst ip'.
  assert (Hn : block_net p (mkIPNet ip (CIDRMask p 32))).
  { unfold block_net. cbn [IPNet_IP IPNet_Mask]. repeat split; auto; lia. }
  split.
  - intros Hall. eexists. split; [apply Hok |].
    + intros s Hin'. apply Hall, (block_strings_spec p _ Hn), Hin'.
    + cbn [storage available allocated managedCIDRs].
      split; [reflexivity |]. split; [reflexivity |]. split.
      * intros s Hin'. apply del_keys_lookup_in, (block_strings_spec p _ Hn), Hin'.
      * intros s Hout. apply del_keys_lookup_out. by rewrite (block_strings_spec p _ Hn).
  - intros (s & Hin' & Hnone).
    destruct Hbad as (s' & Hin'' & Hnone' & Hrun).
    { exists s. split; [apply (block_strings_spec p _ Hn), Hin' | exact Hnone]. }
    exists s'. split; [apply (block_strings_spec p _ Hn), Hin'' |]. auto.
Qed.

(** X13. A successful [AllocateCIDR] of prefix length [p] takes [2^(32-p)] keys
    out of Available and, on a storage whose sets are disjoint, puts one
    key into Allocated: the two counts do not add up to what they were. *)
Theorem AllocateCIDR_counts p d g c g1 :
  storage_disjoint (storage g) ->
  AllocateCIDR false p d g = Some (inr c, g1) ->
  exists nav nal,
    AvailableCount false g = Some (inr nav, g) /\
    AllocatedCount false g = Some (inr nal, g) /\
    AvailableCount false g1 = Some (inr (nav - block_size p), g1) /\
    AllocatedCount false g1 = Some (inr (nal + 1), g1).
Proof.
  intros Hdisj Halloc.
  destruct (AllocateCIDR_success _ _ _ _ _ Halloc)
    as (Hp & ip & Hip & Hm & Hc & Havail & Hg1).
  assert (Hmod : ipZ ip mod block_size p = 0) by (by apply (Mask_fixed_iff p ip Hp Hip)).
  assert (Hn : block_net p (mkIPNet ip (CIDRMask p 32))).
  { unfold block_net. cbn [IPNet_IP IPNet_Mask]. repeat split; auto; lia. }
  pose proof (start_in_block p ip Hp Hip Hmod) as Hstart.
  rewrite del_keys_but_start in Hg1 by exact Hstart.
  exists (Z.of_nat (size (available (storage g)))), (Z.of_nat (size (allocated (storage g)))).
  split; [apply AvailableCount_live |]. split; [apply AllocatedCount_live |].
  rewrite AvailableCount_live, AllocatedCount_live. subst g1.
  cbn [storage available allocated]. split; do 3 f_equal.
  - pose proof (del_keys_size _ (available (storage g)) (block_strings_NoDup p _ Hn) Havail)
      as Hsz.
    rewrite block_strings_length in Hsz. pose proof (block_size_pos p Hp). lia.
  - rewrite map_size_insert, (Hdisj _ (Havail _ Hstart)). lia.
Qed.

End Allocation.

Lemma two_free_keys k :
  is_Some (available (storage pool_two_free) !! k) -> k = "10.0.0.0"%string \/ k = "10.0.0.1"%string.
Proof.
  unfold pool_two_free. cbn [storage available list_to_map foldr fst snd].
  intros [v Hv]. apply lookup_insert_Some in Hv as [[<- _] | [_ Hv]]; [by left |].
  apply lookup_insert_Some in Hv as [[<- _] | [_ Hv]]; [by right |].
  by rewrite lookup_empty in Hv.
Qed.

Lemma AllocateCIDR_first_candidate_witness :
  0 <= 31 <= 32 /\
  block_size 31 <= Z.of_nat (size (available (storage pool_two_free))) /\
  ip4 [10; 0; 0; 0] /\
  is_Some (available (storage pool_two_free) !! IP_String [10; 0; 0; 0]) /\
  exists g1, AllocateCIDR false 31 "db" pool_two_free = Some (inr "10.0.0.0/31"%string, g1).
Proof.
  assert (Hp : 0 <= 31 <= 32) by lia.
  assert (Hcap : block_size 31 <= Z.of_nat (size (available (storage pool_two_free))))
    by (vm_compute; discriminate).
  assert (Hip : ip4 [10; 0; 0; 0]).
  { exists 10, 0, 0, 0. unfold is_byte. split; [reflexivity | lia]. }
  assert (Hmod : ipZ [10; 0; 0; 0] mod block_size 31 = 0) by (vm_compute; reflexivity).
  assert (Hav : is_Some (available (storage pool_two_free) !! IP_String [10; 0; 0; 0])).
  { exists true. vm_compute. reflexivity. }
  assert (Hleast : forall ip', ip4 ip' -> ipZ ip' mod block_size 31 = 0 ->
            is_Some (available (storage pool_two_free) !! IP_String ip') ->
            String.le (IP_String [10; 0; 0; 0]) (IP_String ip')).
  { intros ip' _ _ Hk. apply two_free_keys in Hk as [-> | ->]; vm_compute; exact I. }
  assert (Hall : forall s, in_block (mkIPNet [10; 0; 0; 0] (CIDRMask 31 32)) s ->
            is_Some (available (storage pool_two_free) !! s)).
  { intros s Hs. apply (block_strings_spec 31 _ slash31_block_net) in Hs.
    vm_compute in Hs. apply elem_of_cons in Hs as [-> | Hs]; [exists true; vm_compute; reflexivity |].
    apply elem_of_cons in Hs as [-> | Hs]; [exists true; vm_compute; reflexivity |].
    by apply elem_of_nil in Hs. }
  split; [exact Hp |]. split; [exact Hcap |]. split; [exact Hip |]. split; [exact Hav |].
  destruct (proj1 (AllocateCIDR_first_candidate 31 "db" pool_two_free [10; 0; 0; 0]
                     Hp Hcap Hip Hmod Hav Hleast) Hall) as (g1 & Hrun & _).
  exists g1. exact Hrun.
Defined.

Lemma AllocateCIDR_counts_witness :
  storage_disjoint (storage pool_two_free) /\
  AllocateCIDR false 31 "db" pool_two_free = Some (inr "10.0.0.0/31"%string, pool_two_free_31) /\
  exists nav nal,
    AvailableCount false pool_two_free = Some (inr nav, pool_two_free) /\
    AllocatedCount false pool_two_free = Some (inr nal, pool_two_free) /\
    AvailableCount false pool_two_free_31 = Some (inr (nav - block_size 31), pool_two_free_31) /\
    AllocatedCount false pool_two_free_31 = Some (inr (nal + 1), pool_two_free_31).
Proof.
  assert (Hd : storage_disjoint (storage pool_two_free)).
  { intros k _. apply lookup_empty. }
  assert (Hrun : AllocateCIDR false 31 "db" pool_two_free
                 = Some (inr "10.0.0.0/31"%string, pool_two_free_31))
    by (vm_compute; reflexivity).
  split; [exact Hd |]. split; [exact Hrun |].
  exact (AllocateCIDR_counts 31 "db" _ _ _ Hd Hrun).
Defined.

(** ** pool.go: ReleaseCIDR and ExpandPool on their own *)

(** X14. On a live context and with fuel for the block, [ReleaseCIDR] succeeds
    as soon as the network address of the text is an Allocated key,
    whatever its description.  That key moves from Allocated to Available;
    besides it, the keys made Available are the texts of the block's
    addresses that lie in a registered CIDR and are not Allocated.  Other
    Allocated keys of the block stay Allocated, and the registry is
    unchanged. *)
Theorem ReleaseCIDR_allocated fuel cidr ip n desc g :
  ParseCIDR cidr = Some (ip, n) ->
  fuel_for fuel n ->
  allocated (storage g) !! IP_String (IPNet_IP n) = Some desc ->
  exists g1,
    ReleaseCIDR fuel false cidr g = Some (inr tt, g1) /\
    managedCIDRs g1 = managedCIDRs g /\
    allocated (storage g1) = delete (IP_String (IPNet_IP n)) (allocated (storage g)) /\
    forall s, is_Some (available (storage g1) !! s) <->
      is_Some (available (storage g) !! s) \/
      s = IP_String (IPNet_IP n) \/
      (exists a, ip4 a /\ Contains n a = true /\ IP_String a = s /\
                 inManagedRange (managedCIDRs g) a = true /\
                 allocated (storage g) !! s = None).
Proof.
  intros Hparse (p & Hn & Hp1 & Hfuel) Hal.
  destruct g as [[av al] reg]. cbn [storage available allocated managedCIDRs] in *.
  set (a := IP_String (IPNet_IP n)) in *.
  set (ks := map IP_String (List.filter (inManagedRange reg) (block_ips p n))).
  exists (mkGuardian (mkStorage (<[a := true]> (add_keys ks al av)) (delete a al)) reg).
  split; [| split; [reflexivity | split; [reflexivity |]]].
  - unfold ReleaseCIDR. rewrite Hparse. unfold cloneIP.
    rewrite (block_net_start p n Hn). fold a.
    rewrite (bind_ok (check false) _ _ tt (mkGuardian (mkStorage av al) reg)) by reflexivity.
    rewrite (bind_ok (on_storage (Storage.GetAllocatedIPs false)) _ _ al
               (mkGuardian (mkStorage av al) reg)) by reflexivity.
    replace (al !! a) with (Some desc) by (symmetry; exact Hal).
    erewrite bind_ok.
    2:{ rewrite (walk_block p n Hn) by assumption.
        apply (ReleaseCIDR_list (block_ips p n) (mkGuardian (mkStorage av al) reg)). }
    cbn [managedCIDRs storage allocated available with_available]. fold ks.
    unfold on_storage, Storage.DeallocateIP. cbn [ctx_Err storage allocated available managedCIDRs].
    replace (al !! a) with (Some desc) by (symmetry; exact Hal). reflexivity.
  - intros s. cbn [storage available].
    assert (Hks : s ∈ ks <-> exists x, ip4 x /\ Contains n x = true /\ IP_String x = s /\
                                       inManagedRange reg x = true).
    { unfold ks. rewrite list_elem_of_fmap. split.
      - intros (x & -> & Hx). apply list_elem_of_In, filter_In in Hx as [Hx Hm].
        apply list_elem_of_In, (block_ips_spec p n Hn) in Hx as [Hx4 Hxc]. eauto 6.
      - intros (x & Hx4 & Hxc & <- & Hm). exists x. split; [reflexivity |].
        apply list_elem_of_In, filter_In. split; [| exact Hm].
        apply list_elem_of_In, (block_ips_spec p n Hn). auto. }
    destruct (decide (s = a)) as [-> | Hne].
    + rewrite lookup_insert_eq. split; [auto | eauto].
    + rewrite lookup_insert_ne by congruence. rewrite add_keys_lookup, Hks. split.
      * intros [H | [(x & H1 & H2 & H3 & H4) H5]]; [by left |]. right. right. eauto 8.
      * intros [H | [H | (x & H1 & H2 & H3 & H4 & H5)]]; [by left | contradiction |].
        right. eauto 8.
Qed.

Lemma ReleaseCIDR_allocated_witness :
  ParseCIDR "10.0.0.0/30"
  = Some ((v4InV6Prefix ++ [10; 0; 0; 0])%list, mkIPNet [10; 0; 0; 0] [255; 255; 255; 252]) /\
  fuel_for 10 (mkIPNet [10; 0; 0; 0] [255; 255; 255; 252]) /\
  allocated (storage pool_used) !! "10.0.0.0" = Some "10.0.0.0/30 - web"%string /\
  exists g1, ReleaseCIDR 10 false "10.0.0.0/30" pool_used = Some (inr tt, g1).
Proof.
  assert (Hal : allocated (storage pool_used)
                  !! IP_String (IPNet_IP (mkIPNet [10; 0; 0; 0] [255; 255; 255; 252]))
                = Some "10.0.0.0/30 - web"%string) by (vm_compute; reflexivity).
  split; [exact slash30_net |]. split; [exact slash30_fuel |].
  split; [vm_compute; reflexivity |].
  destruct (ReleaseCIDR_allocated 10 "10.0.0.0/30" _ _ _ pool_used slash30_net slash30_fuel Hal)
    as (g1 & H & _).
  exists g1. exact H.
Defined.

Section AddKeys.

Lemma add_keys_cons k ks al (av : gmap string bool) :
  add_keys (k :: ks) al av
  = add_keys ks al (match al !! k with None => <[k := true]> av | Some _ => av end).
Proof. reflexivity. Qed.

Lemma add_keys_lookup_out ks al : forall (av : gmap string bool) k,
  k ∉ ks \/ is_Some (al !! k) -> add_keys ks al av !! k = av !! k.
Proof.
  induction ks as [| x ks IH]; intros av k Hk; [reflexivity |].
  rewrite add_keys_cons, IH.
  - destruct (al !! x) eqn:Hx; [reflexivity |].
    apply lookup_insert_ne. intros ->. destruct Hk as [Hk | [v Hv]]; [| congruence].
    apply Hk, elem_of_cons. by left.
  - destruct Hk as [Hk | Hk]; [left | by right].
    intros Hin. apply Hk, elem_of_cons. by right.
Qed.

Lemma add_keys_lookup_in ks al : forall (av : gmap string bool) k,
  k ∈ ks -> al !! k = None -> add_keys ks al av !! k = Some true.
Proof.
  induction ks as [| x ks IH]; intros av k Hin Hal; [by apply elem_of_nil in Hin |].
  rewrite add_keys_cons. destruct (decide (k ∈ ks)) as [Hk | Hk]; [by apply IH |].
  apply elem_of_cons in Hin as [-> | Hin]; [| contradiction].
  rewrite add_keys_lookup_out by (by left). rewrite Hal. apply lookup_insert_eq.
Qed.

Lemma add_keys_twice ks al (av : gmap string bool) :
  add_keys ks al (add_keys ks al av) = add_keys ks al av.
Proof.
  apply map_eq. intros k.
  destruct (decide (k ∈ ks)) as [Hin | Hout].
  - destruct (al !! k) eqn:Hal.
    + apply add_keys_lookup_out. right. eauto.
    + by rewrite !add_keys_lookup_in.
  - apply add_keys_lookup_out. by left.
Qed.

End AddKeys.

(** X15. On a live context, with fuel for the block and a CIDR text that is not
    registered, [ExpandPool] does what [AddCIDR] with the description
    "扩展的网段" does: the walk of its own adds nothing that the final
    [AddCIDR] would not add. *)
Theorem ExpandPool_fresh fuel cidr ip n g :
  ParseCIDR cidr = Some (ip, n) ->
  fuel_for fuel n ->
  managedCIDRs g !! cidr = None ->
  ExpandPool fuel false cidr g = AddCIDR fuel false cidr "扩展的网段" g /\
  exists g1, ExpandPool fuel false cidr g = Some (inr tt, g1).
Proof.
  intros Hparse (p & Hn & Hp1 & Hfuel) Hreg.
  assert (Hrun : ExpandPool fuel false cidr g = AddCIDR fuel false cidr "扩展的网段" g).
  { unfold ExpandPool. rewrite Hparse. unfold cloneIP.
    rewrite (block_net_start p n Hn).
    erewrite bind_ok by (rewrite (walk_block p n Hn) by assumption; apply ExpandPool_list).
    rewrite (AddCIDR_run fuel cidr _ ip n p) by assumption.
    rewrite (AddCIDR_run fuel cidr _ ip n p) by assumption.
    cbn [with_available storage available allocated managedCIDRs].
    by rewrite add_keys_twice. }
  split; [exact Hrun |]. rewrite Hrun. eexists.
  apply (AddCIDR_run fuel cidr _ ip n p); assumption.
Qed.

Lemma ExpandPool_fresh_witness :
  ParseCIDR "10.0.0.0/30"
  = Some ((v4InV6Prefix ++ [10; 0; 0; 0])%list, mkIPNet [10; 0; 0; 0] [255; 255; 255; 252]) /\
  fuel_for 10 (mkIPNet [10; 0; 0; 0] [255; 255; 255; 252]) /\
  managedCIDRs empty_pool !! "10.0.0.0/30" = None /\
  ExpandPool 10 false "10.0.0.0/30" empty_pool
  = AddCIDR 10 false "10.0.0.0/30" "扩展的网段" empty_pool.
Proof.
  assert (H3 : managedCIDRs empty_pool !! "10.0.0.0/30" = None) by apply lookup_empty.
  split; [exact slash30_net |]. split; [exact slash30_fuel |]. split; [exact H3 |].
  exact (proj1 (ExpandPool_fresh 10 "10.0.0.0/30" _ _ empty_pool slash30_net slash30_fuel H3)).
Defined.

(** ** pool.go: the description AllocateCIDR writes, read back *)

Section Encoding.

Lemma IndexByte_space_dec x : is_byte x -> IndexByte (dec x) " " = None.
Proof.
  intros Hx.
  assert (Hall : forallb (fun x => bool_decide (IndexByte (dec x) " " = None)) (seqZ 0 256) = true)
    by (vm_compute; reflexivity).
  rewrite forallb_forall in Hall.
  assert (Hin : In x (seqZ 0 256))
    by (apply list_elem_of_In, elem_of_seqZ; unfold is_byte in Hx; lia).
  apply Hall, bool_decide_eq_true in Hin. exact Hin.
Qed.

Lemma IndexByte_space_itoa p : 0 <= p <= 32 -> IndexByte (itoa p) " " = None.
Proof.
  intros Hp.
  assert (Hall : forallb (fun x => bool_decide (IndexByte (itoa x) " " = None)) (seqZ 0 33) = true)
    by (vm_compute; reflexivity).
  rewrite forallb_forall in Hall.
  assert (Hin : In p (seqZ 0 33)) by (apply list_elem_of_In, elem_of_seqZ; lia).
  apply Hall, bool_decide_eq_true in Hin. exact Hin.
Qed.

Lemma IndexByte_space_cidr ip p :
  ip4 ip -> 0 <= p <= 32 -> IndexByte (IP_String ip +:+ "/" +:+ itoa p) " " = None.
Proof.
  intros (a & b & c & d & -> & Ha & Hb & Hc & Hd) Hp. rewrite IP_String_4.
  rewrite !append_assoc.
  repeat (apply IndexByte_app_None;
          [first [apply IndexByte_space_dec; assumption | reflexivity] |]).
  apply IndexByte_space_itoa, Hp.
Qed.

Lemma strings_Index_after (c d : string) :
  IndexByte c " " = None ->
  strings_Index (c +:+ " - " +:+ d) " - " = Some (String.length c).
Proof.
  induction c as [| x c IH]; intros Hc.
  - rewrite append_nil_l, !append_cons, append_nil_l, strings_Index_cons.
    replace (String.prefix " - " (String " " (String "-" (String " " d)))) with true;
      [reflexivity |].
    symmetry. apply prefix_spec. exists d. by rewrite !append_cons, append_nil_l.
  - cbn [IndexByte] in Hc. destruct (Ascii.eqb x " ") eqn:Hx; [discriminate |].
    destruct (IndexByte c " ") eqn:Hc'; [discriminate |].
    rewrite append_cons, strings_Index_cons, (IH eq_refl).
    replace (String.prefix " - " (String x (c +:+ " - " +:+ d))) with false; [reflexivity |].
    symmetry. apply not_true_is_false. intros Hpre. apply prefix_spec in Hpre as [v Hv].
    rewrite !append_cons in Hv. injection Hv as -> _. discriminate.
Qed.

Lemma SplitN2_after (c d : string) :
  IndexByte c " " = None -> SplitN2 (c +:+ " - " +:+ d) " - " = Some (c, d).
Proof.
  intros Hc. unfold SplitN2. rewrite (strings_Index_after c d Hc).
  destruct (substring_split c " - " d) as [H1 H2]. by rewrite H1, H2.
Qed.

End Encoding.

(** X16. What [AllocateCIDR] writes, [GetUsedCIDRs] reads back: after a
    successful [AllocateCIDR(p, d)] that returned [c], on a live context
    and in whatever order the allocated map is ranged, the result of
    [GetUsedCIDRs] maps [c] to [d], provided no description that was
    Allocated before splits into [c] and another text.  The text [c] holds
    no space, so a [d] with [" - "] inside is read back whole. *)
Theorem AllocateCIDR_then_GetUsedCIDRs
    (range : gmap string string -> list (string * string)) p d g c g1 :
  (forall m, range m ≡ₚ map_to_list m) ->
  AllocateCIDR false p d g = Some (inr c, g1) ->
  (forall k desc d', allocated (storage g) !! k = Some desc ->
                     SplitN2 desc " - " = Some (c, d') -> d' = d) ->
  exists res,
    GetUsedCIDRs_in range false g1 = Some (inr res, g1) /\ res !! c = Some d.
Proof.
  intros Hrange Halloc Huniq.
  destruct (AllocateCIDR_success _ _ _ _ _ Halloc)
    as (Hp & ip & Hip & Hm & Hc & _ & Hg1).
  assert (Hsplit : SplitN2 (c +:+ " - " +:+ d) " - " = Some (c, d)).
  { apply SplitN2_after. rewrite Hc. apply IndexByte_space_cidr; assumption. }
  set (al1 := <[IP_String ip := c +:+ " - " +:+ d]> (allocated (storage g))) in *.
  assert (Hin : forall desc, desc ∈ map snd (range al1) <-> exists k, al1 !! k = Some desc).
  { intros desc. rewrite list_elem_of_fmap. split.
    - intros ([k v] & -> & H). rewrite (Hrange al1) in H.
      apply elem_of_map_to_list in H. eauto.
    - intros [k H]. exists (k, desc). split; [reflexivity |].
      rewrite (Hrange al1). apply elem_of_map_to_list. exact H. }
  destruct (GetUsedCIDRs_loop_spec (map snd (range al1)) ∅) as (res & Hr & H1 & _ & H3).
  exists res. split.
  - subst g1. unfold GetUsedCIDRs_in. msimpl. fold al1. rewrite Hr. reflexivity.
  - assert (Hd : (c +:+ " - " +:+ d) ∈ map snd (range al1)).
    { apply Hin. exists (IP_String ip). apply lookup_insert_eq. }
    destruct (H3 _ _ _ Hd Hsplit) as [v Hv]. rewrite Hv. f_equal.
    destruct (H1 _ _ Hv) as [H | (desc' & Hd' & Hs')]; [by rewrite lookup_empty in H |].
    apply Hin in Hd' as [k Hk]. unfold al1 in Hk.
    apply lookup_insert_Some in Hk as [[_ <-] | [_ Hk]].
    + rewrite Hsplit in Hs'. congruence.
    + exact (Huniq k desc' v Hk Hs').
Qed.

Lemma AllocateCIDR_then_GetUsedCIDRs_witness :
  (forall m : gmap string string, map_to_list m ≡ₚ map_to_list m) /\
  AllocateCIDR false 31 "db - primary" pool_two_free
  = Some (inr "10.0.0.0/31"%string,
          mkGuardian (mkStorage ∅ {["10.0.0.0" := "10.0.0.0/31 - db - primary"]}) ∅) /\
  exists res,
    GetUsedCIDRs_in map_to_list false
      (mkGuardian (mkStorage ∅ {["10.0.0.0" := "10.0.0.0/31 - db - primary"]}) ∅)
    = Some (inr res, mkGuardian (mkStorage ∅ {["10.0.0.0" := "10.0.0.0/31 - db - primary"]}) ∅) /\
    res !! "10.0.0.0/31" = Some "db - primary"%string.
Proof.
  assert (H1 : forall m : gmap string string, map_to_list m ≡ₚ map_to_list m) by reflexivity.
  assert (H2 : AllocateCIDR false 31 "db - primary" pool_two_free
               = Some (inr "10.0.0.0/31"%string,
                       mkGuardian (mkStorage ∅ {["10.0.0.0" := "10.0.0.0/31 - db - primary"]}) ∅))
    by (vm_compute; reflexivity).
  assert (H3 : forall k desc d', allocated (storage pool_two_free) !! k = Some desc ->
                 SplitN2 desc " - " = Some ("10.0.0.0/31"%string, d') -> d' = "db - primary"%string).
  { intros k desc d' Hk. change (allocated (storage pool_two_free)) with (∅ : gmap string string) in Hk.
    by rewrite lookup_empty in Hk. }
  split; [exact H1 |]. split; [exact H2 |].
  exact (AllocateCIDR_then_GetUsedCIDRs map_to_list 31 "db - primary" pool_two_free _ _ H1 H2 H3).
Defined.

(** ** pool.go: single addresses *)

(** X17. [AddSingleIP] checks the text only: for the text of an IPv4 address
    that is in neither set it succeeds whatever the registry holds, an
    empty one included, and only that key becomes Available.
    [RemoveSingleIP] right after undoes it; on the engine before the
    addition it fails. *)
Theorem AddSingleIP_RemoveSingleIP a g :
  ip4 a ->
  available (storage g) !! IP_String a = None ->
  allocated (storage g) !! IP_String a = None ->
  AddSingleIP false (IP_String a) g
  = Some (inr tt,
          mkGuardian (mkStorage (<[IP_String a := true]> (available (storage g)))
                                (allocated (storage g)))
                     (managedCIDRs g)) /\
  RemoveSingleIP false (IP_String a)
    (mkGuardian (mkStorage (<[IP_String a := true]> (available (storage g)))
                           (allocated (storage g)))
                (managedCIDRs g))
  = Some (inr tt, g) /\
  RemoveSingleIP false (IP_String a) g = Some (inl (AddressUnavailable (IP_String a)), g).
Proof.
  intros Ha Hav Hal. destruct g as [[av al] reg]. cbn [storage available allocated managedCIDRs] in *.
  split; [| split].
  - unfold AddSingleIP, ParseIP. rewrite (ParseAddr_IP_String a Ha).
    rewrite (bind_ok (check false) _ _ tt (mkGuardian (mkStorage av al) reg)) by reflexivity.
    unfold on_storage, Storage.AddIP. cbn [ctx_Err storage available allocated managedCIDRs].
    by rewrite Hal.
  - unfold RemoveSingleIP.
    rewrite (bind_ok (check false) _ _ tt
               (mkGuardian (mkStorage (<[IP_String a := true]> av) al) reg)) by reflexivity.
    unfold on_storage, Storage.RemoveIP. cbn [ctx_Err storage available allocated managedCIDRs].
    rewrite lookup_insert_eq, delete_insert_id by exact Hav. reflexivity.
  - unfold RemoveSingleIP.
    rewrite (bind_ok (check false) _ _ tt (mkGuardian (mkStorage av al) reg)) by reflexivity.
    unfold on_storage, Storage.RemoveIP. cbn [ctx_Err storage available allocated managedCIDRs].
    by rewrite Hav.
Qed.

Lemma AddSingleIP_RemoveSingleIP_witness :
  ip4 [10; 0; 0; 0] /\
  available (storage empty_pool) !! IP_String [10; 0; 0; 0] = None /\
  allocated (storage empty_pool) !! IP_String [10; 0; 0; 0] = None /\
  RemoveSingleIP false (IP_String [10; 0; 0; 0]) empty_pool
  = Some (inl (AddressUnavailable (IP_String [10; 0; 0; 0])), empty_pool).
Proof.
  assert (Hip : ip4 [10; 0; 0; 0]).
  { exists 10, 0, 0, 0. unfold is_byte. split; [reflexivity | lia]. }
  assert (H1 : available (storage empty_pool) !! IP_String [10; 0; 0; 0] = None)
    by apply lookup_empty.
  assert (H2 : allocated (storage empty_pool) !! IP_String [10; 0; 0; 0] = None)
    by apply lookup_empty.
  split; [exact Hip |]. split; [exact H1 |]. split; [exact H2 |].
  exact (proj2 (proj2 (AddSingleIP_RemoveSingleIP [10; 0; 0; 0] empty_pool Hip H1 H2))).
Defined.

(** ** pool.go: the registry as GetManagedCIDRs shows it *)

Lemma walk_removeCIDR_registry n : forall (fuel : nat) ip g r g',
  walk fuel n ip (removeCIDR_body false) tt g = Some (r, g') ->
  managedCIDRs g' = managedCIDRs g /\ allocated (storage g') = allocated (storage g).
Proof.
  induction fuel as [| fuel IH]; intros ip g r g' Hw; [discriminate |].
  cbn [walk] in Hw. destruct (Contains n ip).
  - rewrite (bind_ok _ _ _ _ _ (removeCIDR_body_live ip g)) in Hw.
    apply IH in Hw as [-> ->]. split; reflexivity.
  - injection Hw as <- <-. split; reflexivity.
Qed.

(** X18. [GetManagedCIDRs] returns the registered texts with their
    descriptions, and it follows the calls that succeed: [AddCIDR] adds
    its text, which was absent, with the description given; [RemoveCIDR]
    removes its text, which was present; [AllocateCIDR] changes nothing. *)
Theorem GetManagedCIDRs_follows fuel cidr g :
  exists m,
    GetManagedCIDRs false g = Some (inr m, g) /\
    (forall c, is_Some (m !! c) <-> is_Some (managedCIDRs g !! c)) /\
    (forall d g1, AddCIDR fuel false cidr d g = Some (inr tt, g1) ->
       m !! cidr = None /\
       GetManagedCIDRs false g1 = Some (inr (<[cidr := d]> m), g1)) /\
    (forall g1, RemoveCIDR fuel false cidr g = Some (inr tt, g1) ->
       is_Some (m !! cidr) /\
       GetManagedCIDRs false g1 = Some (inr (delete cidr m), g1)) /\
    (forall p d c g1, AllocateCIDR false p d g = Some (inr c, g1) ->
       GetManagedCIDRs false g1 = Some (inr m, g1)).
Proof.
  exists (Description <$> managedCIDRs g).
  split; [reflexivity |]. split; [| split; [| split]].
  - intros c. rewrite lookup_fmap. apply fmap_is_Some.
  - intros d g1 Hadd. destruct (ParseCIDR cidr) as [[ip n] |] eqn:Hparse.
    + destruct (AddCIDR_success _ _ _ _ _ _ _ Hparse Hadd)
        as (p & _ & _ & _ & Hreg & ->).
      split; [by rewrite lookup_fmap, Hreg |].
      unfold GetManagedCIDRs. msimpl. by rewrite fmap_insert.
    + unfold AddCIDR in Hadd. rewrite Hparse in Hadd. discriminate.
  - intros g1 Hrm. unfold RemoveCIDR, removeCIDRWithoutLock in Hrm.
    rewrite (bind_ok registry _ _ (managedCIDRs g) g) in Hrm by reflexivity.
    destruct (managedCIDRs g !! cidr) as [info |] eqn:Hreg; [| discriminate].
    apply bind_inv in Hrm as ([] & g0 & Hw & Hset).
    apply walk_removeCIDR_registry in Hw as [Hr _].
    injection Hset as <-. split; [rewrite lookup_fmap, Hreg; eauto |].
    unfold GetManagedCIDRs. msimpl. by rewrite Hr, fmap_delete.
  - intros p d c g1 Halloc.
    destruct (AllocateCIDR_success _ _ _ _ _ Halloc) as (_ & ip & _ & _ & _ & _ & ->).
    reflexivity.
Qed.

Lemma GetManagedCIDRs_follows_witness :
  exists m,
    GetManagedCIDRs false pool_registered = Some (inr m, pool_registered) /\
    forall c, is_Some (m !! c) <-> is_Some (managedCIDRs pool_registered !! c).
Proof.
  destruct (GetManagedCIDRs_follows 10 "10.0.0.0/30" pool_registered) as (m & H1 & H2 & _).
  exists m. split; [exact H1 | exact H2].
Defined.

(** ** pool.go: NewCIDRGuardian *)

Lemma addInitial_built fuel cidrs : forall g0 g,
  addInitial fuel false cidrs g0 = Some (inr tt, g) ->
  NoDup cidrs /\
  (forall c, c ∈ cidrs -> managedCIDRs g0 !! c = None /\ is_Some (ParseCIDR c)) /\
  allocated (storage g) = allocated (storage g0) /\
  (forall c info, managedCIDRs g !! c = Some info <->
     managedCIDRs g0 !! c = Some info \/
     (c ∈ cidrs /\ exists ip n, ParseCIDR c = Some (ip, n) /\ info = mkCIDRInfo c "初始 CIDR" n)) /\
  (forall s, is_Some (available (storage g) !! s) <->
     is_Some (available (storage g0) !! s) \/
     (exists c ip n, c ∈ cidrs /\ ParseCIDR c = Some (ip, n) /\ in_block n s /\
                     allocated (storage g0) !! s = None)).
Proof.
  induction cidrs as [| c cidrs IH]; intros g0 g Hrun.
  - injection Hrun as <-. split; [constructor |]. split; [intros c Hc; by apply elem_of_nil in Hc |].
    split; [reflexivity |]. split.
    + intros c info. split; [auto |]. intros [H | [H _]]; [exact H | by apply elem_of_nil in H].
    + intros s. split; [auto |]. intros [H | (c & ip & n & H & _)]; [exact H |].
      by apply elem_of_nil in H.
  - cbn [addInitial] in Hrun. unfold mbind, M_bind, attempt in Hrun.
    destruct (AddCIDR fuel false c "初始 CIDR" g0) as [[[e | []] g1] |] eqn:Hadd; try discriminate.
    destruct (ParseCIDR c) as [[ip n] |] eqn:Hparse;
      [| unfold AddCIDR in Hadd; rewrite Hparse in Hadd; discriminate].
    destruct (AddCIDR_success _ _ _ _ _ _ _ Hparse Hadd)
      as (p & Hn & _ & _ & Hreg & ->).
    apply IH in Hrun as (Hnd & Hfresh & Hal & Hregs & Hav).
    cbn [storage available allocated managedCIDRs] in *.
    assert (Hc : c ∉ cidrs).
    { intros Hin. destruct (Hfresh c Hin) as [Hf _]. by rewrite lookup_insert_eq in Hf. }
    split; [by constructor |]. split; [| split; [exact Hal | split]].
    + intros c' Hc'. apply elem_of_cons in Hc' as [-> | Hc']; [rewrite Hparse; eauto |].
      destruct (Hfresh c' Hc') as [Hf Hp']. apply lookup_insert_None in Hf as [H _]. auto.
    + intros c' info. rewrite Hregs, lookup_insert_Some. split.
      * intros [[[<- <-] | [Hne H]] | (Hin & H)].
        -- right. split; [apply elem_of_cons; by left | eauto].
        -- by left.
        -- right. split; [apply elem_of_cons; by right | exact H].
      * intros [H | (Hin & ip' & n' & Hp' & ->)].
        -- left. right. split; [| exact H]. intros <-. congruence.
        -- apply elem_of_cons in Hin as [-> | Hin].
           ++ left. left. rewrite Hparse in Hp'. injection Hp' as <- <-. auto.
           ++ right. split; [exact Hin | eauto].
    + intros s. rewrite Hav, add_keys_lookup, (block_strings_spec p n Hn). split.
      * intros [[H | [Hb Hs]] | (c' & ip' & n' & Hin & Hp' & Hb & Hs)].
        -- by left.
        -- right. exists c, ip, n. split; [apply elem_of_cons; by left | auto].
        -- right. exists c', ip', n'. split; [apply elem_of_cons; by right | auto].
      * intros [H | (c' & ip' & n' & Hin & Hp' & Hb & Hs)]; [left; by left |].
        apply elem_of_cons in Hin as [-> | Hin].
        -- rewrite Hparse in Hp'. injection Hp' as <- <-. left. right. auto.
        -- right. eauto 8.
Qed.

(** X19. When [NewCIDRGuardian] succeeds on the in-memory storage, the initial
    texts are pairwise different and are exactly the registered ones, each
    with the description "初始 CIDR" and the network its text parses to;
    nothing is Allocated; and the Available keys are exactly the texts of
    the addresses of the registered blocks. *)
Theorem NewCIDRGuardian_built fuel cidrs g :
  NewCIDRGuardian fuel false cidrs = Some (inr g) ->
  NoDup cidrs /\
  (forall c, is_Some (managedCIDRs g !! c) <-> c ∈ cidrs) /\
  (forall c info, managedCIDRs g !! c = Some info ->
     CIDR info = c /\ Description info = "初始 CIDR"%string /\
     exists ip, ParseCIDR c = Some (ip, IPNet_of info)) /\
  allocated (storage g) = ∅ /\
  (forall s, is_Some (available (storage g) !! s) <->
     exists c info, managedCIDRs g !! c = Some info /\ in_block (IPNet_of info) s).
Proof.
  intros Hnew. unfold NewCIDRGuardian in Hnew. cbn [ctx_Err] in Hnew.
  destruct (addInitial fuel false cidrs (mkGuardian NewMemoryIPStorage ∅))
    as [[[e | []] g'] |] eqn:Hrun; try discriminate.
  injection Hnew as ->.
  apply addInitial_built in Hrun as (Hnd & Hfresh & Hal & Hregs & Hav).
  cbn [storage available allocated managedCIDRs NewMemoryIPStorage] in *.
  split; [exact Hnd |]. split; [| split; [| split; [exact Hal |]]].
  - intros c. split.
    + intros [info H]. apply Hregs in H as [H | [H _]]; [by rewrite lookup_empty in H | exact H].
    + intros Hin. destruct (Hfresh c Hin) as [_ [[ip n] Hparse]].
      exists (mkCIDRInfo c "初始 CIDR" n). apply Hregs. right. eauto.
  - intros c info H. apply Hregs in H as [H | (_ & ip & n & Hp & ->)];
      [by rewrite lookup_empty in H |].
    cbn [CIDR Description IPNet_of]. eauto.
  - intros s. rewrite Hav. split.
    + intros [[v H] | (c & ip & n & Hin & Hp & Hb & _)]; [by rewrite lookup_empty in H |].
      exists c, (mkCIDRInfo c "初始 CIDR" n). split; [| exact Hb]. apply Hregs. right. eauto.
    + intros (c & info & H & Hb). right.
      apply Hregs in H as [H | (Hin & ip & n & Hp & ->)]; [by rewrite lookup_empty in H |].
      exists c, ip, n. split; [exact Hin |]. split; [exact Hp |]. split; [exact Hb |].
      apply lookup_empty.
Qed.

Lemma NewCIDRGuardian_built_witness :
  NewCIDRGuardian 10 false ["10.0.0.0/30"%string] = Some (inr pool_registered) /\
  allocated (storage pool_registered) = ∅ /\
  forall c, is_Some (managedCIDRs pool_registered !! c) <-> c ∈ ["10.0.0.0/30"%string].
Proof.
  assert (H : NewCIDRGuardian 10 false ["10.0.0.0/30"%string] = Some (inr pool_registered))
    by (vm_compute; reflexivity).
  split; [exact H |].
  destruct (NewCIDRGuardian_built 10 ["10.0.0.0/30"%string] pool_registered H)
    as (_ & H2 & _ & H4 & _).
  split; [exact H4 | exact H2].
Defined.

(** ** pool.go: GetAvailableCIDRs *)

Lemma GetAvailableCIDRs_loop_spec l : forall cidrs0,
  Forall (fun k => exists a, ip4 a /\ IP_String a = k) l ->
  exists cidrs,
    GetAvailableCIDRs_loop false l cidrs0 = inr cidrs /\
    forall c, is_Some (cidrs !! c) <->
      is_Some (cidrs0 !! c) \/
      exists a, ip4 a /\ IP_String a ∈ l /\
                c = IP_String (Mask a (CIDRMask 24 32)) +:+ "/24".
Proof.
  induction l as [| k l IH]; intros cidrs0 Hl.
  - exists cidrs0. split; [reflexivity |]. intros c. split; [auto |].
    intros [H | (a & _ & H & _)]; [exact H | by apply elem_of_nil in H].
  - apply Forall_cons in Hl as [(a & Ha & <-) Hl].
    cbn [GetAvailableCIDRs_loop ctx_Err]. unfold ParseIP.
    rewrite (ParseAddr_IP_String a Ha), (Mask_16_4 24 a) by (lia || exact Ha).
    destruct (IH (<[IP_String (Mask a (CIDRMask 24 32)) +:+ "/24" := true]> cidrs0) Hl)
      as (cidrs & Hrun & Hspec).
    exists cidrs. split; [exact Hrun |]. intros c. rewrite Hspec. split.
    + intros [H | (b & Hb & Hin & ->)].
      * apply lookup_insert_is_Some in H as [<- | [_ H]]; [| by left].
        right. exists a. split; [exact Ha |]. split; [apply elem_of_cons; by left | reflexivity].
      * right. exists b. split; [exact Hb |]. split; [apply elem_of_cons; by right | reflexivity].
    + intros [H | (b & Hb & Hin & ->)].
      * left. apply lookup_insert_is_Some'. by right.
      * apply elem_of_cons in Hin as [Heq | Hin].
        -- apply IP_String_inj in Heq; [| assumption..]. subst b.
           left. apply lookup_insert_is_Some'. by left.
        -- right. eauto.
Qed.

(** X20. When every Available key is the text of an IPv4 address, on a live
    context [GetAvailableCIDRs] returns, in ascending byte order and
    without repetition, the /24 texts of the Available addresses: a text
    is listed as soon as one address of its /24 is Available, and the
    pool is left as it was. *)
Theorem GetAvailableCIDRs_slash24 g :
  (forall k, is_Some (available (storage g) !! k) -> exists a, ip4 a /\ IP_String a = k) ->
  exists cidrs,
    GetAvailableCIDRs false g = Some (inr cidrs, g) /\
    StronglySorted String.le cidrs /\ NoDup cidrs /\
    forall c, c ∈ cidrs <->
      exists a, ip4 a /\ is_Some (available (storage g) !! IP_String a) /\
                c = IP_String (Mask a (CIDRMask 24 32)) +:+ "/24".
Proof.
  intros Hkeys.
  set (keys := sort_Strings (map fst (map_to_list (available (storage g))))).
  assert (Hget : on_storage (Storage.GetAvailableIPs false) g = Some (inr keys, g))
    by (destruct g as [[av al] reg]; reflexivity).
  assert (Hk : forall k, k ∈ keys <-> is_Some (available (storage g) !! k)).
  { intros k. unfold keys. rewrite (list_elem_of_In _ k). apply available_keys_In. }
  destruct (GetAvailableCIDRs_loop_spec keys ∅) as (cidrs & Hrun & Hspec).
  { apply Forall_forall. intros k Hin. apply Hkeys, Hk, Hin. }
  exists (match keys with [] => [] | _ => sort_Strings (map fst (map_to_list cidrs)) end).
  split.
  { unfold GetAvailableCIDRs. rewrite (bind_ok (check false) _ _ tt g) by reflexivity.
    rewrite (bind_ok _ _ _ _ _ Hget). destruct keys; [reflexivity |]. by rewrite Hrun. }
  assert (Hres : (match keys with [] => [] | _ => sort_Strings (map fst (map_to_list cidrs)) end)
                 = sort_Strings (map fst (map_to_list cidrs))).
  { destruct keys; [| reflexivity]. injection Hrun as <-. by rewrite map_to_list_empty. }
  rewrite Hres. split; [apply sort_Strings_Sorted |]. split.
  - rewrite sort_Strings_perm. apply NoDup_fst_map_to_list.
  - intros c. rewrite sort_Strings_perm, list_elem_of_fmap. split.
    + intros ([c' v] & -> & Hin). apply elem_of_map_to_list in Hin. cbn [fst].
      destruct (proj1 (Hspec c')) as [[? H] | (a & Ha & Hin' & ->)]; [eauto | |].
      * by rewrite lookup_empty in H.
      * exists a. split; [exact Ha |]. split; [apply Hk, Hin' | reflexivity].
    + intros (a & Ha & Hav & ->).
      destruct (proj2 (Hspec (IP_String (Mask a (CIDRMask 24 32)) +:+ "/24"))) as [v Hv].
      { right. exists a. split; [exact Ha |]. split; [apply Hk, Hav | reflexivity]. }
      exists (IP_String (Mask a (CIDRMask 24 32)) +:+ "/24", v). split; [reflexivity |].
      apply elem_of_map_to_list, Hv.
Qed.

Lemma GetAvailableCIDRs_slash24_witness :
  (forall k, is_Some (available (storage pool_two_free) !! k) ->
             exists a, ip4 a /\ IP_String a = k) /\
  exists cidrs, GetAvailableCIDRs false pool_two_free = Some (inr cidrs, pool_two_free).
Proof.
  assert (H : forall k, is_Some (available (storage pool_two_free) !! k) ->
                        exists a, ip4 a /\ IP_String a = k).
  { intros k Hk. apply two_free_keys in Hk as [-> | ->].
    - exists [10; 0; 0; 0]. split; [| vm_compute; reflexivity].
      exists 10, 0, 0, 0. unfold is_byte. split; [reflexivity | lia].
    - exists [10; 0; 0; 1]. split; [| vm_compute; reflexivity].
      exists 10, 0, 0, 1. unfold is_byte. split; [reflexivity | lia]. }
  split; [exact H |].
  destruct (GetAvailableCIDRs_slash24 pool_two_free H) as (cidrs & Hrun & _).
  exists cidrs. exact Hrun.
Defined.

(** ** pool.go: what an allocated block excludes *)

(** A successful [GetNextAvailableIP] returned an Available key. *)
Lemma GetNextAvailableIP_success d g s g1 :
  GetNextAvailableIP false d g = Some (inr s, g1) -> is_Some (available (storage g) !! s).
Proof.
  intros H. unfold GetNextAvailableIP in H.
  rewrite (bind_ok _ _ _ (sort_Strings (map fst (map_to_list (available (storage g))))) g) in H
    by (destruct g as [[av al] reg]; reflexivity).
  destruct (sort_Strings _) as [| k rest] eqn:Hs; [discriminate |].
  apply bind_inv in H as ([] & g0 & _ & H). injection H as -> _.
  apply available_keys_In. rewrite Hs. by left.
Qed.

(** X21. Once [AllocateCIDR] has returned [c], no key of the block of [c] is
    Available, so nothing hands an address of the block out again:
    [AllocateIP] of such a key fails and changes nothing,
    [GetNextAvailableIP] returns a key outside the block, and the block of
    a further [AllocateCIDR] shares no address with it. *)
Theorem AllocateCIDR_no_double_allocation p d g c g1 :
  AllocateCIDR false p d g = Some (inr c, g1) ->
  exists ip n,
    ParseCIDR c = Some (ip, n) /\
    (forall s, in_block n s -> available (storage g1) !! s = None) /\
    (forall s d', in_block n s ->
       AllocateIP false s d' g1 = Some (inl (AddressUnavailable s), g1)) /\
    (forall d' s g2, GetNextAvailableIP false d' g1 = Some (inr s, g2) -> ~ in_block n s) /\
    (forall q d' c' g2 ip' n',
       AllocateCIDR false q d' g1 = Some (inr c', g2) ->
       ParseCIDR c' = Some (ip', n') ->
       forall s, in_block n s -> ~ in_block n' s).
Proof.
  intros Halloc.
  destruct (AllocateCIDR_success _ _ _ _ _ Halloc)
    as (Hp & ip & Hip & Hm & Hc & Havail & Hg1).
  assert (Hmod : ipZ ip mod block_size p = 0) by (by apply (Mask_fixed_iff p ip Hp Hip)).
  assert (Hn : block_net p (mkIPNet ip (CIDRMask p 32))).
  { unfold block_net. cbn [IPNet_IP IPNet_Mask]. repeat split; auto; lia. }
  rewrite del_keys_but_start in Hg1 by (apply start_in_block; assumption).
  exists (v4InV6Prefix ++ ip)%list, (mkIPNet ip (CIDRMask p 32)).
  assert (Hgone : forall s, in_block (mkIPNet ip (CIDRMask p 32)) s ->
                            available (storage g1) !! s = None).
  { intros s Hs. subst g1. cbn [storage available].
    apply del_keys_lookup_in, (block_strings_spec p _ Hn), Hs. }
  split; [rewrite Hc, (ParseCIDR_IP_String ip p Hip Hp), Hm; reflexivity |].
  split; [exact Hgone |]. split; [| split].
  - intros s d' Hs. specialize (Hgone s Hs). destruct g1 as [[av1 al1] reg1].
    cbn [storage available] in Hgone.
    unfold AllocateIP, on_storage, Storage.AllocateIP. cbn [ctx_Err storage available].
    by rewrite Hgone.
  - intros d' s g2 Hnext Hs. apply GetNextAvailableIP_success in Hnext as [v Hv].
    rewrite (Hgone s Hs) in Hv. discriminate.
  - intros q d' c' g2 ip' n' Halloc' Hparse' s Hs Hs'.
    destruct (AllocateCIDR_success _ _ _ _ _ Halloc')
      as (Hq & a & Ha & Hma & Hc' & Havail' & _).
    rewrite Hc', (ParseCIDR_IP_String a q Ha Hq), Hma in Hparse'. injection Hparse' as _ <-.
    assert (Hn' : block_net q (mkIPNet a (CIDRMask q 32))).
    { unfold block_net. cbn [IPNet_IP IPNet_Mask]. repeat split; auto; try lia.
      by apply (Mask_fixed_iff q a Hq Ha). }
    apply (block_strings_spec q _ Hn') in Hs'. destruct (Havail' s Hs') as [v Hv].
    rewrite (Hgone s Hs) in Hv. discriminate.
Qed.

Lemma AllocateCIDR_no_double_allocation_witness :
  AllocateCIDR false 31 "db" pool_two_free = Some (inr "10.0.0.0/31"%string, pool_two_free_31) /\
  exists ip n,
    ParseCIDR "10.0.0.0/31" = Some (ip, n) /\
    forall s, in_block n s -> available (storage pool_two_free_31) !! s = None.
Proof.
  assert (H : AllocateCIDR false 31 "db" pool_two_free
              = Some (inr "10.0.0.0/31"%string, pool_two_free_31))
    by (vm_compute; reflexivity).
  split; [exact H |].
  destruct (AllocateCIDR_no_double_allocation 31 "db" _ _ _ H) as (ip & n & H1 & H2 & _).
  exists ip, n. split; [exact H1 | exact H2].
Defined.

(** ** pool.go: overlapping CIDRs *)

(** [RemoveCIDR] of a registered text, run. *)
Lemma RemoveCIDR_run fuel cidr info p g :
  managedCIDRs g !! cidr = Some info ->
  block_net p (IPNet_of info) -> 1 <= p -> (Z.to_nat (block_size p) < fuel)%nat ->
  RemoveCIDR fuel false cidr g
  = Some (inr tt,
          mkGuardian
            (mkStorage (del_keys (block_strings p (IPNet_of info)) (available (storage g)))
                       (allocated (storage g)))
            (delete cidr (managedCIDRs g))).
Proof.
  intros Hreg Hn Hp1 Hfuel. unfold RemoveCIDR, removeCIDRWithoutLock.
  rewrite (bind_ok registry _ _ (managedCIDRs g) g) by reflexivity.
  rewrite Hreg. unfold cloneIP. rewrite (block_net_start p _ Hn).
  erewrite bind_ok by (rewrite (walk_block p _ Hn) by assumption; apply removeCIDR_list).
  reflexivity.
Qed.

(** X22. The registry does not protect shared addresses.  On a live context,
    when two different texts that are not registered are added one after
    the other, both calls succeed, whatever their blocks share; the
    [RemoveCIDR] of the first then takes every key of its block out of
    Available, the keys the second block shares included, while the second
    text stays registered. *)
Theorem RemoveCIDR_overlapping fuel c1 c2 d1 d2 ip1 n1 ip2 n2 g :
  ParseCIDR c1 = Some (ip1, n1) -> fuel_for fuel n1 ->
  ParseCIDR c2 = Some (ip2, n2) -> fuel_for fuel n2 ->
  c1 <> c2 ->
  managedCIDRs g !! c1 = None -> managedCIDRs g !! c2 = None ->
  exists g1 g2 g3,
    AddCIDR fuel false c1 d1 g = Some (inr tt, g1) /\
    AddCIDR fuel false c2 d2 g1 = Some (inr tt, g2) /\
    RemoveCIDR fuel false c1 g2 = Some (inr tt, g3) /\
    managedCIDRs g3 !! c2 = Some (mkCIDRInfo c2 d2 n2) /\
    managedCIDRs g3 !! c1 = None /\
    forall s, in_block n1 s -> available (storage g3) !! s = None.
Proof.
  intros Hp1 (p1 & Hn1 & Hp1' & Hf1) Hp2 (p2 & Hn2 & Hp2' & Hf2) Hne Hr1 Hr2.
  eexists _, _, _.
  split; [apply (AddCIDR_run fuel c1 d1 ip1 n1 p1 g); assumption |].
  split.
  { apply (AddCIDR_run fuel c2 d2 ip2 n2 p2); try assumption.
    cbn [managedCIDRs]. by rewrite lookup_insert_ne. }
  split.
  { apply (RemoveCIDR_run fuel c1 (mkCIDRInfo c1 d1 n1) p1); try assumption.
    cbn [managedCIDRs]. rewrite lookup_insert_ne by congruence. apply lookup_insert_eq. }
  cbn [managedCIDRs storage available allocated IPNet_of].
  split; [rewrite lookup_delete_ne by congruence; apply lookup_insert_eq |].
  split; [apply lookup_delete_eq |].
  intros s Hs. apply del_keys_lookup_in, (block_strings_spec p1 n1 Hn1), Hs.
Qed.

Lemma RemoveCIDR_overlapping_witness :
  ParseCIDR "10.0.0.0/30"
  = Some ((v4InV6Prefix ++ [10; 0; 0; 0])%list, mkIPNet [10; 0; 0; 0] [255; 255; 255; 252]) /\
  ParseCIDR "10.0.0.0/31"
  = Some ((v4InV6Prefix ++ [10; 0; 0; 0])%list, mkIPNet [10; 0; 0; 0] [255; 255; 255; 254]) /\
  exists g1 g2 g3,
    AddCIDR 10 false "10.0.0.0/30" "lab" empty_pool = Some (inr tt, g1) /\
    AddCIDR 10 false "10.0.0.0/31" "pair" g1 = Some (inr tt, g2) /\
    RemoveCIDR 10 false "10.0.0.0/30" g2 = Some (inr tt, g3).
Proof.
  assert (Hf : fuel_for 10 (mkIPNet [10; 0; 0; 0] [255; 255; 255; 254])).
  { exists 31. split; [exact slash31_block_net |]. split; [lia |]. vm_compute. lia. }
  assert (Hne : "10.0.0.0/30"%string <> "10.0.0.0/31"%string) by discriminate.
  assert (H1 : managedCIDRs empty_pool !! "10.0.0.0/30" = None) by apply lookup_empty.
  assert (H2 : managedCIDRs empty_pool !! "10.0.0.0/31" = None) by apply lookup_empty.
  split; [exact slash30_net |]. split; [exact slash31_net |].
  destruct (RemoveCIDR_overlapping 10 "10.0.0.0/30" "10.0.0.0/31" "lab" "pair" _ _ _ _ empty_pool
              slash30_net slash30_fuel slash31_net Hf Hne H1 H2)
    as (g1 & g2 & g3 & Ha & Hb & Hc & _).
  exists g1, g2, g3. auto.
Defined.
